(** * VAX: the graph container, tree composition and user-function inlining

    A shallow embedding of [src/modules/vax] (the version with [Graph],
    [Node] and [Edge] classes and the inlining pass).

    The program is object-oriented JavaScript: [Node], [Edge] and [Graph]
    instances are mutable objects that are shared by reference.  The model
    keeps them in a store (one array of cells per class) and passes
    references around, so that a write through one reference is seen
    through every other one.  Methods are computations in a state and
    exception monad over that store. *)

From stdpp Require Import gmap strings list fin_maps pretty.

(** ** Values *)

(** The fields typed [any] (the attribute bag [a] and [t]) hold arbitrary
    JSON-like values.  Numbers are kept as integers: the program only
    copies and compares them. *)
#[warnings="-register-all"] Inductive Any :=
  | AUndefined
  | ANull
  | ABool (b : bool)
  | ANumber (z : Z)
  | AString (s : string)
  | AObject (props : gmap string Any).

Fixpoint Any_eq_dec (v1 v2 : Any) {struct v1} : Decision (v1 = v2).
Proof.
  refine (match v1, v2 with
          | AUndefined, AUndefined => left _
          | ANull, ANull => left _
          | ABool b1, ABool b2 => cast_if (decide (b1 = b2))
          | ANumber z1, ANumber z2 => cast_if (decide (z1 = z2))
          | AString s1, AString s2 => cast_if (decide (s1 = s2))
          | AObject o1, AObject o2 =>
              cast_if (@gmap_eq_dec string _ _ Any Any_eq_dec o1 o2)
          | _, _ => right _
          end); abstract congruence.
Defined.
#[global] Instance Any_EqDecision : EqDecision Any := Any_eq_dec.

(** Exceptions: [TypeError] is what reading a property of [undefined],
    calling a property that is not a function or spreading a value that
    is not iterable raises (the argument names the property: for a spread
    it is [Symbol.iterator]), [Error] is [throw new Error(message)]. *)
Inductive exn :=
  | TypeError (reading : string)
  | Error (message : string).

#[global] Instance exn_EqDecision : EqDecision exn.
Proof. solve_decision. Defined.

(** [value.prop] for a value typed [any]. *)
Definition Any_get (v : Any) (prop : string) : exn + Any :=
  match v with
  | AUndefined | ANull => inl (TypeError prop)
  | AObject props => inr (default AUndefined (props !! prop))
  | _ => inr AUndefined
  end.

(** [value === s] for a string [s]. *)
Definition Any_is_string (v : Any) (s : string) : bool :=
  match v with
  | AString s' => bool_decide (s' = s)
  | _ => false
  end.

(** ** Plain objects used as maps *)

(** The two indices of a graph are plain objects ([{}] extended by
    spreading), so besides their own properties they have the members
    that every plain object inherits from [Object.prototype]:
    [constructor] and the methods are functions, [__proto__] is an
    accessor that returns [Object.prototype] itself. *)
Definition Object_prototype : list string :=
  ["constructor"; "__defineGetter__"; "__defineSetter__"; "hasOwnProperty";
   "__lookupGetter__"; "__lookupSetter__"; "isPrototypeOf";
   "propertyIsEnumerable"; "toString"; "valueOf"; "__proto__";
   "toLocaleString"].

(** What [object[key]] evaluates to when it is not [undefined]: the value
    of an own property, or the inherited member of that name. *)
Inductive property (V : Type) :=
  | Own (v : V)
  | Inherited (name : string).
Arguments Own {V} v.
Arguments Inherited {V} name.

#[global] Instance property_EqDecision {V} `{EqDecision V} :
  EqDecision (property V).
Proof. solve_decision. Defined.

(** [object[key]] on a plain object whose own properties are [own];
    [None] is [undefined]. *)
Definition Object_get {V} (own : gmap string V) (key : string)
  : option (property V) :=
  match own !! key with
  | Some v => Some (Own v)
  | None =>
      if bool_decide (key ∈ Object_prototype) then Some (Inherited key)
      else None
  end.

(** A value that may be [undefined], as a property key and inside a
    template literal. *)
Definition String_of (v : option string) : string := default "undefined" v.

(** ** Nodes *)

(** [INode] and [class Node] have the same fields; a [NodesObject] maps a
    slot or node name to a [Node].  The keys [x], [y], [out] and [t] can
    be missing from a raw node ([x?], [y?], [out?] in [INode]; the wire
    format has no [t]): for these, [None] is a missing key and [Some v] a
    key that holds [v], where [v] can be [undefined] ([None], resp.
    [AUndefined]).  Reading a missing key gives [undefined].  The entries
    of an [edges] map are held by value: the program never writes to a
    node that it has entered in such a map (see [Graph_composeTree]). *)
Module Node.
#[warnings="-register-all"] Inductive Node := mk {
  id : string;
  a : Any;
  t : option Any;
  edges : gmap string Node;
  x : option (option Z);
  y : option (option Z);
  out : option (option string);
  c : string
}.
End Node.
Abbreviation Node := Node.Node.
Abbreviation INode := Node.Node.
Abbreviation NodesObject := (gmap string Node.Node).

Fixpoint Node_eq_dec (n1 n2 : Node) {struct n1} : Decision (n1 = n2).
Proof.
  refine (match n1, n2 with
          | Node.mk i1 a1 t1 e1 x1 y1 o1 c1, Node.mk i2 a2 t2 e2 x2 y2 o2 c2 =>
              if decide (i1 = i2) then
                if decide (a1 = a2) then
                  cast_if_and6 (decide (t1 = t2))
                    (@gmap_eq_dec string _ _ Node Node_eq_dec e1 e2)
                    (decide (x1 = x2)) (decide (y1 = y2)) (decide (o1 = o2))
                    (decide (c1 = c2))
                else right _
              else right _
          end); abstract congruence.
Defined.
#[global] Instance Node_EqDecision : EqDecision Node := Node_eq_dec.

#[global] Instance Node_inhabited : Inhabited Node :=
  populate (Node.mk "" AUndefined None ∅ None None None "").

(** References to [Node], [Edge] and [Graph] objects: positions in the
    store. *)
Abbreviation nref := nat.
Abbreviation eref := nat.
Abbreviation gref := nat.

(** ** Edges *)

Definition RawEdge : Type := string * string * string * string.

Module EdgeObject.
Record EdgeObject := mk {
  in_ : string;
  outputNodeId : string;
  out : string
}.
End EdgeObject.
Abbreviation EdgeObject := EdgeObject.EdgeObject.
Abbreviation NodeEdgesObject := (gmap string (list EdgeObject.EdgeObject)).

#[global] Instance EdgeObject_EqDecision : EqDecision EdgeObject.
Proof. solve_decision. Defined.

Module Edge.
Record Edge := mk {
  inputNodeId : string;
  inputNode : option nref;
  inputName : string;
  outputNodeId : string;
  outputNode : option nref;
  outputName : string;
  actions : list string
}.
End Edge.
Abbreviation Edge := Edge.Edge.

#[global] Instance Edge_EqDecision : EqDecision Edge.
Proof. solve_decision. Defined.

#[global] Instance Edge_inhabited : Inhabited Edge :=
  populate (Edge.mk "" None "" "" None "" []).

Inductive EdgeFilter := INPUT | OUTPUT.

(** ** Comments and raw graphs *)

Module Comment.
Record Comment := mk { comment : list string }.
End Comment.
Abbreviation Comment := Comment.Comment.
Abbreviation IComment := Comment.Comment.

#[global] Instance Comment_EqDecision : EqDecision Comment.
Proof. solve_decision. Defined.

Module RawGraph.
Record RawGraph := mk {
  nodes : list INode;
  edges : list RawEdge;
  comments : list IComment
}.
End RawGraph.
Abbreviation RawGraph := RawGraph.RawGraph.

#[global] Instance RawGraph_EqDecision : EqDecision RawGraph.
Proof. solve_decision. Defined.

(** lodash [isEqual] on raw graphs: deep comparison of plain data, key by
    key, so that a missing key and a key that holds [undefined] differ. *)
Definition isEqual (g1 g2 : RawGraph) : bool := bool_decide (g1 = g2).

(** ** Graphs *)

(** [nodesObject] and [nodeEdgesObject] hold the own properties of the two
    indices; they are read with [Object_get]. *)
Module Graph.
Record Graph := mk {
  nodes : list nref;
  edges : list eref;
  comments : list Comment;
  nodesObject : gmap string nref;
  nodeEdgesObject : NodeEdgesObject
}.
End Graph.
Abbreviation Graph := Graph.Graph.

#[global] Instance Graph_inhabited : Inhabited Graph :=
  populate (Graph.mk [] [] [] ∅ ∅).

(** ** The VAX instance *)

Module SchemaComponent.
Record SchemaComponent := mk { isUserFunction : bool }.
End SchemaComponent.
Abbreviation SchemaComponent := SchemaComponent.SchemaComponent.

(** [components] is a JavaScript object read with [Object.entries]: an
    association list in entry order. *)
Module Schema.
Record Schema := mk { components : list (string * SchemaComponent) }.
End Schema.
Abbreviation Schema := Schema.Schema.

(** The values of [userFunctionStorage] are functions [() => {}]; a stored
    function is represented by the object it returns. *)
Inductive UserFunction := UserFunctionClosure (result : Any).

(** [graph] is declared [private graph!: Graph]: it is [undefined] until
    something assigns it. *)
Module VAX.
Record VAX := mk {
  graph : option gref;
  schema : Schema;
  userFunctionStorage : gmap string UserFunction;
  counter : nat
}.
End VAX.
Abbreviation VAX := VAX.VAX.

(** ** The store and the monad of methods *)

Record Store := mkStore {
  node_objs : list Node;
  edge_objs : list Edge;
  graph_objs : list Graph;
  this_vax : VAX
}.

(** How a call ends: it returns a value, it raises an exception, or the
    model's bound on a recursion (the [fuel] of [Graph_composeTree] and
    [VAX_inlineUserFunctionsInGraph]) is reached.  The store that a call
    leaves is kept in all three cases: writes made before an exception
    stay. *)
Inductive outcome (A : Type) :=
  | Ok (v : A)
  | Throw (e : exn)
  | OutOfFuel.
Arguments Ok {A} v.
Arguments Throw {A} e.
Arguments OutOfFuel {A}.

Definition M (A : Type) : Type := Store → outcome A * Store.

Definition ret {A} (v : A) : M A := λ s, (Ok v, s).

Definition bind {A B} (m : M A) (k : A → M B) : M B :=
  λ s, match m s with
       | (Ok v, s') => k v s'
       | (Throw e, s') => (Throw e, s')
       | (OutOfFuel, s') => (OutOfFuel, s')
       end.

Definition throw {A} (e : exn) : M A := λ s, (Throw e, s).
Definition out_of_fuel {A} : M A := λ s, (OutOfFuel, s).

Notation "x <- m ;; k" := (bind m (λ x, k))
  (at level 100, m at next level, right associativity,
   format "'[v' x  <-  m  ;; '/' k ']'").
Notation "m ;;; k" := (bind m (λ _, k))
  (at level 100, right associativity,
   format "'[v' m  ;;; '/' k ']'").

(** [array.map(f)] and [array.forEach(f)] with an effectful callback. *)
Fixpoint mapM {A B} (f : A → M B) (l : list A) : M (list B) :=
  match l with
  | [] => ret []
  | v :: l' => w <- f v ;; ws <- mapM f l' ;; ret (w :: ws)
  end.

Fixpoint forEach {A} (l : list A) (f : A → M unit) : M unit :=
  match l with
  | [] => ret tt
  | v :: l' => f v ;;; forEach l' f
  end.

(** Object access.  A reference is only ever obtained from an allocation,
    so it is below the length of its array; the default value is never
    read in a store reached from well-formed references. *)
Definition getNode (r : nref) : M Node := λ s, (Ok (node_objs s !!! r), s).
Definition getEdge (r : eref) : M Edge := λ s, (Ok (edge_objs s !!! r), s).
Definition getGraph (r : gref) : M Graph := λ s, (Ok (graph_objs s !!! r), s).
Definition getThis : M VAX := λ s, (Ok (this_vax s), s).

Definition newNode (n : Node) : M nref :=
  λ s, (Ok (length (node_objs s)),
        mkStore (node_objs s ++ [n]) (edge_objs s) (graph_objs s) (this_vax s)).
Definition newEdge (e : Edge) : M eref :=
  λ s, (Ok (length (edge_objs s)),
        mkStore (node_objs s) (edge_objs s ++ [e]) (graph_objs s) (this_vax s)).
Definition newGraph (g : Graph) : M gref :=
  λ s, (Ok (length (graph_objs s)),
        mkStore (node_objs s) (edge_objs s) (graph_objs s ++ [g]) (this_vax s)).

Definition setNode (r : nref) (f : Node → Node) : M unit :=
  λ s, (Ok tt,
        mkStore (<[r := f (node_objs s !!! r)]> (node_objs s))
                (edge_objs s) (graph_objs s) (this_vax s)).
Definition setEdge (r : eref) (f : Edge → Edge) : M unit :=
  λ s, (Ok tt,
        mkStore (node_objs s)
                (<[r := f (edge_objs s !!! r)]> (edge_objs s))
                (graph_objs s) (this_vax s)).
Definition setGraph (r : gref) (f : Graph → Graph) : M unit :=
  λ s, (Ok tt,
        mkStore (node_objs s) (edge_objs s)
                (<[r := f (graph_objs s !!! r)]> (graph_objs s)) (this_vax s)).
Definition setThis (f : VAX → VAX) : M unit :=
  λ s, (Ok tt,
        mkStore (node_objs s) (edge_objs s) (graph_objs s) (f (this_vax s))).

(** ** Array and lodash helpers *)

(** [array.reduce(f, init)] with an effectful callback. *)
Fixpoint reduce {A B} (f : B → A → M B) (l : list A) (init : B) : M B :=
  match l with
  | [] => ret init
  | v :: l' => acc <- f init v ;; reduce f l' acc
  end.

(** [array.filter((v, index) => p(v, index))]; [filterM] ignores the index. *)
Fixpoint filterMi {A} (p : A → nat → M bool) (l : list A) (index : nat)
  : M (list A) :=
  match l with
  | [] => ret []
  | v :: l' =>
      b <- p v index ;;
      vs <- filterMi p l' (S index) ;;
      ret (if b then v :: vs else vs)
  end.

Definition filterM {A} (p : A → M bool) (l : list A) : M (list A) :=
  filterMi (λ v _, p v) l 0.

(** [some], [every] and [find] stop at the first element that decides. *)
Fixpoint someM {A} (p : A → M bool) (l : list A) : M bool :=
  match l with
  | [] => ret false
  | v :: l' => b <- p v ;; if b then ret true else someM p l'
  end.

Fixpoint everyM {A} (p : A → M bool) (l : list A) : M bool :=
  match l with
  | [] => ret true
  | v :: l' => b <- p v ;; if b then everyM p l' else ret false
  end.

Fixpoint findM {A} (p : A → M bool) (l : list A) : M (option A) :=
  match l with
  | [] => ret None
  | v :: l' => b <- p v ;; if b then ret (Some v) else findM p l'
  end.

(** [includes(array, value)] on strings. *)
Definition includes (l : list string) (v : string) : bool :=
  bool_decide (v ∈ l).

(** lodash [union]: the values of the arrays in order, each kept once. *)
Definition union {A} `{EqDecision A} (l1 l2 : list A) : list A :=
  fold_left (λ acc v, if bool_decide (v ∈ acc) then acc else acc ++ [v])
            (l1 ++ l2) [].

(** [array.join(sep)]: an element that is [undefined] is rendered as the
    empty string. *)
Definition join (sep : string) (l : list (option string)) : string :=
  String.concat sep (map (default "") l).

(** [s.substr(start, len)]. *)
Definition substr (s : string) (start len : nat) : string :=
  String.substring start len s.

(** [`${prefix || ""}`]. *)
Definition prefix_or_empty (prefix : option string) : string :=
  default "" prefix.

(** ** class Node *)

(** The assignments of the constructor, and [new Node(raw, prefix)]. *)
Definition Node_constructor (raw : INode) (prefix : option string) : Node :=
  {| Node.id := prefix_or_empty prefix +:+ Node.id raw;
     Node.a := Node.a raw;
     Node.t := Some (default AUndefined (Node.t raw));
     Node.edges := Node.edges raw;
     Node.x := Some (default None (Node.x raw));
     Node.y := Some (default None (Node.y raw));
     Node.out := Some (default None (Node.out raw));
     Node.c := Node.c raw |}.

Definition Node_new (raw : INode) (prefix : option string) : M nref :=
  newNode (Node_constructor raw prefix).

Definition Node_getNodesObject (nodes : list nref) : M (gmap string nref) :=
  reduce (λ acc currentNode,
            n <- getNode currentNode ;;
            ret (<[Node.id n := currentNode]> acc))
         nodes ∅.

(** The object literal of [get rawNode()]: it has all eight keys. *)
Definition rawNode_of (n : Node) : INode :=
  {| Node.id := Node.id n;
     Node.edges := Node.edges n;
     Node.x := Some (default None (Node.x n));
     Node.y := Some (default None (Node.y n));
     Node.out := Some (default None (Node.out n));
     Node.c := Node.c n;
     Node.a := Node.a n;
     Node.t := Some (default AUndefined (Node.t n)) |}.

Definition Node_rawNode (this : nref) : M INode :=
  n <- getNode this ;;
  ret (rawNode_of n).

Definition Node_clone (this : nref) (prefix : option string) : M nref :=
  raw <- Node_rawNode this ;;
  Node_new raw prefix.

(** [node.id] where [node] is what a lookup in the node index gave: a
    [Node], an inherited member (a function or [Object.prototype], none
    of which has an [id]: the result is [undefined]), or [undefined]. *)
Definition Node_id (node : option (property nref)) : M (option string) :=
  match node with
  | None => throw (TypeError "id")
  | Some (Own r) => n <- getNode r ;; ret (Some (Node.id n))
  | Some (Inherited _) => ret None
  end.

(** ** class Edge *)

Definition Edge_constructor (rawEdge : RawEdge) (prefix : option string)
    (inputNode outputNode : option nref) : Edge :=
  let '(inputNodeId, inputName, outputNodeId, outputName) := rawEdge in
  {| Edge.inputNodeId := inputNodeId;
     Edge.outputNodeId := outputNodeId;
     Edge.inputName := prefix_or_empty prefix +:+ inputName;
     Edge.outputName := prefix_or_empty prefix +:+ outputName;
     Edge.inputNode := inputNode;
     Edge.outputNode := outputNode;
     Edge.actions := [] |}.

Definition Edge_new (rawEdge : RawEdge) (prefix : option string)
    (inputNode outputNode : option nref) : M eref :=
  newEdge (Edge_constructor rawEdge prefix inputNode outputNode).

(** [edge.toEdgeObject()] and [edge.rawEdge] on the fields of an edge. *)
Definition edgeObject_of (e : Edge) : EdgeObject :=
  {| EdgeObject.in_ := Edge.inputName e;
     EdgeObject.outputNodeId := Edge.outputNodeId e;
     EdgeObject.out := Edge.outputName e |}.

Definition rawEdge_of (e : Edge) : RawEdge :=
  (Edge.inputNodeId e, Edge.inputName e,
   Edge.outputNodeId e, Edge.outputName e).

(** [...(acc[inputNodeId] || [])]: an own entry is an array; an
    inherited member is truthy and not iterable, so spreading it
    raises. *)
Definition Edge_getNodeEdgesObject (edges : list eref) : M NodeEdgesObject :=
  reduce (λ (acc : NodeEdgesObject) edge,
            e <- getEdge edge ;;
            previous <- match Object_get acc (Edge.inputNodeId e) with
                        | Some (Own edgeObjects) => ret edgeObjects
                        | Some (Inherited _) =>
                            throw (TypeError "Symbol.iterator")
                        | None => ret []
                        end ;;
            ret (<[Edge.inputNodeId e := previous ++ [edgeObject_of e]]> acc))
         edges ∅.

Definition Edge_toEdgeObject (this : eref) : M EdgeObject :=
  e <- getEdge this ;;
  ret (edgeObject_of e).

Definition Edge_rawEdge (this : eref) : M RawEdge :=
  e <- getEdge this ;;
  ret (rawEdge_of e).

Definition Edge_clone (this : eref) (prefix : option string) : M eref :=
  raw <- Edge_rawEdge this ;;
  Edge_new raw prefix None None.

(** ** class Comment *)

Definition Comment_new (raw : IComment) : Comment :=
  {| Comment.comment := Comment.comment raw |}.

Definition Comment_rawComment (this : Comment) : IComment :=
  {| Comment.comment := Comment.comment this |}.

(** ** class Graph *)

Definition Graph_new (rawGraph : RawGraph) (prefix : option string) : M gref :=
  nodes <- mapM (λ rawNode, Node_new rawNode prefix)
                (RawGraph.nodes rawGraph) ;;
  edges <- mapM (λ rawEdge, Edge_new rawEdge prefix None None)
                (RawGraph.edges rawGraph) ;;
  let comments := map Comment_new (RawGraph.comments rawGraph) in
  nodesObject <- Node_getNodesObject nodes ;;
  nodeEdgesObject <- Edge_getNodeEdgesObject edges ;;
  newGraph {| Graph.nodes := nodes;
              Graph.edges := edges;
              Graph.comments := comments;
              Graph.nodesObject := nodesObject;
              Graph.nodeEdgesObject := nodeEdgesObject |}.

Definition Graph_rawGraph (this : gref) : M RawGraph :=
  g <- getGraph this ;;
  nodes <- mapM Node_rawNode (Graph.nodes g) ;;
  edges <- mapM Edge_rawEdge (Graph.edges g) ;;
  ret {| RawGraph.nodes := nodes;
         RawGraph.edges := edges;
         RawGraph.comments := map Comment_rawComment (Graph.comments g) |}.

(** The result has one entry per requested id: what
    [this.nodesObject[nodeId]] evaluates to. *)
Definition Graph_getNodesByIds (this : gref) (filterNodesIds : list string)
  : M (list (option (property nref))) :=
  g <- getGraph this ;;
  ret (map (λ nodeId, Object_get (Graph.nodesObject g) nodeId)
           filterNodesIds).

Definition Graph_getEdges (this : gref) (node : nref)
    (edgeFilterBy : option EdgeFilter) : M (list eref) :=
  g <- getGraph this ;;
  filterM (λ edge,
             e <- getEdge edge ;;
             n <- getNode node ;;
             match edgeFilterBy with
             | Some INPUT => ret (bool_decide (Edge.inputNodeId e = Node.id n))
             | Some OUTPUT => ret (bool_decide (Edge.outputNodeId e = Node.id n))
             | None =>
                 ret (bool_decide (Edge.inputNodeId e = Node.id n)
                      || bool_decide (Edge.outputNodeId e = Node.id n))
             end)
          (Graph.edges g).

Definition Graph_getRootNodes (this : gref) : M (list nref) :=
  g <- getGraph this ;;
  filterM (λ node,
             g' <- getGraph this ;;
             everyM (λ edge,
                       e <- getEdge edge ;;
                       n <- getNode node ;;
                       ret (negb (bool_decide (Edge.inputNodeId e = Node.id n))))
                    (Graph.edges g'))
          (Graph.nodes g).

Definition Graph_set_nodes (nodes : list nref) (g : Graph) : Graph :=
  {| Graph.nodes := nodes;
     Graph.edges := Graph.edges g;
     Graph.comments := Graph.comments g;
     Graph.nodesObject := Graph.nodesObject g;
     Graph.nodeEdgesObject := Graph.nodeEdgesObject g |}.

Definition Graph_set_edges (edges : list eref) (g : Graph) : Graph :=
  {| Graph.nodes := Graph.nodes g;
     Graph.edges := edges;
     Graph.comments := Graph.comments g;
     Graph.nodesObject := Graph.nodesObject g;
     Graph.nodeEdgesObject := Graph.nodeEdgesObject g |}.

Definition Graph_addNodes (this : gref) (nodes : list nref) : M unit :=
  g <- getGraph this ;;
  setGraph this (Graph_set_nodes (Graph.nodes g ++ nodes)).

Definition Graph_addEdges (this : gref) (edges : list eref) : M unit :=
  g <- getGraph this ;;
  setGraph this (Graph_set_edges (Graph.edges g ++ edges)).

Definition Graph_deleteNodes (this : gref) (filterFn : nref → nat → M bool)
  : M unit :=
  g <- getGraph this ;;
  kept <- filterMi (λ node index, b <- filterFn node index ;; ret (negb b))
                   (Graph.nodes g) 0 ;;
  setGraph this (Graph_set_nodes kept).

Definition Graph_deleteEdges (this : gref) (filterFn : eref → nat → M bool)
  : M unit :=
  g <- getGraph this ;;
  kept <- filterMi (λ edge index, b <- filterFn edge index ;; ret (negb b))
                   (Graph.edges g) 0 ;;
  setGraph this (Graph_set_edges kept).

Definition Graph_equals (this : gref) (graph : gref) : M bool :=
  other <- Graph_rawGraph graph ;;
  mine <- Graph_rawGraph this ;;
  ret (isEqual other mine).

Definition Graph_equalsRaw (this : gref) (rawGraph : RawGraph) : M bool :=
  mine <- Graph_rawGraph this ;;
  ret (isEqual rawGraph mine).

Definition cycle_message (nodeId : option string)
    (parentsIds : list (option string)) : string :=
  "Node " +:+ String_of nodeId +:+ " is already present in graph parents: "
  +:+ join ", " parentsIds.

Definition Node_set_edges (edges : NodesObject) (n : Node) : Node :=
  {| Node.id := Node.id n; Node.a := Node.a n; Node.t := Node.t n;
     Node.edges := edges;
     Node.x := Node.x n; Node.y := Node.y n; Node.out := Node.out n;
     Node.c := Node.c n |}.

(** [newNode.out = out]: the key is written also when [out] is
    [undefined]. *)
Definition Node_set_out (out : option string) (n : Node) : Node :=
  {| Node.id := Node.id n; Node.a := Node.a n; Node.t := Node.t n;
     Node.edges := Node.edges n;
     Node.x := Node.x n; Node.y := Node.y n; Node.out := Some out;
     Node.c := Node.c n |}.

(** The object [{}]: it has none of the keys of a node.  The record
    cannot leave [id], [a], [edges] and [c] out; they are blank here.
    The program reads none of them from such an object: it only assigns
    [edges] and [out] and returns the object. *)
Definition empty_object : Node :=
  {| Node.id := ""; Node.a := AUndefined; Node.t := None; Node.edges := ∅;
     Node.x := None; Node.y := None; Node.out := None; Node.c := "" |}.

(** lodash [clone(node)]: a new object with the same own properties.  The
    clone of a function or of [Object.prototype] is a new [{}]. *)
Definition lodash_clone (node : property nref) : M nref :=
  match node with
  | Own r => n <- getNode r ;; newNode n
  | Inherited _ => newNode empty_object
  end.

(** [rawNodeEdges.reduce(f, init)] where [rawNodeEdges] is
    [this.nodeEdgesObject[key] || []]: an own entry is an array, an
    inherited member is truthy and has no [reduce] method. *)
Definition reduce_edges {B} (rawNodeEdges : option (property (list EdgeObject)))
    (f : B → EdgeObject → M B) (init : B) : M B :=
  match rawNodeEdges with
  | Some (Own edgeObjects) => reduce f edgeObjects init
  | Some (Inherited _) => throw (TypeError "reduce")
  | None => reduce f [] init
  end.

(** [composeTree] recurses along the edges of the graph, not along a data
    structure.  [composeTree_body] is the body of the method with the
    recursive call [this.composeTree(...)] as the parameter [composeTree];
    [Graph_composeTree] ties the knot with a bound [fuel] on the depth of
    the recursion.  A composed child is entered in [nodeEdges] as the
    value of the object that the recursive call returned; that object is
    the call's own clone and nothing writes to it after the call has
    returned. *)
Definition composeTree_body
    (composeTree : option (property nref) → list (option string) →
                   option string → M nref)
    (this : gref) (node : option (property nref))
    (rawParentsIds : list (option string)) (out : option string) : M nref :=
  let parentsIds := rawParentsIds in
  present <- someM (λ pid,
                      nodeId <- Node_id node ;;
                      ret (bool_decide (pid = nodeId)))
                   parentsIds ;;
  if present : bool then
    nodeId <- Node_id node ;;
    throw (Error (cycle_message nodeId parentsIds))
  else
    (* set new parent Ids *)
    nodeId <- Node_id node ;;
    let newParentsIds := union parentsIds [nodeId] in
    (* collect links *)
    g <- getGraph this ;;
    nodeId' <- Node_id node ;;
    let rawNodeEdges :=
      Object_get (Graph.nodeEdgesObject g) (String_of nodeId') in
    nodeEdges <-
      reduce_edges rawNodeEdges
        (λ (acc : NodesObject) edgeData,
           g' <- getGraph this ;;
           child <- composeTree
                      (Object_get (Graph.nodesObject g')
                                  (EdgeObject.outputNodeId edgeData))
                      newParentsIds
                      (Some (EdgeObject.out edgeData)) ;;
           composed <- getNode child ;;
           ret (<[EdgeObject.in_ edgeData := composed]> acc))
        ∅ ;;
    match node with
    | None =>
        (* not reached: [node.id] above has raised; [clone(undefined)] is
           [undefined] and the assignment to its [edges] would raise *)
        throw (TypeError "edges")
    | Some n =>
        newNode <- lodash_clone n ;;
        setNode newNode (Node_set_edges nodeEdges) ;;;
        setNode newNode (Node_set_out out) ;;;
        ret newNode
    end.

Fixpoint Graph_composeTree (fuel : nat) (this : gref)
    (node : option (property nref))
    (rawParentsIds : list (option string)) (out : option string) : M nref :=
  match fuel with
  | 0 => out_of_fuel
  | S fuel' =>
      composeTree_body (Graph_composeTree fuel' this)
                       this node rawParentsIds out
  end.

Definition Graph_composeTreeWithRootNode (fuel : nat) (this : gref)
    (rootNodeId : string) : M nref :=
  g <- getGraph this ;;
  Graph_composeTree fuel this (Object_get (Graph.nodesObject g) rootNodeId)
                    [] None.

Definition Graph_composeTrees (fuel : nat) (this : gref) : M (list nref) :=
  roots <- Graph_getRootNodes this ;;
  mapM (λ rootNode,
          n <- getNode rootNode ;;
          Graph_composeTreeWithRootNode fuel this (Node.id n))
       roots.

Definition Graph_clone (this : gref) (prefix : option string) : M gref :=
  raw <- Graph_rawGraph this ;;
  Graph_new raw prefix.

(** ** class VAX *)

Definition VAX_set_counter (counter : nat) (v : VAX) : VAX :=
  {| VAX.graph := VAX.graph v;
     VAX.schema := VAX.schema v;
     VAX.userFunctionStorage := VAX.userFunctionStorage v;
     VAX.counter := counter |}.

(** [counter + 1] on a JavaScript number: the sum is exact up to 2^53;
    2^53 + 1 is not a number and rounds back to 2^53.  The counter starts
    at 0 and changes only by this step, so it holds no larger value. *)
Definition Number_succ (n : nat) : nat :=
  if bool_decide (N.of_nat n < 2 ^ 53)%N then S n else n.

(** [this.counter++]. *)
Definition VAX_generateNextID : M nat :=
  v <- getThis ;;
  setThis (VAX_set_counter (Number_succ (VAX.counter v))) ;;;
  ret (VAX.counter v).

(** [this.graph.method(...)]: reading a method of [undefined] raises. *)
Definition VAX_graph (reading : string) : M gref :=
  v <- getThis ;;
  match VAX.graph v with
  | None => throw (TypeError reading)
  | Some g => ret g
  end.

Definition VAX_loadGraph (graph : RawGraph) : M gref :=
  current <- VAX_graph "equalsRaw" ;;
  same <- Graph_equalsRaw current graph ;;
  if same : bool then
    v <- getThis ;;
    match VAX.graph v with
    | Some g => ret g
    | None => throw (TypeError "graph")
    end
  else
    Graph_new graph None.

Definition emptyRawGraph : RawGraph :=
  {| RawGraph.nodes := []; RawGraph.edges := []; RawGraph.comments := [] |}.

(** The constructor fills the fields of the instance and then calls
    [loadGraph]; [graph] is not among the fields it assigns. *)
Definition VAX_new (schema : Schema) : M unit :=
  setThis (λ _, {| VAX.graph := None;
                   VAX.schema := schema;
                   VAX.userFunctionStorage := ∅;
                   VAX.counter := 0 |}) ;;;
  VAX_loadGraph emptyRawGraph ;;;
  ret tt.

Definition VAX_saveGraph (filterNodeIds : option (list string)) : M RawGraph :=
  current <- VAX_graph "rawGraph" ;;
  Graph_rawGraph current.

Definition is_toDelete (e : Edge) : bool :=
  bool_decide ("toDelete" ∈ Edge.actions e).

Definition Edge_set_inputName (inputName : string) (e : Edge) : Edge :=
  {| Edge.inputNodeId := Edge.inputNodeId e; Edge.inputNode := Edge.inputNode e;
     Edge.inputName := inputName;
     Edge.outputNodeId := Edge.outputNodeId e;
     Edge.outputNode := Edge.outputNode e;
     Edge.outputName := Edge.outputName e;
     Edge.actions := Edge.actions e |}.

Definition Edge_set_inputNodeId (inputNodeId : string) (e : Edge) : Edge :=
  {| Edge.inputNodeId := inputNodeId; Edge.inputNode := Edge.inputNode e;
     Edge.inputName := Edge.inputName e;
     Edge.outputNodeId := Edge.outputNodeId e;
     Edge.outputNode := Edge.outputNode e;
     Edge.outputName := Edge.outputName e;
     Edge.actions := Edge.actions e |}.

Definition Edge_set_outputName (outputName : string) (e : Edge) : Edge :=
  {| Edge.inputNodeId := Edge.inputNodeId e; Edge.inputNode := Edge.inputNode e;
     Edge.inputName := Edge.inputName e;
     Edge.outputNodeId := Edge.outputNodeId e;
     Edge.outputNode := Edge.outputNode e;
     Edge.outputName := outputName;
     Edge.actions := Edge.actions e |}.

Definition Edge_set_outputNodeId (outputNodeId : string) (e : Edge) : Edge :=
  {| Edge.inputNodeId := Edge.inputNodeId e; Edge.inputNode := Edge.inputNode e;
     Edge.inputName := Edge.inputName e;
     Edge.outputNodeId := outputNodeId;
     Edge.outputNode := Edge.outputNode e;
     Edge.outputName := Edge.outputName e;
     Edge.actions := Edge.actions e |}.

(** [edge.actions.push(action)]. *)
Definition Edge_push_action (action : string) (e : Edge) : Edge :=
  {| Edge.inputNodeId := Edge.inputNodeId e; Edge.inputNode := Edge.inputNode e;
     Edge.inputName := Edge.inputName e;
     Edge.outputNodeId := Edge.outputNodeId e;
     Edge.outputNode := Edge.outputNode e;
     Edge.outputName := Edge.outputName e;
     Edge.actions := Edge.actions e ++ [action] |}.

(** [(n) => n.c === marker && n.a.Name === name]. *)
Definition is_marker (marker name : string) (n : nref) : M bool :=
  node <- getNode n ;;
  if bool_decide (Node.c node = marker) then
    match Any_get (Node.a node) "Name" with
    | inl e => throw e
    | inr v => ret (Any_is_string v name)
    end
  else ret false.

(** [(n) => n.c.substr(0, 3) === "UF_"]. *)
Definition is_system_node (n : nref) : M bool :=
  node <- getNode n ;;
  ret (bool_decide (substr (Node.c node) 0 3 = "UF_")).

Definition VAX_evaluateUserFunctionNode (node : nref) (graph : gref) : M unit :=
  v <- getThis ;;
  n <- getNode node ;;
  let userFunction := VAX.userFunctionStorage v !! Node.c n in
  nextID <- VAX_generateNextID ;;
  let prefix := "uf_" +:+ pretty nextID +:+ "_" in
  cloneGraphWithPrefix <- Graph_clone graph (Some prefix) ;;
  (* update edges *)
  edgeWithNodeAsInput <- Graph_getEdges graph node (Some INPUT) ;;
  forEach edgeWithNodeAsInput (λ edge,
    e <- getEdge edge ;;
    let inputName := Edge.inputName e in
    cg <- getGraph cloneGraphWithPrefix ;;
    userFunctionInputNodeWithPrefix <-
      findM (is_marker "UF_Input" inputName) (Graph.nodes cg) ;;
    match userFunctionInputNodeWithPrefix with
    | Some marker =>
        inner <- Graph_getEdges cloneGraphWithPrefix marker (Some INPUT) ;;
        forEach inner (λ userFunctionEdge,
          ue <- getEdge userFunctionEdge ;;
          setEdge edge (Edge_set_inputName (Edge.inputName ue)) ;;;
          ue' <- getEdge userFunctionEdge ;;
          setEdge edge (Edge_set_inputNodeId (Edge.inputNodeId ue')) ;;;
          setEdge userFunctionEdge (Edge_push_action "toDelete"))
    | None => ret tt
    end) ;;;
  edgeWithNodeAsOutput <- Graph_getEdges graph node (Some OUTPUT) ;;
  forEach edgeWithNodeAsOutput (λ edge,
    e <- getEdge edge ;;
    let outputName := Edge.outputName e in
    cg <- getGraph cloneGraphWithPrefix ;;
    userFunctionOutputNodeWithPrefix <-
      findM (is_marker "UF_Output" outputName) (Graph.nodes cg) ;;
    match userFunctionOutputNodeWithPrefix with
    | Some marker =>
        inner <- Graph_getEdges cloneGraphWithPrefix marker (Some OUTPUT) ;;
        forEach inner (λ userFunctionEdge,
          ue <- getEdge userFunctionEdge ;;
          setEdge edge (Edge_set_outputName (Edge.outputName ue)) ;;;
          ue' <- getEdge userFunctionEdge ;;
          setEdge edge (Edge_set_outputNodeId (Edge.outputNodeId ue')) ;;;
          setEdge userFunctionEdge (Edge_push_action "toDelete"))
    | None => ret tt
    end) ;;;
  (* delete system nodes *)
  cg <- getGraph cloneGraphWithPrefix ;;
  systemNodes <- filterM is_system_node (Graph.nodes cg) ;;
  systemNodesIds <- mapM (λ userFunctionNode,
                            un <- getNode userFunctionNode ;;
                            ret (Node.id un))
                         systemNodes ;;
  Graph_deleteNodes cloneGraphWithPrefix
    (λ userFunctionNode _, is_system_node userFunctionNode) ;;;
  Graph_deleteEdges cloneGraphWithPrefix
    (λ userFunctionEdge _,
       ue <- getEdge userFunctionEdge ;;
       ret (is_toDelete ue
            || includes systemNodesIds (Edge.outputNodeId ue)
            || includes systemNodesIds (Edge.inputNodeId ue))) ;;;
  Graph_deleteEdges graph
    (λ edge _, e <- getEdge edge ;; ret (is_toDelete e)) ;;;
  Graph_deleteNodes graph
    (λ n' _,
       other <- getNode n' ;;
       this_node <- getNode node ;;
       ret (bool_decide (Node.id other = Node.id this_node))) ;;;
  cg1 <- getGraph cloneGraphWithPrefix ;;
  Graph_addNodes graph (Graph.nodes cg1) ;;;
  cg2 <- getGraph cloneGraphWithPrefix ;;
  Graph_addEdges graph (Graph.edges cg2).

(** [Object.entries(components).filter(([, component]) =>
    component.isUserFunction).map(([name]) => name)]. *)
Definition schema_userFunctions (schema : Schema) : list string :=
  map fst (filter (λ entry, SchemaComponent.isUserFunction (snd entry) = true)
                  (Schema.components schema)).

(** [(n) => includes(userFunctionsIds, n.c)]. *)
Definition is_userFunction_node (userFunctionsIds : list string) (n : nref)
  : M bool :=
  node <- getNode n ;;
  ret (includes userFunctionsIds (Node.c node)).

(** [graph.nodes] for the [graph] parameter, which is [undefined] when the
    argument was omitted and [this.graph] is not assigned. *)
Definition Graph_nodes_of (graph : option gref) : M (list nref) :=
  match graph with
  | None => throw (TypeError "nodes")
  | Some g => go <- getGraph g ;; ret (Graph.nodes go)
  end.

(** The method calls itself as long as a pass leaves nodes of a
    user-function type behind.  [inlineUserFunctionsInGraph_body] is the
    body of the method with the recursive call as the parameter
    [inlineUserFunctionsInGraph]; [VAX_inlineUserFunctionsInGraph] ties
    the knot with a bound [fuel] on the number of passes.  The [graph]
    argument is optional and defaults to [this.graph]. *)
Definition inlineUserFunctionsInGraph_body
    (inlineUserFunctionsInGraph :
       option gref → option (list string) → M (option gref))
    (graphArg : option gref) (rawUserFunctionsIds : option (list string))
  : M (option gref) :=
  v <- getThis ;;
  let graph := match graphArg with
               | Some g => Some g
               | None => VAX.graph v
               end in
  let userFunctionsIds :=
    default [] rawUserFunctionsIds
    ++ match rawUserFunctionsIds with
       | Some _ => []
       | None => schema_userFunctions (VAX.schema v)
       end in
  nodes <- Graph_nodes_of graph ;;
  userFunctionsNodes <-
    filterM (is_userFunction_node userFunctionsIds) nodes ;;
  (* if no user functions spotted *)
  if bool_decide (length userFunctionsNodes ≤ 0) then
    v' <- getThis ;;
    ret (VAX.graph v')
  else
    match graph with
    | None => throw (TypeError "nodes")
    | Some g =>
        forEach userFunctionsNodes (λ node,
          VAX_evaluateUserFunctionNode node g) ;;;
        (* check if we've introduced new user functions by inlining *)
        nodes' <- Graph_nodes_of graph ;;
        updatedUserFunctionNodes <-
          filterM (is_userFunction_node userFunctionsIds) nodes' ;;
        if bool_decide (length updatedUserFunctionNodes = 0) then
          (* no user functions spotted, we're cool *)
          ret graph
        else
          (* repeat until we have no user functions left *)
          inlineUserFunctionsInGraph graph (Some userFunctionsIds)
    end.

Fixpoint VAX_inlineUserFunctionsInGraph (fuel : nat) (graphArg : option gref)
    (rawUserFunctionsIds : option (list string)) : M (option gref) :=
  match fuel with
  | 0 => out_of_fuel
  | S fuel' =>
      inlineUserFunctionsInGraph_body (VAX_inlineUserFunctionsInGraph fuel')
                                      graphArg rawUserFunctionsIds
  end.

Definition VAX_composeTreesInlined (fuel : nat) : M (list nref) :=
  inlinedGraph <- VAX_inlineUserFunctionsInGraph fuel None None ;;
  match inlinedGraph with
  | None => throw (TypeError "getRootNodes")
  | Some g =>
      roots <- Graph_getRootNodes g ;;
      mapM (λ rootNode,
              n <- getNode rootNode ;;
              Graph_composeTreeWithRootNode fuel g (Node.id n))
           roots
  end.

(** * Vocabulary of the specification *)

Definition reads {A} (m : M A) (f : Store → A) : Prop :=
  ∀ s, m s = (Ok (f s), s).

(** The raw form of a graph object, read off a store. *)
Definition raw_of (s : Store) (g : Graph) : RawGraph :=
  {| RawGraph.nodes :=
       map (λ r, rawNode_of (node_objs s !!! r)) (Graph.nodes g);
     RawGraph.edges :=
       map (λ r, rawEdge_of (edge_objs s !!! r)) (Graph.edges g);
     RawGraph.comments := map Comment_rawComment (Graph.comments g) |}.

(** The two indices, as the constructor computes them from the objects of
    a store; the edge index is computed only when [indexable] holds. *)
Definition nodes_index (objs : list Node) (nodes : list nref)
  : gmap string nref :=
  fold_left (λ acc r, <[Node.id (objs !!! r) := r]> acc) nodes ∅.

Definition edges_index (objs : list Edge) (edges : list eref)
  : NodeEdgesObject :=
  fold_left (λ (acc : NodeEdgesObject) r,
               <[Edge.inputNodeId (objs !!! r) :=
                   default [] (acc !! Edge.inputNodeId (objs !!! r))
                   ++ [edgeObject_of (objs !!! r)]]> acc)
            edges ∅.

(** [indexable objs edges]: no edge names a member of [Object.prototype]
    as its consumer.  This is the condition under which
    [Edge.getNodeEdgesObject] returns. *)
Definition indexable (objs : list Edge) (edges : list eref) : Prop :=
  Forall (λ r, Edge.inputNodeId (objs !!! r) ∉ Object_prototype) edges.

(** The same condition on the edges of a raw graph. *)
Definition indexable_raw (rawGraph : RawGraph) : Prop :=
  Forall (λ rawEdge : RawEdge, rawEdge.1.1.1 ∉ Object_prototype)
         (RawGraph.edges rawGraph).

#[global] Instance indexable_dec objs edges : Decision (indexable objs edges).
Proof. unfold indexable. apply _. Defined.

#[global] Instance indexable_raw_dec rawGraph :
  Decision (indexable_raw rawGraph).
Proof. unfold indexable_raw. apply _. Defined.

(** A raw node that has all eight keys, and a raw graph all of whose
    nodes have. *)
Definition Node_complete (raw : INode) : Prop :=
  is_Some (Node.t raw) ∧ is_Some (Node.x raw) ∧ is_Some (Node.y raw)
  ∧ is_Some (Node.out raw).

Definition complete_raw (rawGraph : RawGraph) : Prop :=
  Forall Node_complete (RawGraph.nodes rawGraph).

(** The raw node, and the raw graph, with the missing keys added, holding
    [undefined]. *)
Definition Node_completed (raw : INode) : INode :=
  {| Node.id := Node.id raw; Node.a := Node.a raw;
     Node.t := Some (default AUndefined (Node.t raw));
     Node.edges := Node.edges raw;
     Node.x := Some (default None (Node.x raw));
     Node.y := Some (default None (Node.y raw));
     Node.out := Some (default None (Node.out raw));
     Node.c := Node.c raw |}.

Definition completed (rawGraph : RawGraph) : RawGraph :=
  {| RawGraph.nodes := map Node_completed (RawGraph.nodes rawGraph);
     RawGraph.edges := RawGraph.edges rawGraph;
     RawGraph.comments := RawGraph.comments rawGraph |}.

(** The graph object that [new Graph(rawGraph, prefix)] builds in store
    [s], and the store it leaves. *)
Definition built_nodes (s : Store) (rawGraph : RawGraph)
    (prefix : option string) : list Node :=
  node_objs s
  ++ map (λ raw, Node_constructor raw prefix) (RawGraph.nodes rawGraph).

Definition built_edges (s : Store) (rawGraph : RawGraph)
    (prefix : option string) : list Edge :=
  edge_objs s
  ++ map (λ raw, Edge_constructor raw prefix None None)
         (RawGraph.edges rawGraph).

Definition built_graph (s : Store) (rawGraph : RawGraph)
    (prefix : option string) : Graph :=
  let nodes := seq (length (node_objs s))
                   (length (RawGraph.nodes rawGraph)) in
  let edges := seq (length (edge_objs s))
                   (length (RawGraph.edges rawGraph)) in
  {| Graph.nodes := nodes;
     Graph.edges := edges;
     Graph.comments := map Comment_new (RawGraph.comments rawGraph);
     Graph.nodesObject := nodes_index (built_nodes s rawGraph prefix) nodes;
     Graph.nodeEdgesObject :=
       edges_index (built_edges s rawGraph prefix) edges |}.

(** [grows s s']: store [s'] has every object of [s], unchanged, and
    possibly more [Node] objects after them. *)
Definition grows (s s' : Store) : Prop :=
  node_objs s `prefix_of` node_objs s'
  ∧ edge_objs s' = edge_objs s
  ∧ graph_objs s' = graph_objs s
  ∧ this_vax s' = this_vax s.

(** [preserves R m]: the store that [m] leaves, whatever its outcome, is
    related by [R] to the store it started in. *)
Definition preserves {A} (R : Store → Store → Prop) (m : M A) : Prop :=
  ∀ s, R s (snd (m s)).

(** A callback that only reads the store. *)
Definition reading {A} (f : Store → A) : M A := λ s, (Ok (f s), s).

(** [array.filter((v, index) => p(v, index))] for a pure [p]; [index] is
    the position of the head of [l] in the whole array. *)
Fixpoint filter_indexed {A} (p : A → nat → bool) (l : list A) (index : nat)
  : list A :=
  match l with
  | [] => []
  | v :: l' =>
      if p v index then v :: filter_indexed p l' (S index)
      else filter_indexed p l' (S index)
  end.

(** [same_indices this s s']: the stores hold the same [Node] objects and
    the graph [this] has the same two indices in both. *)
Definition same_indices (this : gref) (s s' : Store) : Prop :=
  node_objs s' = node_objs s
  ∧ Graph.nodesObject (graph_objs s' !!! this)
    = Graph.nodesObject (graph_objs s !!! this)
  ∧ Graph.nodeEdgesObject (graph_objs s' !!! this)
    = Graph.nodeEdgesObject (graph_objs s !!! this).

(** [respects E m]: started in stores related by [E], the computation [m]
    has the same outcome and leaves stores related by [E]. *)
Definition respects {A} (E : Store → Store → Prop) (m : M A) : Prop :=
  ∀ s1 s2, E s1 s2 →
    fst (m s1) = fst (m s2) ∧ E (snd (m s1)) (snd (m s2)).

(** What a mutation of the graph [this] leaves alone: the [Node] and
    [Edge] objects, the instance, the other graphs, and the comments and
    the two indices of [this]. *)
Definition keeps_indices (this : gref) (s s' : Store) : Prop :=
  node_objs s' = node_objs s
  ∧ edge_objs s' = edge_objs s
  ∧ this_vax s' = this_vax s
  ∧ graph_objs s' = <[this := graph_objs s' !!! this]> (graph_objs s)
  ∧ Graph.comments (graph_objs s' !!! this)
    = Graph.comments (graph_objs s !!! this)
  ∧ Graph.nodesObject (graph_objs s' !!! this)
    = Graph.nodesObject (graph_objs s !!! this)
  ∧ Graph.nodeEdgesObject (graph_objs s' !!! this)
    = Graph.nodeEdgesObject (graph_objs s !!! this).

(** [consumes g a b]: the edge index of [g] has an edge whose consumer is
    the node id [a] and whose producer is the node id [b]; this is the
    step that [composeTree] takes from a node to a child. *)
Definition consumes (g : Graph) (a b : string) : Prop :=
  ∃ edgeData,
    edgeData ∈ default [] (Graph.nodeEdgesObject g !! a)
    ∧ EdgeObject.outputNodeId edgeData = b.

(** A graph is acyclic when no node id reaches itself along one or more
    edges. *)
Definition acyclic (g : Graph) : Prop := ∀ a, ¬ tc (consumes g) a a.

(** [feeds rawGraph a b]: the raw graph has an edge whose consumer is the
    node id [a] and whose producer is the node id [b]; a raw graph is
    acyclic when no node id reaches itself along one or more of its
    edges. *)
Definition feeds (rawGraph : RawGraph) (a b : string) : Prop :=
  ∃ inputName outputName,
    (a, inputName, b, outputName) ∈ RawGraph.edges rawGraph.

Definition acyclic_raw (rawGraph : RawGraph) : Prop :=
  ∀ a, ¬ tc (feeds rawGraph) a a.

(** [path R l]: each element of [l] is related by [R] to the next one. *)
Inductive path (R : string → string → Prop) : list string → Prop :=
  | path_nil : path R []
  | path_one a : path R [a]
  | path_cons a b l : R a b → path R (b :: l) → path R (a :: b :: l).

(** The node index is consistent with a store: an entry under the key [k]
    is an existing [Node] object whose id is [k].  This is what the
    constructor establishes. *)
Definition index_ok (s : Store) (g : Graph) : Prop :=
  map_Forall (λ k r, r < length (node_objs s)
                     ∧ Node.id (node_objs s !!! r) = k)
             (Graph.nodesObject g).

(** The callback of the [reduce] in [composeTree]. *)
Definition collect_link
    (composeTree : option (property nref) → list (option string) →
                   option string → M nref)
    (this : gref) (newParentsIds : list (option string))
    (acc : NodesObject) (edgeData : EdgeObject) : M NodesObject :=
  g' <- getGraph this ;;
  child <- composeTree
             (Object_get (Graph.nodesObject g')
                         (EdgeObject.outputNodeId edgeData))
             newParentsIds (Some (EdgeObject.out edgeData)) ;;
  composed <- getNode child ;;
  ret (<[EdgeObject.in_ edgeData := composed]> acc).

(** The id that [composeTree] reads from what a lookup in the node index
    gave, and the object that it clones. *)
Definition id_of (s : Store) (node : property nref) : option string :=
  match node with
  | Own r => Some (Node.id (node_objs s !!! r))
  | Inherited _ => None
  end.

Definition cloned (s : Store) (node : property nref) : Node :=
  match node with
  | Own r => node_objs s !!! r
  | Inherited _ => empty_object
  end.

(** [plain_at g b]: a lookup of [b] in the node index of [g] does not give
    an inherited member: if [b] names one, then [b] is a key of the
    index. *)
Definition plain_at (g : Graph) (b : string) : Prop :=
  b ∈ Object_prototype → is_Some (Graph.nodesObject g !! b).

(** [plain_producers g]: no producer of an edge of the index resolves to
    an inherited member. *)
Definition plain_producers (g : Graph) : Prop :=
  ∀ a b, consumes g a b → plain_at g b.

(** [no_entries g b]: the node [b] has no entry in the edge index of [g]
    and its id names an inherited member, which [composeTree] then takes
    for the list of its edges. *)
Definition no_entries (g : Graph) (b : string) : Prop :=
  Graph.nodeEdgesObject g !! b = None ∧ b ∈ Object_prototype.

#[global] Instance no_entries_dec g b : Decision (no_entries g b).
Proof. unfold no_entries. apply _. Defined.

(** What an outcome of [composeTree], called on the node indexed under [k]
    with the ancestor chain [P] and depth bound [fuel], can be when no
    lookup in the node index gives an inherited member: an [Error]
    carries the message for a node id [nid] and a chain [chain] such that
    [nid] occurs in [chain], [chain] followed by [nid] is a path of the
    graph, and that path extends [P] followed by [k]; a [TypeError] means
    that the index has no node for [k] or for the producer of some edge,
    or that such a node has an inherited member for its list of edges;
    the depth bound is only reached when it is not larger than what the
    index allows. *)
Definition composeTree_post (g : Graph) (fuel : nat) (P : list string)
    (k : string) {A} (res : outcome A) : Prop :=
  match res with
  | Ok _ => True
  | Throw (TypeError _) =>
      ∃ b, (b = k ∨ ∃ a, consumes g a b)
           ∧ (Graph.nodesObject g !! b = None ∨ no_entries g b)
  | Throw (Error msg) =>
      ∃ chain nid,
        msg = cycle_message (Some nid) (Some <$> chain)
        ∧ nid ∈ chain
        ∧ path (consumes g) (chain ++ [nid])
        ∧ (P ++ [k]) `prefix_of` (chain ++ [nid])
  | OutOfFuel => fuel + length P ≤ size (Graph.nodesObject g)
  end.

(** What tree composition on the graph [this] relies on in a store: the
    graph object is [G] and its node index is consistent. *)
Definition tree_inv (this : gref) (G : Graph) (s : Store) : Prop :=
  graph_objs s !!! this = G ∧ index_ok s G.

(** [one_call s]: in store [s] the instance's graph is object 0, and it
    consists of a single node, of component type [F], and no edges. *)
Definition one_call (s : Store) : Prop :=
  VAX.graph (this_vax s) = Some 0
  ∧ ∃ r comments nodesObject nodeEdgesObject graphs,
      graph_objs s
      = Graph.mk [r] [] comments nodesObject nodeEdgesObject :: graphs
      ∧ r < length (node_objs s)
      ∧ Node.c (node_objs s !!! r) = "F".

(** [composes_ok this G fuel k P]: some call of [composeTree] on the graph
    [this] (which is [G]), on the node indexed under [k], with the
    duplicate-free ancestor chain [P] and depth bound [fuel], returns a
    tree. *)
Definition composes_ok (this : gref) (G : Graph) (fuel : nat) (k : string)
    (P : list string) : Prop :=
  NoDup P ∧ plain_at G k
  ∧ ∃ out s r s',
      tree_inv this G s
      ∧ Graph_composeTree fuel this (Object_get (Graph.nodesObject G) k)
                          (Some <$> P) out s
        = (Ok r, s').

(** * Example graphs and stores *)

(** A raw node with the id [id] and the component type [c]; it has all
    eight keys, with [undefined] for [t], [x], [y] and [out]. *)
Definition example_node (id c : string) : INode :=
  {| Node.id := id; Node.a := AObject ∅; Node.t := Some AUndefined;
     Node.edges := ∅; Node.x := Some None; Node.y := Some None;
     Node.out := Some None; Node.c := c |}.

(** A raw node as the wire format has it when the optional keys are left
    out: no [t], [x], [y] or [out]. *)
Definition sparse_node (id c : string) : INode :=
  {| Node.id := id; Node.a := AObject ∅; Node.t := None;
     Node.edges := ∅; Node.x := None; Node.y := None; Node.out := None;
     Node.c := c |}.

(** A schema in which [F] is a user function and [Const] is not. *)
Definition example_schema : Schema :=
  {| Schema.components := [("F", {| SchemaComponent.isUserFunction := true |});
                           ("Const", {| SchemaComponent.isUserFunction := false |})] |}.

(** A store with no objects and an instance whose [graph] is unassigned. *)
Definition empty_store : Store :=
  mkStore [] [] []
          {| VAX.graph := None; VAX.schema := example_schema;
             VAX.userFunctionStorage := ∅; VAX.counter := 0 |}.

(** An assignment [this.graph = graph]. *)
Definition VAX_set_graph (graph : option gref) (v : VAX) : VAX :=
  {| VAX.graph := graph;
     VAX.schema := VAX.schema v;
     VAX.userFunctionStorage := VAX.userFunctionStorage v;
     VAX.counter := VAX.counter v |}.

(** [store_with raw]: the store after [new Graph(raw)] on the empty
    store, with the instance's [graph] field holding the new graph
    (object 0). *)
Definition store_with (raw : RawGraph) : Store :=
  snd ((g <- Graph_new raw None ;;
        setThis (VAX_set_graph (Some g))) empty_store).

(** The node [a] consumes, on its slot [x], the output [out] of [b]. *)
Definition two_node_graph : RawGraph :=
  {| RawGraph.nodes := [example_node "a" "Const"; example_node "b" "Const"];
     RawGraph.edges := [("a", "x", "b", "out")];
     RawGraph.comments := [] |}.

(** The node [root] consumes [p1] on its slot [x] and [p2] on [y]. *)
Definition root_p1_p2_graph : RawGraph :=
  {| RawGraph.nodes := [example_node "root" "Add"; example_node "p1" "Const";
                        example_node "p2" "Const"];
     RawGraph.edges := [("root", "x", "p1", "out"); ("root", "y", "p2", "out")];
     RawGraph.comments := [] |}.

(** [composeTreeWithRootNode(id)] on the graph above, followed by a read
    of the returned object. *)
Definition composed_in_example (fuel : nat) (id : string) : outcome Node :=
  fst ((r <- Graph_composeTreeWithRootNode fuel 0 id ;; getNode r)
         (store_with root_p1_p2_graph)).

(** The same graph with arbitrary contents of its three nodes: [root],
    [p1] and [p2] are raw nodes whose ids are replaced by the names
    [root], [p1] and [p2]. *)
Definition Node_set_id (id : string) (n : Node) : Node :=
  {| Node.id := id; Node.a := Node.a n; Node.t := Node.t n;
     Node.edges := Node.edges n;
     Node.x := Node.x n; Node.y := Node.y n; Node.out := Node.out n;
     Node.c := Node.c n |}.

Definition root_p1_p2_with (root p1 p2 : INode) : RawGraph :=
  {| RawGraph.nodes := [Node_set_id "root" root; Node_set_id "p1" p1;
                        Node_set_id "p2" p2];
     RawGraph.edges := [("root", "x", "p1", "out"); ("root", "y", "p2", "out")];
     RawGraph.comments := [] |}.

(** [composeTreeWithRootNode(id)] on that graph: the outcome with the
    object that was returned, and the store that the call leaves. *)
Definition composed_with (root p1 p2 : INode) (fuel : nat) (id : string)
  : outcome Node * Store :=
  (r <- Graph_composeTreeWithRootNode fuel 0 id ;; getNode r)
    (store_with (root_p1_p2_with root p1 p2)).

(** An assignment of [this.userFunctionStorage]. *)
Definition VAX_set_userFunctionStorage
    (storage : gmap string UserFunction) (v : VAX) : VAX :=
  {| VAX.graph := VAX.graph v;
     VAX.schema := VAX.schema v;
     VAX.userFunctionStorage := storage;
     VAX.counter := VAX.counter v |}.

(** A host graph: a call node [f] of the user-function type [F], fed on
    its slot [In1] by the constant [k]. *)
Definition host_graph : RawGraph :=
  {| RawGraph.nodes := [example_node "f" "F"; example_node "k" "Const"];
     RawGraph.edges := [("f", "In1", "k", "out")];
     RawGraph.comments := [] |}.

(** The raw form of the host graph (object 0) after
    [evaluateUserFunctionNode(f, host)] on an instance whose storage is
    [storage]. *)
Definition host_after_evaluate (storage : gmap string UserFunction)
  : outcome RawGraph :=
  fst ((setThis (VAX_set_userFunctionStorage storage) ;;;
        VAX_evaluateUserFunctionNode 0 0 ;;;
        Graph_rawGraph 0)
         (store_with host_graph)).

(** A consumes from B and B consumes from A. *)
Definition cycle_graph : RawGraph :=
  {| RawGraph.nodes := [example_node "A" "Add"; example_node "B" "Add"];
     RawGraph.edges := [("A", "x", "B", "out"); ("B", "y", "A", "out")];
     RawGraph.comments := [] |}.

(** A host graph that is a single call node of the user-function type
    [F]. *)
Definition call_only_graph : RawGraph :=
  {| RawGraph.nodes := [example_node "f" "F"];
     RawGraph.edges := [];
     RawGraph.comments := [] |}.

(** An instance whose graph (object 0) is the empty graph, next to a
    second graph (object 1) that has no node of a user-function type. *)
Definition store_with_other_graph : Store :=
  snd ((own <- Graph_new emptyRawGraph None ;;
        Graph_new two_node_graph None ;;;
        setThis (VAX_set_graph (Some own))) empty_store).

(** A graph whose only edge names [constructor] as its consumer. *)
Definition prototype_consumer_graph : RawGraph :=
  {| RawGraph.nodes := [example_node "a" "Const"];
     RawGraph.edges := [("constructor", "x", "a", "out")];
     RawGraph.comments := [] |}.

(** The two-node graph with the optional keys of its nodes left out. *)
Definition sparse_graph : RawGraph :=
  {| RawGraph.nodes := [sparse_node "a" "Const"; sparse_node "b" "Const"];
     RawGraph.edges := [("a", "x", "b", "out")];
     RawGraph.comments := [] |}.

(** Two nodes, [a] and one whose id is the string [undefined]; each has
    one edge, whose producer [constructor] is not a node of the graph.
    No node id reaches itself along the edges. *)
Definition undefined_graph : RawGraph :=
  {| RawGraph.nodes := [example_node "a" "Add"; example_node "undefined" "Add"];
     RawGraph.edges := [("a", "x", "constructor", "out");
                        ("undefined", "y", "constructor", "out")];
     RawGraph.comments := [] |}.

(** The node [a] consumes the node whose id is [toString], which consumes
    nothing. *)
Definition toString_graph : RawGraph :=
  {| RawGraph.nodes := [example_node "a" "Add"; example_node "toString" "Const"];
     RawGraph.edges := [("a", "x", "toString", "out")];
     RawGraph.comments := [] |}.

(** The node [a] consumes [constructor], which is not a node of the
    graph. *)
Definition dangling_constructor_graph : RawGraph :=
  {| RawGraph.nodes := [example_node "a" "Add"];
     RawGraph.edges := [("a", "x", "constructor", "out")];
     RawGraph.comments := [] |}.
(** * Vocabulary of the further properties *)

(** The test that [getEdges(node, edgeFilterBy)] applies to an edge, for the
    node id [id]. *)
Definition edge_touches (edgeFilterBy : option EdgeFilter) (e : Edge)
    (id : string) : Prop :=
  match edgeFilterBy with
  | Some INPUT => Edge.inputNodeId e = id
  | Some OUTPUT => Edge.outputNodeId e = id
  | None => Edge.inputNodeId e = id ∨ Edge.outputNodeId e = id
  end.

#[global] Instance edge_touches_dec edgeFilterBy e id :
  Decision (edge_touches edgeFilterBy e id).
Proof. destruct edgeFilterBy as [[]|]; cbn [edge_touches]; apply _. Defined.

(** [in_sync s G]: the two indices of the graph object [G] are the ones
    that its node and edge arrays have in store [s].  The constructor
    establishes this; nothing re-establishes it after a mutation. *)
Definition in_sync (s : Store) (G : Graph) : Prop :=
  Graph.nodesObject G = nodes_index (node_objs s) (Graph.nodes G)
  ∧ Graph.nodeEdgesObject G = edges_index (edge_objs s) (Graph.edges G).

(** The nodes that no edge of the edge array names as its consumer. *)
Definition root_nodes (s : Store) (G : Graph) : list nref :=
  filter (λ n, Forall (λ e, Edge.inputNodeId (edge_objs s !!! e)
                            ≠ Node.id (node_objs s !!! n))
                      (Graph.edges G))
         (Graph.nodes G).

(** [is_root s G root]: the node [root] is an object of the store, its id
    is a key of the node index and not an own key of the edge index. *)
Definition is_root (s : Store) (G : Graph) (root : nref) : Prop :=
  root < length (node_objs s)
  ∧ is_Some (Graph.nodesObject G !! Node.id (node_objs s !!! root))
  ∧ Graph.nodeEdgesObject G !! Node.id (node_objs s !!! root) = None.

(** The object that [composeTree] returns for a node that consumes
    nothing: a copy of the node that the index has under the id of [root],
    with an empty [edges] and [undefined] for [out]. *)
Definition leaf_of (s : Store) (G : Graph) (root : nref) : Node :=
  Node_set_out None
    (Node_set_edges ∅
       (node_objs s
          !!! (Graph.nodesObject G !!! Node.id (node_objs s !!! root)))).

(** The key under which [composeTree] looks up the edges of what the node
    index gives for [k]: the id of the node, when [k] is a key of the
    index; the string [undefined] (which is what the missing id of an
    inherited member becomes as a key) otherwise. *)
Definition edges_key (G : Graph) (k : string) : string :=
  if decide (is_Some (Graph.nodesObject G !! k)) then k else "undefined".

(** The edge that decides what a consumer has on the slot [slot]: the
    callback of the [reduce] in [composeTree] overwrites the key
    [edgeData.in], so the last edge object with that slot name wins. *)
Definition slot_edge (edges : list EdgeObject) (slot : string)
  : option EdgeObject :=
  last (filter (λ e, EdgeObject.in_ e = slot) edges).

(** [is_child this G fuel P' s e child]: [child] is the object that some
    call of [composeTree] returned for the producer of the edge object
    [e], with the ancestor chain [P'] and [out] the producer slot of [e],
    in a store that extends [s]. *)
Definition is_child (this : gref) (G : Graph) (fuel : nat)
    (P' : list (option string)) (s : Store) (e : EdgeObject) (child : Node)
  : Prop :=
  ∃ s0 rc sc,
    tree_inv this G s0 ∧ grows s s0
    ∧ Graph_composeTree fuel this
        (Object_get (Graph.nodesObject G) (EdgeObject.outputNodeId e)) P'
        (Some (EdgeObject.out e)) s0 = (Ok rc, sc)
    ∧ child = node_objs sc !!! rc.

(** Two stores hold the same object under every reference of the node
    index of [G]. *)
Definition agree_on_index (G : Graph) (s1 s2 : Store) : Prop :=
  map_Forall (λ _ r, node_objs s1 !!! r = node_objs s2 !!! r)
             (Graph.nodesObject G).

(** Two nodes that differ at most in [out]. *)
Definition same_but_out (n1 n2 : Node) : Prop :=
  Node_set_out None n1 = Node_set_out None n2.

(** [root] consumes the node [p1] twice, on its slots [x] and [y]. *)
Definition shared_producer_graph : RawGraph :=
  {| RawGraph.nodes := [example_node "root" "Add"; example_node "p1" "Const";
                        example_node "q" "Const"];
     RawGraph.edges := [("root", "x", "p1", "out"); ("p1", "z", "q", "out");
                        ("root", "y", "p1", "out2")];
     RawGraph.comments := [] |}.

(** [Graph_wf s this]: the graph [this] and the nodes and edges in its
    arrays are objects of the store [s]. *)
Definition Graph_wf (s : Store) (this : gref) : Prop :=
  this < length (graph_objs s)
  ∧ Forall (λ r, r < length (node_objs s))
           (Graph.nodes (graph_objs s !!! this))
  ∧ Forall (λ r, r < length (edge_objs s))
           (Graph.edges (graph_objs s !!! this)).

(** The [graph] and the [userFunctionsIds] that
    [inlineUserFunctionsInGraph] works with, after the defaults of its
    two optional parameters. *)
Definition resolved_graph (graphArg : option gref) (v : VAX) : option gref :=
  match graphArg with
  | Some g => Some g
  | None => VAX.graph v
  end.

Definition effective_ids (rawUserFunctionsIds : option (list string))
    (v : VAX) : list string :=
  default [] rawUserFunctionsIds
  ++ match rawUserFunctionsIds with
     | Some _ => []
     | None => schema_userFunctions (VAX.schema v)
     end.

(** [only_edges_written s s']: between [s] and [s'] nothing was allocated
    and nothing but [Edge] objects was written. *)
Definition only_edges_written (s s' : Store) : Prop :=
  node_objs s' = node_objs s
  ∧ graph_objs s' = graph_objs s
  ∧ this_vax s' = this_vax s
  ∧ length (edge_objs s') = length (edge_objs s).

(** The prefix that [evaluateUserFunctionNode] forms when it starts in
    store [s]. *)
Definition next_prefix (s : Store) : string :=
  "uf_" +:+ pretty (VAX.counter (this_vax s)) +:+ "_".

(** The tests of the two [deleteNodes] calls of
    [evaluateUserFunctionNode], on the objects [objs]: the clone keeps a
    node unless its component type starts with [UF_]; the graph keeps a
    node unless it has the id of the node [node]. *)
Definition kept_in_clone (objs : list Node) (n : nref) : Prop :=
  substr (Node.c (objs !!! n)) 0 3 ≠ "UF_".

Definition kept_in_graph (objs : list Node) (node n : nref) : Prop :=
  Node.id (objs !!! n) ≠ Node.id (objs !!! node).

(** [has_user_function ids g s]: the graph [g] of store [s] has a node
    whose component type is one of [ids] and does not start with [UF_]. *)
Definition has_user_function (ids : list string) (g : gref) (s : Store)
  : Prop :=
  g < length (graph_objs s)
  ∧ ∃ m, m ∈ Graph.nodes (graph_objs s !!! g)
         ∧ m < length (node_objs s)
         ∧ Node.c (node_objs s !!! m) ∈ ids
         ∧ kept_in_clone (node_objs s) m.

(** [instance_kept s s']: between [s] and [s'] no [Node] object was
    written (new ones may have been allocated after the old ones), no
    object was dropped, the fields [graph], [schema] and
    [userFunctionStorage] of the instance were not assigned, and
    [counter] did not go down. *)
Definition instance_kept (s s' : Store) : Prop :=
  node_objs s `prefix_of` node_objs s'
  ∧ length (edge_objs s) ≤ length (edge_objs s')
  ∧ length (graph_objs s) ≤ length (graph_objs s')
  ∧ VAX.graph (this_vax s') = VAX.graph (this_vax s)
  ∧ VAX.schema (this_vax s') = VAX.schema (this_vax s)
  ∧ VAX.userFunctionStorage (this_vax s')
    = VAX.userFunctionStorage (this_vax s)
  ∧ VAX.counter (this_vax s) ≤ VAX.counter (this_vax s').

(** [saveFilteredGraph] has the body of [saveGraph]. *)
Definition VAX_saveFilteredGraph (filterNodeIds : list string) : M RawGraph :=
  current <- VAX_graph "rawGraph" ;;
  Graph_rawGraph current.

(** The last phase of [evaluateUserFunctionNode]: from the comment
    [delete system nodes] to the end of the method, with the clone
    [cloneGraphWithPrefix] that the first phase has made. *)
Definition evaluate_splice (node : nref) (graph cloneGraphWithPrefix : gref)
  : M unit :=
  cg <- getGraph cloneGraphWithPrefix ;;
  systemNodes <- filterM is_system_node (Graph.nodes cg) ;;
  systemNodesIds <- mapM (λ userFunctionNode,
                            un <- getNode userFunctionNode ;;
                            ret (Node.id un))
                         systemNodes ;;
  Graph_deleteNodes cloneGraphWithPrefix
    (λ userFunctionNode _, is_system_node userFunctionNode) ;;;
  Graph_deleteEdges cloneGraphWithPrefix
    (λ userFunctionEdge _,
       ue <- getEdge userFunctionEdge ;;
       ret (is_toDelete ue
            || includes systemNodesIds (Edge.outputNodeId ue)
            || includes systemNodesIds (Edge.inputNodeId ue))) ;;;
  Graph_deleteEdges graph
    (λ edge _, e <- getEdge edge ;; ret (is_toDelete e)) ;;;
  Graph_deleteNodes graph
    (λ n' _,
       other <- getNode n' ;;
       this_node <- getNode node ;;
       ret (bool_decide (Node.id other = Node.id this_node))) ;;;
  cg1 <- getGraph cloneGraphWithPrefix ;;
  Graph_addNodes graph (Graph.nodes cg1) ;;;
  cg2 <- getGraph cloneGraphWithPrefix ;;
  Graph_addEdges graph (Graph.edges cg2).

(** The store after the first two steps of [evaluateUserFunctionNode]
    started in [s] on the graph [g]: the counter is incremented and the
    clone of [g] with the new prefix is allocated. *)
Definition after_clone (s : Store) (g : gref) : Store :=
  let raw := raw_of s (graph_objs s !!! g) in
  mkStore (built_nodes s raw (Some (next_prefix s)))
          (built_edges s raw (Some (next_prefix s)))
          (graph_objs s ++ [built_graph s raw (Some (next_prefix s))])
          (VAX_set_counter (Number_succ (VAX.counter (this_vax s)))
                           (this_vax s)).

(** The tests of the two [deleteEdges] calls of
    [evaluateUserFunctionNode]: an edge is dropped from the graph when
    its [actions] hold [toDelete]; it is dropped from the clone also when
    one of its node ids is the id of a system node of the clone. *)
Definition marked (objs : list Edge) (e : eref) : Prop :=
  "toDelete" ∈ Edge.actions (objs !!! e).

#[global] Instance marked_dec objs e : Decision (marked objs e).
Proof. unfold marked. apply _. Defined.

Definition system_ids (s : Store) (c : gref) : list string :=
  map (λ n, Node.id (node_objs s !!! n))
      (filter (λ n, ¬ kept_in_clone (node_objs s) n)
              (Graph.nodes (graph_objs s !!! c))).

Definition dropped_from_clone (s : Store) (c : gref) (e : eref) : Prop :=
  marked (edge_objs s) e
  ∨ Edge.outputNodeId (edge_objs s !!! e) ∈ system_ids s c
  ∨ Edge.inputNodeId (edge_objs s !!! e) ∈ system_ids s c.

#[global] Instance dropped_from_clone_dec s c e :
  Decision (dropped_from_clone s c e).
Proof. unfold dropped_from_clone. apply _. Defined.

(** [prefix_unused s g]: no edge of the graph [g] names, as its consumer
    or its producer, the id of a node of [g] with the prefix that the
    next call of [evaluateUserFunctionNode] will use. *)
Definition prefix_unused (s : Store) (g : gref) : Prop :=
  Forall (λ e,
            Forall (λ n,
                      Edge.inputNodeId (edge_objs s !!! e)
                      ≠ next_prefix s +:+ Node.id (node_objs s !!! n)
                      ∧ Edge.outputNodeId (edge_objs s !!! e)
                        ≠ next_prefix s +:+ Node.id (node_objs s !!! n))
                   (Graph.nodes (graph_objs s !!! g)))
         (Graph.edges (graph_objs s !!! g)).

(** [raises_only E m]: the computation [m] ends, and when it raises, the
    exception satisfies [E]. *)
Definition raises_only {A} (E : exn → Prop) (m : M A) : Prop :=
  ∀ s, match fst (m s) with
       | Ok _ => True
       | Throw e => E e
       | OutOfFuel => False
       end.

(** * Reasoning about methods *)

(** ** Running a computation *)

Lemma bind_run {A B} (m : M A) (k : A → M B) s v s' :
  m s = (Ok v, s') → bind m k s = k v s'.
Proof. intros Hm. unfold bind. by rewrite Hm. Qed.

Lemma bind_reads {A B} (m : M A) (k : A → M B) f s :
  reads m f → bind m k s = k (f s) s.
Proof. intros Hm. by apply bind_run. Qed.

Lemma bind_raises {A B} (m : M A) (k : A → M B) s e s' :
  m s = (Throw e, s') → bind m k s = (Throw e, s').
Proof. intros Hm. unfold bind. by rewrite Hm. Qed.

(** ** Computations that only read the store *)

Lemma reads_ret {A} (v : A) : reads (ret v) (λ _, v).
Proof. done. Qed.

Lemma reads_bind {A B} (m : M A) (k : A → M B) f g :
  reads m f → (∀ v, reads (k v) (g v)) →
  reads (bind m k) (λ s, g (f s) s).
Proof. intros Hm Hk s. unfold bind. rewrite Hm. apply Hk. Qed.

Lemma reads_ext {A} (m : M A) f g :
  reads m f → (∀ s, f s = g s) → reads m g.
Proof. intros Hm Hfg s. rewrite Hm. by rewrite Hfg. Qed.

Lemma getNode_reads r : reads (getNode r) (λ s, node_objs s !!! r).
Proof. done. Qed.

Lemma getEdge_reads r : reads (getEdge r) (λ s, edge_objs s !!! r).
Proof. done. Qed.

Lemma getGraph_reads r : reads (getGraph r) (λ s, graph_objs s !!! r).
Proof. done. Qed.

Lemma mapM_reads {A B} (f : A → M B) (g : A → Store → B) l :
  (∀ v, reads (f v) (g v)) →
  reads (mapM f l) (λ s, map (λ v, g v s) l).
Proof.
  intros Hf. induction l as [|v l IH]; intros s; simpl; [done|].
  unfold bind. rewrite Hf, IH. done.
Qed.

Lemma reduce_reads {A B} (f : B → A → M B) (g : B → A → Store → B) l init :
  (∀ acc v, reads (f acc v) (g acc v)) →
  reads (reduce f l init) (λ s, fold_left (λ acc v, g acc v s) l init).
Proof.
  intros Hf. revert init. induction l as [|v l IH]; intros init s; simpl;
    [done|].
  unfold bind. rewrite Hf. apply IH.
Qed.

Lemma Node_rawNode_reads r :
  reads (Node_rawNode r) (λ s, rawNode_of (node_objs s !!! r)).
Proof. done. Qed.

Lemma Edge_rawEdge_reads r :
  reads (Edge_rawEdge r) (λ s, rawEdge_of (edge_objs s !!! r)).
Proof. done. Qed.

Lemma Graph_rawGraph_reads this :
  reads (Graph_rawGraph this) (λ s, raw_of s (graph_objs s !!! this)).
Proof.
  intros s. unfold Graph_rawGraph, bind. rewrite getGraph_reads.
  rewrite (mapM_reads _ _ _ Node_rawNode_reads).
  rewrite (mapM_reads _ _ _ Edge_rawEdge_reads). done.
Qed.

Lemma Graph_equalsRaw_reads this raw :
  reads (Graph_equalsRaw this raw)
        (λ s, isEqual raw (raw_of s (graph_objs s !!! this))).
Proof.
  intros s. unfold Graph_equalsRaw, bind. by rewrite Graph_rawGraph_reads.
Qed.

Lemma Node_getNodesObject_reads nodes :
  reads (Node_getNodesObject nodes) (λ s, nodes_index (node_objs s) nodes).
Proof.
  unfold Node_getNodesObject, nodes_index.
  apply (reduce_reads _ (λ acc r s, <[Node.id (node_objs s !!! r) := r]> acc)).
  done.
Qed.

(** ** Lookups in a plain object *)

Lemma Object_get_own {V} (own : gmap string V) key v :
  own !! key = Some v → Object_get own key = Some (Own v).
Proof. intros Hk. unfold Object_get. by rewrite Hk. Qed.

Lemma Object_get_plain {V} (own : gmap string V) key :
  key ∉ Object_prototype → Object_get own key = Own <$> own !! key.
Proof.
  intros Hk. unfold Object_get. destruct (own !! key); [done|].
  by rewrite bool_decide_eq_false_2.
Qed.

Lemma Object_get_inherited {V} (own : gmap string V) key :
  own !! key = None → key ∈ Object_prototype →
  Object_get own key = Some (Inherited key).
Proof.
  intros Hk Hin. unfold Object_get. rewrite Hk.
  by rewrite bool_decide_eq_true_2.
Qed.

Lemma Object_get_None {V} (own : gmap string V) key :
  Object_get own key = None ↔ own !! key = None ∧ key ∉ Object_prototype.
Proof.
  unfold Object_get. destruct (own !! key); [by split; [|intros []]|].
  case_bool_decide; split; try done. by intros [].
Qed.

Lemma Object_get_Own {V} (own : gmap string V) key v :
  Object_get own key = Some (Own v) ↔ own !! key = Some v.
Proof.
  unfold Object_get. destruct (own !! key).
  - split; by intros [= ->].
  - by case_bool_decide.
Qed.

Lemma Object_get_Inherited {V} (own : gmap string V) key name :
  Object_get own key = Some (Inherited name) ↔
  own !! key = None ∧ key ∈ Object_prototype ∧ name = key.
Proof.
  unfold Object_get. destruct (own !! key).
  - split; [done|]. by intros [].
  - case_bool_decide; split; try done.
    + by intros [= ->].
    + by intros (_ & _ & ->).
    + by intros (_ & ? & _).
Qed.

(** ** The edge index *)

(** [Edge.getNodeEdgesObject] only reads the store.  It returns the index
    when no edge names an inherited member as its consumer, and raises
    otherwise. *)
Lemma Edge_getNodeEdgesObject_fold edges (acc : NodeEdgesObject) s :
  (∀ k, is_Some (acc !! k) → k ∉ Object_prototype) →
  reduce (λ (acc : NodeEdgesObject) edge,
            e <- getEdge edge ;;
            previous <- match Object_get acc (Edge.inputNodeId e) with
                        | Some (Own edgeObjects) => ret edgeObjects
                        | Some (Inherited _) =>
                            throw (TypeError "Symbol.iterator")
                        | None => ret []
                        end ;;
            ret (<[Edge.inputNodeId e := previous ++ [edgeObject_of e]]> acc))
         edges acc s
  = if decide (indexable (edge_objs s) edges) then
      (Ok (fold_left
             (λ (acc : NodeEdgesObject) r,
                <[Edge.inputNodeId (edge_objs s !!! r) :=
                    default [] (acc !! Edge.inputNodeId (edge_objs s !!! r))
                    ++ [edgeObject_of (edge_objs s !!! r)]]> acc)
             edges acc), s)
    else (Throw (TypeError "Symbol.iterator"), s).
Proof.
  revert acc. induction edges as [|r edges IH]; intros acc Hacc.
  - cbn [reduce fold_left]. rewrite decide_True; [done|constructor].
  - cbn [reduce fold_left].
    set (key := Edge.inputNodeId (edge_objs s !!! r)).
    destruct (decide (key ∈ Object_prototype)) as [Hin|Hnin].
    + assert (acc !! key = None) as Hnone.
      { destruct (acc !! key) eqn:Hk; [|done].
        by destruct (Hacc key (mk_is_Some _ _ Hk)). }
      erewrite bind_raises; last first.
      { rewrite (bind_reads _ _ _ _ (getEdge_reads r)). fold key.
        rewrite (Object_get_inherited _ _ Hnone Hin). reflexivity. }
      rewrite decide_False; [done|].
      intros Hall. by apply Forall_cons in Hall as [? _].
    + assert (∀ k, is_Some (<[key := default [] (acc !! key)
                                      ++ [edgeObject_of (edge_objs s !!! r)]]>
                              acc !! k) → k ∉ Object_prototype) as Hacc'.
      { intros k Hk. destruct (decide (key = k)) as [<-|Hne]; [done|].
        rewrite lookup_insert_ne in Hk by done. by apply Hacc. }
      rewrite (bind_run _ _ s
                 (<[key := default [] (acc !! key)
                           ++ [edgeObject_of (edge_objs s !!! r)]]> acc) s);
        last first.
      { rewrite (bind_reads _ _ _ _ (getEdge_reads r)). fold key.
        rewrite (Object_get_plain _ _ Hnin). by destruct (acc !! key). }
      rewrite (IH _ Hacc').
      destruct (decide (indexable (edge_objs s) edges)) as [Hd|Hd].
      * rewrite decide_True; [done|]. by constructor.
      * rewrite decide_False; [done|].
        intros Hall. by apply Forall_cons in Hall as [_ ?].
Qed.

Lemma Edge_getNodeEdgesObject_run edges s :
  Edge_getNodeEdgesObject edges s
  = if decide (indexable (edge_objs s) edges) then
      (Ok (edges_index (edge_objs s) edges), s)
    else (Throw (TypeError "Symbol.iterator"), s).
Proof.
  unfold Edge_getNodeEdgesObject, edges_index.
  apply Edge_getNodeEdgesObject_fold.
  intros k Hk. rewrite lookup_empty in Hk. by destruct Hk.
Qed.

(** ** Allocation by the constructors *)

Lemma mapM_Node_new prefix l s :
  mapM (λ raw, Node_new raw prefix) l s =
  (Ok (seq (length (node_objs s)) (length l)),
   mkStore (node_objs s ++ map (λ raw, Node_constructor raw prefix) l)
           (edge_objs s) (graph_objs s) (this_vax s)).
Proof.
  revert s. induction l as [|v l IH]; intros [ns es gs vx]; simpl.
  - by rewrite app_nil_r.
  - unfold bind, Node_new, newNode at 1. simpl. rewrite IH. simpl.
    rewrite length_app, <- app_assoc. simpl.
    by replace (length ns + 1) with (S (length ns)) by lia.
Qed.

Lemma mapM_Edge_new prefix l s :
  mapM (λ raw, Edge_new raw prefix None None) l s =
  (Ok (seq (length (edge_objs s)) (length l)),
   mkStore (node_objs s)
           (edge_objs s ++ map (λ raw, Edge_constructor raw prefix None None) l)
           (graph_objs s) (this_vax s)).
Proof.
  revert s. induction l as [|v l IH]; intros [ns es gs vx]; simpl.
  - by rewrite app_nil_r.
  - unfold bind, Edge_new, newEdge at 1. simpl. rewrite IH. simpl.
    rewrite length_app, <- app_assoc. simpl.
    by replace (length es + 1) with (S (length es)) by lia.
Qed.

Lemma lookup_total_app_seq {A B} `{Inhabited A} (f : A → B) (l k : list A) :
  map (λ r, f ((l ++ k) !!! r)) (seq (length l) (length k)) = map f k.
Proof.
  revert l. induction k as [|v k IH]; intros l; simpl; [done|].
  f_equal.
  - rewrite lookup_total_app_r by lia. by rewrite Nat.sub_diag.
  - specialize (IH (l ++ [v])). rewrite length_app in IH. simpl in IH.
    replace (length l + 1) with (S (length l)) in IH by lia.
    by rewrite <- app_assoc in IH.
Qed.

(** The edges that the constructor allocates keep the consumer ids of the
    raw edges, whatever the prefix. *)
Lemma indexable_built s rawGraph prefix :
  indexable (built_edges s rawGraph prefix)
            (seq (length (edge_objs s)) (length (RawGraph.edges rawGraph)))
  ↔ indexable_raw rawGraph.
Proof.
  unfold indexable, indexable_raw, built_edges.
  etrans; [symmetry; apply (Forall_fmap (λ r, Edge.inputNodeId (_ !!! r))
                              (λ id, id ∉ Object_prototype))|].
  rewrite <- (length_map (λ raw, Edge_constructor raw prefix None None)
                (RawGraph.edges rawGraph)).
  rewrite (lookup_total_app_seq Edge.inputNodeId), map_map.
  rewrite Forall_fmap. apply Forall_iff. by intros [[[? ?] ?] ?].
Qed.

(** [new Graph(rawGraph, prefix)] allocates the nodes and the edges; then
    it builds the indices and allocates the graph, or it raises when the
    edge index cannot be built. *)
Lemma Graph_new_run rawGraph prefix s :
  Graph_new rawGraph prefix s =
  if decide (indexable_raw rawGraph) then
    (Ok (length (graph_objs s)),
     mkStore (built_nodes s rawGraph prefix) (built_edges s rawGraph prefix)
             (graph_objs s ++ [built_graph s rawGraph prefix]) (this_vax s))
  else
    (Throw (TypeError "Symbol.iterator"),
     mkStore (built_nodes s rawGraph prefix) (built_edges s rawGraph prefix)
             (graph_objs s) (this_vax s)).
Proof.
  unfold Graph_new, bind. rewrite mapM_Node_new, mapM_Edge_new.
  rewrite Node_getNodesObject_reads, Edge_getNodeEdgesObject_run.
  cbn [edge_objs].
  pose proof (indexable_built s rawGraph prefix) as Hiff.
  unfold built_edges in Hiff.
  destruct (decide (indexable_raw rawGraph)) as [Hd|Hd].
  - rewrite decide_True by by apply Hiff. done.
  - rewrite decide_False by by rewrite Hiff. done.
Qed.

Lemma Graph_new_spec rawGraph prefix s :
  indexable_raw rawGraph →
  Graph_new rawGraph prefix s =
  (Ok (length (graph_objs s)),
   mkStore (built_nodes s rawGraph prefix) (built_edges s rawGraph prefix)
           (graph_objs s ++ [built_graph s rawGraph prefix]) (this_vax s)).
Proof. intros Hd. rewrite Graph_new_run. by rewrite decide_True. Qed.

Lemma Graph_new_raises rawGraph prefix s :
  ¬ indexable_raw rawGraph →
  Graph_new rawGraph prefix s =
  (Throw (TypeError "Symbol.iterator"),
   mkStore (built_nodes s rawGraph prefix) (built_edges s rawGraph prefix)
           (graph_objs s) (this_vax s)).
Proof. intros Hd. rewrite Graph_new_run. by rewrite decide_False. Qed.

(** Whatever the outcome, the constructor has allocated the nodes and the
    edges and has left the instance alone. *)
Lemma Graph_new_store rawGraph prefix s :
  node_objs (snd (Graph_new rawGraph prefix s)) = built_nodes s rawGraph prefix
  ∧ edge_objs (snd (Graph_new rawGraph prefix s))
    = built_edges s rawGraph prefix
  ∧ this_vax (snd (Graph_new rawGraph prefix s)) = this_vax s.
Proof. rewrite Graph_new_run. by destruct (decide _). Qed.

Lemma lookup_total_snoc {A} `{Inhabited A} (l : list A) (v : A) :
  (l ++ [v]) !!! length l = v.
Proof. rewrite lookup_total_app_r by lia. by rewrite Nat.sub_diag. Qed.

(** The raw form of a freshly built graph, in terms of the constructors. *)
Lemma raw_of_built s rawGraph prefix :
  raw_of (mkStore (built_nodes s rawGraph prefix)
                  (built_edges s rawGraph prefix)
                  (graph_objs s ++ [built_graph s rawGraph prefix])
                  (this_vax s))
         (built_graph s rawGraph prefix) =
  {| RawGraph.nodes :=
       map (λ raw, rawNode_of (Node_constructor raw prefix))
           (RawGraph.nodes rawGraph);
     RawGraph.edges :=
       map (λ raw, rawEdge_of (Edge_constructor raw prefix None None))
           (RawGraph.edges rawGraph);
     RawGraph.comments :=
       map (λ c, Comment_rawComment (Comment_new c))
           (RawGraph.comments rawGraph) |}.
Proof.
  unfold raw_of, built_graph, built_nodes, built_edges. simpl. f_equal.
  - rewrite <- (length_map (λ raw, Node_constructor raw prefix)
                 (RawGraph.nodes rawGraph)).
    rewrite (lookup_total_app_seq rawNode_of). by rewrite map_map.
  - rewrite <- (length_map (λ raw, Edge_constructor raw prefix None None)
                 (RawGraph.edges rawGraph)).
    rewrite (lookup_total_app_seq rawEdge_of). by rewrite map_map.
  - by rewrite map_map.
Qed.


(** ** Constructor followed by the raw getter *)

Lemma rawNode_of_constructor raw :
  Node_complete raw → rawNode_of (Node_constructor raw None) = raw.
Proof.
  destruct raw as [i a t e x y o c].
  by intros ([? [= ->]] & [? [= ->]] & [? [= ->]] & [? [= ->]]).
Qed.

(** The raw form of a [Node] object that the constructor built is the
    list of its fields. *)
Lemma rawNode_of_built raw prefix :
  rawNode_of (Node_constructor raw prefix) = Node_constructor raw prefix.
Proof. done. Qed.

Lemma Node_constructor_rawNode_of n :
  Node_constructor (rawNode_of n) None = rawNode_of n.
Proof. done. Qed.

Lemma rawEdge_of_constructor raw inputNode outputNode :
  rawEdge_of (Edge_constructor raw None inputNode outputNode) = raw.
Proof. by destruct raw as [[[? ?] ?] ?]. Qed.

Lemma rawComment_of_new c : Comment_rawComment (Comment_new c) = c.
Proof. by destruct c. Qed.

Lemma map_id_ext {A} (f : A → A) (l : list A) :
  (∀ v, f v = v) → map f l = l.
Proof. intros Hf. induction l; simpl; by rewrite ?Hf, ?IHl. Qed.

(** The raw form of a graph fresh from the constructor: every node has
    all eight keys, and everything else is as in the raw graph it was
    built from. *)
Lemma Graph_new_rawGraph rawGraph s :
  indexable_raw rawGraph →
  ∃ g s', Graph_new rawGraph None s = (Ok g, s')
          ∧ Graph_rawGraph g s' = (Ok (completed rawGraph), s').
Proof.
  intros Hd. eexists _, _. split; [by apply Graph_new_spec|].
  rewrite Graph_rawGraph_reads. simpl. rewrite lookup_total_snoc.
  rewrite raw_of_built. destruct rawGraph as [ns es cs].
  unfold completed. simpl.
  rewrite (map_id_ext _ es) by (intros; apply rawEdge_of_constructor).
  rewrite (map_id_ext _ cs) by apply rawComment_of_new. done.
Qed.

Lemma completed_complete rawGraph :
  completed rawGraph = rawGraph ↔ complete_raw rawGraph.
Proof.
  destruct rawGraph as [ns es cs]. unfold completed, complete_raw. simpl.
  split.
  - intros [= Hns]. induction ns as [|n ns IH]; [constructor|].
    simpl in Hns. injection Hns as Hn Hns. constructor; [|by apply IH].
    rewrite <- Hn. unfold Node_complete. simpl. by repeat split.
  - intros Hall. f_equal. induction Hall as [|n ns Hn _ IH]; [done|].
    simpl. rewrite IH. f_equal. by apply rawNode_of_constructor.
Qed.

(** ** Cloning with a prefix *)

Lemma Graph_clone_spec this prefix s :
  Graph_clone this prefix s
  = Graph_new (raw_of s (graph_objs s !!! this)) prefix s.
Proof. unfold Graph_clone, bind. by rewrite Graph_rawGraph_reads. Qed.

Lemma indexable_raw_of s (G : Graph) :
  indexable_raw (raw_of s G) ↔ indexable (edge_objs s) (Graph.edges G).
Proof.
  unfold indexable_raw, indexable, raw_of. cbn [RawGraph.edges].
  rewrite Forall_fmap. apply Forall_iff. intros r. unfold compose.
  by destruct (edge_objs s !!! r).
Qed.

Lemma Graph_clone_Ok this prefix s :
  indexable (edge_objs s) (Graph.edges (graph_objs s !!! this)) →
  Graph_clone this prefix s
  = (Ok (length (graph_objs s)),
     mkStore (built_nodes s (raw_of s (graph_objs s !!! this)) prefix)
             (built_edges s (raw_of s (graph_objs s !!! this)) prefix)
             (graph_objs s
              ++ [built_graph s (raw_of s (graph_objs s !!! this)) prefix])
             (this_vax s)).
Proof.
  intros Hd. rewrite Graph_clone_spec.
  by apply Graph_new_spec, indexable_raw_of.
Qed.

Lemma Graph_clone_raises this prefix s :
  ¬ indexable (edge_objs s) (Graph.edges (graph_objs s !!! this)) →
  Graph_clone this prefix s
  = (Throw (TypeError "Symbol.iterator"),
     mkStore (built_nodes s (raw_of s (graph_objs s !!! this)) prefix)
             (built_edges s (raw_of s (graph_objs s !!! this)) prefix)
             (graph_objs s) (this_vax s)).
Proof.
  intros Hd. rewrite Graph_clone_spec.
  apply Graph_new_raises. by rewrite indexable_raw_of.
Qed.

(** ** The node index *)

Lemma nodes_index_fold_Some (objs : list Node) (nodes : list nref)
    (acc : gmap string nref) k r :
  fold_left (λ acc r, <[Node.id (objs !!! r) := r]> acc) nodes acc !! k
  = Some r →
  (r ∈ nodes ∧ Node.id (objs !!! r) = k) ∨ acc !! k = Some r.
Proof.
  revert acc. induction nodes as [|n nodes IH]; intros acc; simpl;
    [by right|].
  intros Hk. destruct (IH _ Hk) as [[Hin Hid]|Hacc].
  - left. split; [by right|done].
  - destruct (decide (Node.id (objs !!! n) = k)) as [Heq|Hne].
    + rewrite Heq, lookup_insert_eq in Hacc. injection Hacc as <-.
      left. split; [by left|done].
    + rewrite lookup_insert_ne in Hacc by done. by right.
Qed.

Lemma nodes_index_fold_None (objs : list Node) (nodes : list nref)
    (acc : gmap string nref) k :
  fold_left (λ acc r, <[Node.id (objs !!! r) := r]> acc) nodes acc !! k
  = None ↔
  (k ∉ map (λ r, Node.id (objs !!! r)) nodes) ∧ acc !! k = None.
Proof.
  revert acc. induction nodes as [|n nodes IH]; intros acc; simpl.
  - split.
    + intros ?. split; [apply not_elem_of_nil|done].
    + by intros [_ ?].
  - rewrite IH, not_elem_of_cons.
    destruct (decide (Node.id (objs !!! n) = k)) as [Heq|Hne].
    + rewrite Heq, lookup_insert_eq. split.
      * by intros [_ ?].
      * by intros [[? _] _].
    + rewrite lookup_insert_ne by done. split.
      * intros [? ?]. split; [split|]; congruence.
      * intros [[? ?] ?]. done.
Qed.

Lemma nodes_index_Some (objs : list Node) (nodes : list nref) k r :
  nodes_index objs nodes !! k = Some r →
  r ∈ nodes ∧ Node.id (objs !!! r) = k.
Proof.
  intros Hk. destruct (nodes_index_fold_Some _ _ _ _ _ Hk) as [?|Hemp];
    [done|]. by rewrite lookup_empty in Hemp.
Qed.

Lemma nodes_index_None (objs : list Node) (nodes : list nref) k :
  nodes_index objs nodes !! k = None ↔
  k ∉ map (λ r, Node.id (objs !!! r)) nodes.
Proof.
  unfold nodes_index. rewrite nodes_index_fold_None, lookup_empty.
  split; [by intros [? _]|done].
Qed.

Lemma nodes_index_fold_last (objs : list Node) (nodes : list nref)
    (acc : gmap string nref) k :
  fold_left (λ acc r, <[Node.id (objs !!! r) := r]> acc) nodes acc !! k
  = match last (filter (λ r, Node.id (objs !!! r) = k) nodes) with
    | Some r => Some r
    | None => acc !! k
    end.
Proof.
  revert acc. induction nodes as [|n nodes IH]; intros acc; [done|].
  cbn [fold_left]. rewrite IH.
  destruct (decide (Node.id (objs !!! n) = k)) as [Hk|Hk].
  - rewrite filter_cons_True by done. rewrite last_cons.
    destruct (last _); [done|]. by rewrite Hk, lookup_insert_eq.
  - rewrite filter_cons_False by done.
    destruct (last _); [done|]. by rewrite lookup_insert_ne.
Qed.

Lemma nodes_index_last (objs : list Node) (nodes : list nref) k :
  nodes_index objs nodes !! k
  = last (filter (λ r, Node.id (objs !!! r) = k) nodes).
Proof.
  unfold nodes_index. rewrite nodes_index_fold_last.
  destruct (last _); [done|]. apply lookup_empty.
Qed.

Lemma edges_index_fold (objs : list Edge) (edges : list eref)
    (acc : NodeEdgesObject) a :
  fold_left (λ (acc : NodeEdgesObject) r,
               <[Edge.inputNodeId (objs !!! r) :=
                   default [] (acc !! Edge.inputNodeId (objs !!! r))
                   ++ [edgeObject_of (objs !!! r)]]> acc)
            edges acc !! a
  = match filter (λ r, Edge.inputNodeId (objs !!! r) = a) edges with
    | [] => acc !! a
    | consumed =>
        Some (default [] (acc !! a)
              ++ map (λ r, edgeObject_of (objs !!! r)) consumed)
    end.
Proof.
  revert acc. induction edges as [|e edges IH]; intros acc; [done|].
  cbn [fold_left]. rewrite IH.
  destruct (decide (Edge.inputNodeId (objs !!! e) = a)) as [Ha|Ha].
  - rewrite filter_cons_True by done. rewrite Ha, lookup_insert_eq. cbn.
    destruct (filter _ edges); cbn; [done|]. by rewrite <- app_assoc.
  - rewrite filter_cons_False by done. by rewrite lookup_insert_ne.
Qed.

Lemma edges_index_lookup (objs : list Edge) (edges : list eref) a :
  edges_index objs edges !! a
  = match filter (λ r, Edge.inputNodeId (objs !!! r) = a) edges with
    | [] => None
    | consumed => Some (map (λ r, edgeObject_of (objs !!! r)) consumed)
    end.
Proof.
  unfold edges_index. rewrite edges_index_fold, lookup_empty.
  by destruct (filter _ edges).
Qed.

(** On a graph whose edge index is that of its edge array, the steps of
    [composeTree] are the edges of the array. *)
Lemma consumes_edges s (G : Graph) a b :
  Graph.nodeEdgesObject G = edges_index (edge_objs s) (Graph.edges G) →
  consumes G a b ↔
  ∃ r, r ∈ Graph.edges G
       ∧ Edge.inputNodeId (edge_objs s !!! r) = a
       ∧ Edge.outputNodeId (edge_objs s !!! r) = b.
Proof.
  intros Hsync. unfold consumes. rewrite Hsync, edges_index_lookup.
  split.
  - intros (edgeData & He & <-).
    destruct (filter _ (Graph.edges G)) as [|r0 l] eqn:Hf;
      [by apply not_elem_of_nil in He|].
    cbn [default] in He. apply list_elem_of_fmap in He as (r & -> & Hr).
    rewrite <- Hf in Hr. apply list_elem_of_filter in Hr as [Ha Hr].
    by exists r.
  - intros (r & Hr & Ha & Hb).
    assert (r ∈ filter (λ r, Edge.inputNodeId (edge_objs s !!! r) = a)
                       (Graph.edges G)) as Hin
      by by apply list_elem_of_filter.
    exists (edgeObject_of (edge_objs s !!! r)). split; [|done].
    destruct (filter _ (Graph.edges G)) as [|r0 l];
      [by apply not_elem_of_nil in Hin|].
    cbn [default]. apply list_elem_of_fmap. by exists r.
Qed.

(** On a graph fresh from the constructor they are the edges of the raw
    graph, whatever the prefix. *)
Lemma consumes_built s rawGraph prefix a b :
  consumes (built_graph s rawGraph prefix) a b ↔ feeds rawGraph a b.
Proof.
  rewrite (consumes_edges
             (mkStore (built_nodes s rawGraph prefix)
                      (built_edges s rawGraph prefix)
                      (graph_objs s) (this_vax s))) by done.
  cbn [edge_objs built_graph Graph.edges].
  assert (Hmap :
    map (λ r, (Edge.inputNodeId (built_edges s rawGraph prefix !!! r),
               Edge.outputNodeId (built_edges s rawGraph prefix !!! r)))
        (seq (length (edge_objs s)) (length (RawGraph.edges rawGraph)))
    = map (λ rawEdge : RawEdge, (rawEdge.1.1.1, rawEdge.1.2))
          (RawGraph.edges rawGraph)).
  { unfold built_edges.
    rewrite <- (length_map (λ raw, Edge_constructor raw prefix None None)
                  (RawGraph.edges rawGraph)).
    rewrite (lookup_total_app_seq
               (λ e, (Edge.inputNodeId e, Edge.outputNodeId e))).
    rewrite map_map. apply map_ext. by intros [[[? ?] ?] ?]. }
  etrans; [|etrans];
    [|apply (elem_of_proper (a, b) (a, b) eq_refl _ _
               (reflexive_eq _ _ Hmap))|].
  - rewrite list_elem_of_fmap. split.
    + intros (r & Hr & Ha & Hb). exists r. by rewrite Ha, Hb.
    + intros (r & [= Ha Hb] & Hr). by exists r.
  - rewrite list_elem_of_fmap. unfold feeds. split.
    + intros ([[[a' i] b'] o] & [= -> ->] & Hin). by exists i, o.
    + intros (i & o & Hin). by exists (a, i, b, o).
Qed.

Lemma Graph_getNodesByIds_reads this ids :
  reads (Graph_getNodesByIds this ids)
        (λ s, map (λ nodeId,
                     Object_get (Graph.nodesObject (graph_objs s !!! this))
                                nodeId)
                  ids).
Proof. done. Qed.

(** ** Store invariants through the monad *)

Lemma bind_Ok {A B} (m : M A) (k : A → M B) s r s' :
  bind m k s = (Ok r, s') →
  ∃ v s1, m s = (Ok v, s1) ∧ k v s1 = (Ok r, s').
Proof.
  unfold bind. destruct (m s) as [[v|e|] s1]; intros Hk;
    [by exists v, s1|discriminate..].
Qed.

Section preserves.
Context (R : Store → Store → Prop) `{!Reflexive R, !Transitive R}.

Lemma preserves_ret {A} (v : A) : preserves R (ret v).
Proof. intros s. done. Qed.

Lemma preserves_throw {A} e : preserves R (@throw A e).
Proof. intros s. done. Qed.

Lemma preserves_out_of_fuel {A} : preserves R (@out_of_fuel A).
Proof. intros s. done. Qed.

Lemma preserves_reads {A} (m : M A) f : reads m f → preserves R m.
Proof. intros Hm s. by rewrite Hm. Qed.

Lemma preserves_bind {A B} (m : M A) (k : A → M B) :
  preserves R m → (∀ v, preserves R (k v)) → preserves R (bind m k).
Proof.
  intros Hm Hk s. unfold bind. specialize (Hm s).
  destruct (m s) as [[v|e|] s1]; simpl in *; [|done..].
  by etrans; [|apply Hk].
Qed.

Lemma preserves_reduce {A B} (f : B → A → M B) l init :
  (∀ acc v, preserves R (f acc v)) → preserves R (reduce f l init).
Proof.
  intros Hf. revert init. induction l as [|v l IH]; intros init; simpl.
  - apply preserves_ret.
  - apply preserves_bind; [apply Hf|]. intros acc. apply IH.
Qed.

Lemma preserves_mapM {A B} (f : A → M B) l :
  (∀ v, preserves R (f v)) → preserves R (mapM f l).
Proof.
  intros Hf. induction l as [|v l IH]; simpl.
  - apply preserves_ret.
  - apply preserves_bind; [apply Hf|]. intros w.
    apply preserves_bind; [apply IH|]. intros ws. apply preserves_ret.
Qed.

Lemma preserves_forEach {A} (f : A → M unit) l :
  (∀ v, preserves R (f v)) → preserves R (forEach l f).
Proof.
  intros Hf. induction l as [|v l IH]; simpl.
  - apply preserves_ret.
  - apply preserves_bind; [apply Hf|]. intros _. apply IH.
Qed.

Lemma preserves_filterMi {A} (p : A → nat → M bool) l index :
  (∀ v i, preserves R (p v i)) → preserves R (filterMi p l index).
Proof.
  intros Hp. revert index. induction l as [|v l IH]; intros index; simpl.
  - apply preserves_ret.
  - apply preserves_bind; [apply Hp|]. intros b.
    apply preserves_bind; [apply IH|]. intros vs. apply preserves_ret.
Qed.

Lemma preserves_filterM {A} (p : A → M bool) l :
  (∀ v, preserves R (p v)) → preserves R (filterM p l).
Proof. intros Hp. apply preserves_filterMi. intros v _. apply Hp. Qed.

Lemma preserves_someM {A} (p : A → M bool) l :
  (∀ v, preserves R (p v)) → preserves R (someM p l).
Proof.
  intros Hp. induction l as [|v l IH]; simpl.
  - apply preserves_ret.
  - apply preserves_bind; [apply Hp|]. intros [|]; [apply preserves_ret|done].
Qed.

Lemma preserves_everyM {A} (p : A → M bool) l :
  (∀ v, preserves R (p v)) → preserves R (everyM p l).
Proof.
  intros Hp. induction l as [|v l IH]; simpl.
  - apply preserves_ret.
  - apply preserves_bind; [apply Hp|]. intros [|]; [done|apply preserves_ret].
Qed.

Lemma preserves_findM {A} (p : A → M bool) l :
  (∀ v, preserves R (p v)) → preserves R (findM p l).
Proof.
  intros Hp. induction l as [|v l IH]; simpl.
  - apply preserves_ret.
  - apply preserves_bind; [apply Hp|]. intros [|]; [apply preserves_ret|done].
Qed.

Lemma preserves_Node_id node : preserves R (Node_id node).
Proof.
  destruct node as [[r|name]|];
    [|apply preserves_ret|apply preserves_throw].
  apply preserves_bind; [by apply (preserves_reads _ _ (getNode_reads r))|].
  intros n. apply preserves_ret.
Qed.

Lemma preserves_reduce_edges {B} rawNodeEdges (f : B → EdgeObject → M B) init :
  (∀ acc v, preserves R (f acc v)) →
  preserves R (reduce_edges rawNodeEdges f init).
Proof.
  intros Hf. destruct rawNodeEdges as [[l|name]|]; simpl;
    [by apply preserves_reduce|apply preserves_throw|apply preserves_ret].
Qed.

Lemma preserves_getNode r : preserves R (getNode r).
Proof. by apply (preserves_reads _ _ (getNode_reads r)). Qed.

Lemma preserves_getEdge r : preserves R (getEdge r).
Proof. by apply (preserves_reads _ _ (getEdge_reads r)). Qed.

Lemma preserves_getGraph r : preserves R (getGraph r).
Proof. by apply (preserves_reads _ _ (getGraph_reads r)). Qed.

Lemma preserves_Graph_getRootNodes this :
  preserves R (Graph_getRootNodes this).
Proof.
  apply preserves_bind; [apply preserves_getGraph|]. intros g.
  apply preserves_filterM. intros node.
  apply preserves_bind; [apply preserves_getGraph|]. intros g'.
  apply preserves_everyM. intros edge.
  apply preserves_bind; [apply preserves_getEdge|]. intros e.
  apply preserves_bind; [apply preserves_getNode|]. intros n.
  apply preserves_ret.
Qed.
End preserves.

#[global] Instance grows_refl : Reflexive grows.
Proof. intros s. by repeat split. Qed.

#[global] Instance grows_trans : Transitive grows.
Proof.
  intros s1 s2 s3 (Hn1 & He1 & Hg1 & Hv1) (Hn2 & He2 & Hg2 & Hv2).
  repeat split; [by etrans|congruence..].
Qed.

Lemma grows_length s s' :
  grows s s' → length (node_objs s) ≤ length (node_objs s').
Proof. intros [Hn _]. by apply prefix_length. Qed.

Lemma grows_take s s' :
  grows s s' → take (length (node_objs s)) (node_objs s') = node_objs s.
Proof. intros [[k ->] _]. by rewrite take_app_length. Qed.

Lemma grows_lookup_total s s' r :
  grows s s' → r < length (node_objs s) →
  node_objs s' !!! r = node_objs s !!! r.
Proof. intros [[k ->] _] Hr. by rewrite lookup_total_app_l. Qed.

(** ** Tree composition only adds objects *)

(** The last steps of [composeTree]: the clone is a new object, and the
    two assignments go to it. *)
Lemma clone_and_assign n f1 f2 s :
  (newNode <- lodash_clone n ;;
   setNode newNode f1 ;;; setNode newNode f2 ;;; ret newNode) s
  = (Ok (length (node_objs s)),
     mkStore (node_objs s ++ [f2 (f1 (cloned s n))])
             (edge_objs s) (graph_objs s) (this_vax s)).
Proof.
  destruct s as [ns es gs vx], n as [r|name];
    unfold bind, lodash_clone, getNode, newNode, setNode, ret; simpl.
  - rewrite !lookup_total_snoc.
    rewrite (insert_app_r_alt ns) by lia. rewrite Nat.sub_diag. simpl.
    rewrite lookup_total_snoc.
    rewrite (insert_app_r_alt ns) by lia. rewrite Nat.sub_diag. done.
  - rewrite !lookup_total_snoc.
    rewrite (insert_app_r_alt ns) by lia. rewrite Nat.sub_diag. simpl.
    rewrite lookup_total_snoc.
    rewrite (insert_app_r_alt ns) by lia. rewrite Nat.sub_diag. done.
Qed.

Lemma composeTree_body_grows composeTree this node parentsIds out :
  (∀ n p o, preserves grows (composeTree n p o)) →
  preserves grows (composeTree_body composeTree this node parentsIds out).
Proof.
  intros Hrec. unfold composeTree_body.
  apply preserves_bind; [apply _..| |].
  { apply preserves_someM; [apply _..|]. intros pid.
    apply preserves_bind; [apply _..|apply preserves_Node_id; apply _|].
    intros nodeId. apply preserves_ret; apply _. }
  intros [|].
  { apply preserves_bind; [apply _..|apply preserves_Node_id; apply _|].
    intros nodeId. apply preserves_throw; apply _. }
  apply preserves_bind; [apply _..|apply preserves_Node_id; apply _|].
  intros nodeId.
  apply preserves_bind; [apply _..|apply preserves_getGraph; apply _|].
  intros g.
  apply preserves_bind; [apply _..|apply preserves_Node_id; apply _|].
  intros nodeId'.
  apply preserves_bind; [apply _..| |].
  { apply preserves_reduce_edges; [apply _..|]. intros acc edgeData.
    apply preserves_bind; [apply _..|apply preserves_getGraph; apply _|].
    intros g'.
    apply preserves_bind; [apply _..|apply Hrec|]. intros child.
    apply preserves_bind; [apply _..|apply preserves_getNode; apply _|].
    intros composed. apply preserves_ret; apply _. }
  intros nodeEdges. destruct node as [n|]; [|apply preserves_throw; apply _].
  intros s. rewrite clone_and_assign. simpl.
  split; [by apply prefix_app_r|done].
Qed.

Lemma Graph_composeTree_grows fuel this node parentsIds out :
  preserves grows (Graph_composeTree fuel this node parentsIds out).
Proof.
  revert node parentsIds out. induction fuel as [|fuel IH];
    intros node parentsIds out; simpl.
  - apply preserves_out_of_fuel; apply _.
  - by apply composeTree_body_grows.
Qed.

Lemma preserves_run {A} R (m : M A) s res s' :
  preserves R m → m s = (res, s') → R s s'.
Proof. intros Hm Hs. specialize (Hm s). by rewrite Hs in Hm. Qed.

(** The object that [composeTree] returns did not exist before the call. *)
Lemma composeTree_body_fresh composeTree this node parentsIds out s r s' :
  (∀ n p o, preserves grows (composeTree n p o)) →
  composeTree_body composeTree this node parentsIds out s = (Ok r, s') →
  length (node_objs s) ≤ r.
Proof.
  intros Hrec. unfold composeTree_body. intros H.
  apply bind_Ok in H as (present & s1 & H1 & H).
  apply (preserves_run grows) in H1; last first.
  { apply preserves_someM; [apply _..|]. intros pid.
    apply preserves_bind; [apply _..|apply preserves_Node_id; apply _|].
    intros nodeId. apply preserves_ret; apply _. }
  destruct present.
  { apply bind_Ok in H as (? & ? & _ & H). discriminate. }
  apply bind_Ok in H as (nodeId & s2 & H2 & H).
  apply (preserves_run grows) in H2; [|apply preserves_Node_id; apply _].
  apply bind_Ok in H as (g & s3 & H3 & H).
  apply (preserves_run grows) in H3; [|apply preserves_getGraph; apply _].
  apply bind_Ok in H as (nodeId' & s4 & H4 & H).
  apply (preserves_run grows) in H4; [|apply preserves_Node_id; apply _].
  apply bind_Ok in H as (nodeEdges & s5 & H5 & H).
  apply (preserves_run grows) in H5; last first.
  { apply preserves_reduce_edges; [apply _..|]. intros acc edgeData.
    apply preserves_bind; [apply _..|apply preserves_getGraph; apply _|].
    intros g'.
    apply preserves_bind; [apply _..|apply Hrec|]. intros child.
    apply preserves_bind; [apply _..|apply preserves_getNode; apply _|].
    intros composed. apply preserves_ret; apply _. }
  destruct node as [n|]; [|discriminate].
  rewrite clone_and_assign in H. injection H as <- _.
  apply grows_length.
  by etrans; [|etrans; [|etrans; [|etrans]]].
Qed.

Lemma Graph_composeTree_fresh fuel this node parentsIds out s r s' :
  Graph_composeTree fuel this node parentsIds out s = (Ok r, s') →
  length (node_objs s) ≤ r.
Proof.
  destruct fuel as [|fuel]; simpl; [discriminate|].
  apply composeTree_body_fresh. intros n p o. apply Graph_composeTree_grows.
Qed.

Lemma Graph_composeTreeWithRootNode_grows fuel this rootNodeId :
  preserves grows (Graph_composeTreeWithRootNode fuel this rootNodeId).
Proof.
  apply preserves_bind; [apply _..|apply preserves_getGraph; apply _|].
  intros g. apply Graph_composeTree_grows.
Qed.

Lemma Graph_composeTreeWithRootNode_fresh fuel this rootNodeId s r s' :
  Graph_composeTreeWithRootNode fuel this rootNodeId s = (Ok r, s') →
  length (node_objs s) ≤ r.
Proof.
  unfold Graph_composeTreeWithRootNode, bind, getGraph.
  apply Graph_composeTree_fresh.
Qed.

Lemma mapM_fresh {A} (f : A → M nref) l s rs s' :
  (∀ v, preserves grows (f v)) →
  (∀ v s r s', f v s = (Ok r, s') → length (node_objs s) ≤ r) →
  mapM f l s = (Ok rs, s') →
  Forall (λ r, length (node_objs s) ≤ r) rs.
Proof.
  intros Hg Hf. revert s rs s'.
  induction l as [|v l IH]; intros s rs s'; simpl.
  - intros [= <- _]. constructor.
  - intros H. apply bind_Ok in H as (r & s1 & H1 & H).
    apply bind_Ok in H as (rs' & s2 & H2 & H). injection H as <- _.
    constructor; [by eapply Hf|].
    apply IH in H2. apply (preserves_run grows) in H1; [|apply Hg].
    apply grows_length in H1.
    eapply Forall_impl; [done|]. simpl. lia.
Qed.

Lemma Graph_composeTrees_grows fuel this :
  preserves grows (Graph_composeTrees fuel this).
Proof.
  apply preserves_bind; [apply _..|apply preserves_Graph_getRootNodes; apply _|].
  intros roots. apply preserves_mapM; [apply _..|]. intros rootNode.
  apply preserves_bind; [apply _..|apply preserves_getNode; apply _|].
  intros n. apply Graph_composeTreeWithRootNode_grows.
Qed.

Lemma Graph_composeTrees_fresh fuel this s rs s' :
  Graph_composeTrees fuel this s = (Ok rs, s') →
  Forall (λ r, length (node_objs s) ≤ r) rs.
Proof.
  intros H. apply bind_Ok in H as (roots & s1 & H1 & H).
  apply (preserves_run grows) in H1;
    [|apply preserves_Graph_getRootNodes; apply _].
  apply mapM_fresh in H.
  - apply grows_length in H1. eapply Forall_impl; [done|]. simpl. lia.
  - intros rootNode.
    apply preserves_bind; [apply _..|apply preserves_getNode; apply _|].
    intros n. apply Graph_composeTreeWithRootNode_grows.
  - intros rootNode s0 r s0'. unfold bind at 1, getNode at 1.
    apply Graph_composeTreeWithRootNode_fresh.
Qed.

(** ** The mutators of a graph *)

Lemma filterMi_reads {A} (p : A → nat → M bool) q l index :
  (∀ v i, reads (p v i) (q v i)) →
  reads (filterMi p l index)
        (λ s, filter_indexed (λ v i, q v i s) l index).
Proof.
  intros Hp. revert index. induction l as [|v l IH]; intros index s; simpl;
    [done|].
  unfold bind. rewrite Hp, IH. done.
Qed.

Lemma Graph_addNodes_spec this nodes s :
  Graph_addNodes this nodes s
  = (Ok tt,
     mkStore (node_objs s) (edge_objs s)
       (<[this := Graph_set_nodes
                    (Graph.nodes (graph_objs s !!! this) ++ nodes)
                    (graph_objs s !!! this)]> (graph_objs s))
       (this_vax s)).
Proof. done. Qed.

Lemma Graph_addEdges_spec this edges s :
  Graph_addEdges this edges s
  = (Ok tt,
     mkStore (node_objs s) (edge_objs s)
       (<[this := Graph_set_edges
                    (Graph.edges (graph_objs s !!! this) ++ edges)
                    (graph_objs s !!! this)]> (graph_objs s))
       (this_vax s)).
Proof. done. Qed.

Lemma Graph_deleteNodes_spec this filterFn p s :
  (∀ n i, reads (filterFn n i) (p n i)) →
  Graph_deleteNodes this filterFn s
  = (Ok tt,
     mkStore (node_objs s) (edge_objs s)
       (<[this := Graph_set_nodes
                    (filter_indexed (λ n i, negb (p n i s))
                       (Graph.nodes (graph_objs s !!! this)) 0)
                    (graph_objs s !!! this)]> (graph_objs s))
       (this_vax s)).
Proof.
  intros Hf. unfold Graph_deleteNodes, bind. rewrite getGraph_reads.
  rewrite (filterMi_reads _ (λ n i s, negb (p n i s))); [done|].
  intros n i s'. unfold bind. by rewrite Hf.
Qed.

Lemma Graph_deleteEdges_spec this filterFn p s :
  (∀ e i, reads (filterFn e i) (p e i)) →
  Graph_deleteEdges this filterFn s
  = (Ok tt,
     mkStore (node_objs s) (edge_objs s)
       (<[this := Graph_set_edges
                    (filter_indexed (λ e i, negb (p e i s))
                       (Graph.edges (graph_objs s !!! this)) 0)
                    (graph_objs s !!! this)]> (graph_objs s))
       (this_vax s)).
Proof.
  intros Hf. unfold Graph_deleteEdges, bind. rewrite getGraph_reads.
  rewrite (filterMi_reads _ (λ e i s, negb (p e i s))); [done|].
  intros e i s'. unfold bind. by rewrite Hf.
Qed.

(** Replacing the graph object [this] by one with the same comments and
    indices. *)
Lemma keeps_indices_insert this s (g : Graph) :
  Graph.comments g = Graph.comments (graph_objs s !!! this) →
  Graph.nodesObject g = Graph.nodesObject (graph_objs s !!! this) →
  Graph.nodeEdgesObject g = Graph.nodeEdgesObject (graph_objs s !!! this) →
  keeps_indices this s
    (mkStore (node_objs s) (edge_objs s) (<[this := g]> (graph_objs s))
             (this_vax s)).
Proof.
  intros Hc Hn He. unfold keeps_indices. simpl.
  destruct (decide (this < length (graph_objs s))) as [Hlt|Hge].
  - by rewrite list_lookup_total_insert_eq.
  - by rewrite !list_insert_ge by lia.
Qed.

(** ** Tree composition reads the store through the indices only *)

Section respects.
Context (E : Store → Store → Prop).

Lemma respects_ret {A} (v : A) : respects E (ret v).
Proof. intros s1 s2 HE. done. Qed.

Lemma respects_throw {A} e : respects E (@throw A e).
Proof. intros s1 s2 HE. done. Qed.

Lemma respects_out_of_fuel {A} : respects E (@out_of_fuel A).
Proof. intros s1 s2 HE. done. Qed.

Lemma respects_bind {A B} (m : M A) (k : A → M B) :
  respects E m → (∀ v, respects E (k v)) → respects E (bind m k).
Proof.
  intros Hm Hk s1 s2 HE. unfold bind.
  destruct (Hm s1 s2 HE) as [Hres HE'].
  destruct (m s1) as [[v1|e1|] t1], (m s2) as [[v2|e2|] t2];
    simpl in *; try discriminate.
  - injection Hres as ->. by apply Hk.
  - split; [congruence|done].
  - by split.
Qed.

Lemma respects_reduce {A B} (f : B → A → M B) l init :
  (∀ acc v, respects E (f acc v)) → respects E (reduce f l init).
Proof.
  intros Hf. revert init. induction l as [|v l IH]; intros init; simpl.
  - apply respects_ret.
  - apply respects_bind; [apply Hf|]. intros acc. apply IH.
Qed.

Lemma respects_reduce_edges {B} rawNodeEdges (f : B → EdgeObject → M B) init :
  (∀ acc v, respects E (f acc v)) →
  respects E (reduce_edges rawNodeEdges f init).
Proof.
  intros Hf. destruct rawNodeEdges as [[l|name]|]; simpl;
    [by apply respects_reduce|apply respects_throw|apply respects_ret].
Qed.

Lemma respects_someM {A} (p : A → M bool) l :
  (∀ v, respects E (p v)) → respects E (someM p l).
Proof.
  intros Hp. induction l as [|v l IH]; simpl.
  - apply respects_ret.
  - apply respects_bind; [apply Hp|]. intros [|]; [apply respects_ret|done].
Qed.
End respects.

Section same_indices.
Context (this : gref).

Lemma respects_getNode r : respects (same_indices this) (getNode r).
Proof.
  intros s1 s2 HE. split; [|done]. unfold getNode. simpl.
  destruct HE as (-> & _). done.
Qed.

Lemma respects_Node_id node : respects (same_indices this) (Node_id node).
Proof.
  destruct node as [[r|name]|]; [|apply respects_ret|apply respects_throw].
  apply respects_bind; [apply respects_getNode|].
  intros n. apply respects_ret.
Qed.

Lemma respects_getGraph {A} (k : Graph → M A) :
  (∀ g1 g2, Graph.nodesObject g1 = Graph.nodesObject g2 →
            Graph.nodeEdgesObject g1 = Graph.nodeEdgesObject g2 →
            k g1 = k g2) →
  (∀ g, respects (same_indices this) (k g)) →
  respects (same_indices this) (bind (getGraph this) k).
Proof.
  intros Hext Hk s1 s2 HE. unfold bind, getGraph.
  pose proof HE as (_ & Hno & Hneo).
  rewrite (Hext (graph_objs s1 !!! this) (graph_objs s2 !!! this));
    [by apply Hk|done..].
Qed.

Lemma respects_clone_and_assign n f1 f2 :
  respects (same_indices this)
    (newNode <- lodash_clone n ;;
     setNode newNode f1 ;;; setNode newNode f2 ;;; ret newNode).
Proof.
  intros s1 s2 (Hn & Hno & Hneo). rewrite !clone_and_assign. simpl.
  unfold cloned. rewrite Hn. done.
Qed.

Lemma composeTree_body_respects composeTree node parentsIds out :
  (∀ n p o, respects (same_indices this) (composeTree n p o)) →
  respects (same_indices this)
           (composeTree_body composeTree this node parentsIds out).
Proof.
  intros Hrec. unfold composeTree_body.
  apply respects_bind.
  { apply respects_someM. intros pid.
    apply respects_bind; [apply respects_Node_id|].
    intros nodeId. apply respects_ret. }
  intros [|].
  { apply respects_bind; [apply respects_Node_id|].
    intros nodeId. apply respects_throw. }
  apply respects_bind; [apply respects_Node_id|]. intros nodeId.
  apply respects_getGraph.
  { intros g1 g2 _ Hneo. by rewrite Hneo. }
  intros g.
  apply respects_bind; [apply respects_Node_id|]. intros nodeId'.
  apply respects_bind.
  { apply respects_reduce_edges. intros acc edgeData.
    apply respects_getGraph.
    { intros g1 g2 Hno _. by rewrite Hno. }
    intros g'.
    apply respects_bind; [apply Hrec|]. intros child.
    apply respects_bind; [apply respects_getNode|]. intros composed.
    apply respects_ret. }
  intros nodeEdges. destruct node as [n|]; [|apply respects_throw].
  apply respects_clone_and_assign.
Qed.

Lemma Graph_composeTree_respects fuel node parentsIds out :
  respects (same_indices this)
           (Graph_composeTree fuel this node parentsIds out).
Proof.
  revert node parentsIds out. induction fuel as [|fuel IH];
    intros node parentsIds out; simpl.
  - apply respects_out_of_fuel.
  - by apply composeTree_body_respects.
Qed.

Lemma Graph_composeTreeWithRootNode_respects fuel rootNodeId :
  respects (same_indices this)
           (Graph_composeTreeWithRootNode fuel this rootNodeId).
Proof.
  apply respects_getGraph.
  - intros g1 g2 Hno _. by rewrite Hno.
  - intros g. apply Graph_composeTree_respects.
Qed.
End same_indices.

Lemma keeps_indices_same this s s' :
  keeps_indices this s s' → same_indices this s' s.
Proof. intros (Hn & _ & _ & _ & _ & Hno & Hneo). by repeat split. Qed.

Lemma keeps_indices_queries this s s' :
  keeps_indices this s s' →
  (∀ ids, fst (Graph_getNodesByIds this ids s')
          = fst (Graph_getNodesByIds this ids s))
  ∧ (∀ fuel rootNodeId,
       fst (Graph_composeTreeWithRootNode fuel this rootNodeId s')
       = fst (Graph_composeTreeWithRootNode fuel this rootNodeId s)).
Proof.
  intros Hk. split.
  - intros ids. rewrite !Graph_getNodesByIds_reads. simpl.
    destruct Hk as (_ & _ & _ & _ & _ & -> & _). done.
  - intros fuel rootNodeId.
    by apply Graph_composeTreeWithRootNode_respects, keeps_indices_same.
Qed.

(** ** Tree composition, step by step *)

Lemma union_fold_NoDup {A} `{EqDecision A} (l acc : list A) :
  NoDup (acc ++ l) →
  fold_left (λ acc v, if bool_decide (v ∈ acc) then acc else acc ++ [v]) l acc
  = acc ++ l.
Proof.
  revert acc. induction l as [|v l IH]; intros acc Hnd; cbn [fold_left].
  - by rewrite app_nil_r.
  - assert (bool_decide (v ∈ acc) = false) as ->.
    { apply bool_decide_eq_false_2.
      apply NoDup_app in Hnd as (_ & Hnd & _). intros Hin.
      apply (Hnd v Hin). by left. }
    rewrite IH; rewrite <- app_assoc; done.
Qed.

Lemma union_snoc {A} `{EqDecision A} (P : list A) v :
  NoDup P → v ∉ P → union P [v] = P ++ [v].
Proof.
  intros HP Hv. unfold union. rewrite union_fold_NoDup; [done|]. simpl.
  apply NoDup_app. split; [done|]. split; [|apply NoDup_singleton].
  intros w Hw Hw'. apply list_elem_of_singleton in Hw'. by subst.
Qed.

Lemma Node_id_Some node s :
  Node_id (Some node) s = (Ok (id_of s node), s).
Proof. by destruct node. Qed.

Lemma someM_present node (P : list (option string)) s :
  someM (λ pid, nodeId <- Node_id (Some node) ;;
                ret (bool_decide (pid = nodeId))) P s
  = (Ok (bool_decide (id_of s node ∈ P)), s).
Proof.
  induction P as [|pid P IH].
  - unfold someM, ret.
    by rewrite bool_decide_eq_false_2 by apply not_elem_of_nil.
  - cbn [someM]. unfold bind at 1. unfold bind at 1.
    rewrite Node_id_Some. unfold ret at 1. cbv beta iota.
    destruct (decide (pid = id_of s node)) as [Heq|Hne].
    + rewrite (bool_decide_eq_true_2 _ Heq).
      rewrite bool_decide_eq_true_2; [done|]. rewrite <- Heq. by left.
    + rewrite (bool_decide_eq_false_2 _ Hne). rewrite IH. do 2 f_equal.
      apply bool_decide_ext. rewrite elem_of_cons.
      split; [by right|]. intros [?|?]; [congruence|done].
Qed.

Lemma composeTree_body_Some composeTree this node P out s :
  composeTree_body composeTree this (Some node) P out s
  = if bool_decide (id_of s node ∈ P) then
      (Throw (Error (cycle_message (id_of s node) P)), s)
    else
      (nodeEdges <-
         reduce_edges
           (Object_get (Graph.nodeEdgesObject (graph_objs s !!! this))
                       (String_of (id_of s node)))
           (collect_link composeTree this (union P [id_of s node]))
           ∅ ;;
       newNode <- lodash_clone node ;;
       setNode newNode (Node_set_edges nodeEdges) ;;;
       setNode newNode (Node_set_out out) ;;;
       ret newNode) s.
Proof.
  unfold composeTree_body. unfold bind at 1. rewrite someM_present.
  case_bool_decide.
  - unfold bind. by rewrite Node_id_Some.
  - unfold bind at 1. rewrite Node_id_Some. cbv beta iota.
    unfold bind at 1, getGraph at 1. cbv beta iota.
    unfold bind at 1. rewrite Node_id_Some. reflexivity.
Qed.

Lemma composeTree_body_None composeTree this P out s :
  composeTree_body composeTree this None P out s
  = (Throw (TypeError "id"), s).
Proof. by destruct P. Qed.

(** A call on a node that the index holds under its id. *)
Lemma composeTree_body_Own composeTree this r k P out s :
  Node.id (node_objs s !!! r) = k →
  composeTree_body composeTree this (Some (Own r)) (Some <$> P) out s
  = if bool_decide (k ∈ P) then
      (Throw (Error (cycle_message (Some k) (Some <$> P))), s)
    else
      (nodeEdges <-
         reduce_edges
           (Object_get (Graph.nodeEdgesObject (graph_objs s !!! this)) k)
           (collect_link composeTree this (union (Some <$> P) [Some k]))
           ∅ ;;
       newNode <- lodash_clone (Own r) ;;
       setNode newNode (Node_set_edges nodeEdges) ;;;
       setNode newNode (Node_set_out out) ;;;
       ret newNode) s.
Proof.
  intros Hid. rewrite composeTree_body_Some. cbn [id_of]. rewrite Hid.
  rewrite (bool_decide_ext (Some k ∈ Some <$> P) (k ∈ P)); [done|].
  rewrite list_elem_of_fmap. split.
  - by intros (k' & [= ->] & ?).
  - intros ?. by exists k.
Qed.

Lemma union_Some_snoc (P : list string) k :
  NoDup P → k ∉ P → union (Some <$> P) [Some k] = Some <$> (P ++ [k]).
Proof.
  intros Hnd Hk. rewrite union_snoc, fmap_app; [done| |].
  - apply (NoDup_fmap_2 _), Hnd.
  - rewrite list_elem_of_fmap. by intros (k' & [= ->] & ?).
Qed.

(** ** Paths *)

Section path.
Context (R : string → string → Prop).

Lemma path_snoc l a b : path R (l ++ [a]) → R a b → path R (l ++ [a; b]).
Proof.
  intros Hp Hab. induction l as [|c l IH]; simpl in *.
  - by repeat constructor.
  - destruct l as [|d l]; simpl in *.
    + inversion_clear Hp. by repeat constructor.
    + inversion_clear Hp. constructor; [done|by apply IH].
Qed.

Lemma path_suffix l1 l2 : path R (l1 ++ l2) → path R l2.
Proof.
  induction l1 as [|a l1 IH]; simpl; [done|]. intros Hp. apply IH.
  destruct (l1 ++ l2) as [|b l]; [constructor|]. by inversion Hp.
Qed.

Lemma path_prefix l n : path R l → path R (take n l).
Proof.
  intros Hp. revert n. induction Hp as [|a|a b l Hab Hp IH]; intros n.
  - rewrite take_nil. constructor.
  - destruct n as [|[|n]]; simpl; constructor.
  - destruct n as [|[|n]]; simpl; [constructor..|].
    constructor; [done|]. apply (IH (S n)).
Qed.

Lemma path_app_l l1 l2 : path R (l1 ++ l2) → path R l1.
Proof.
  intros Hp. rewrite <- (take_app_length l1 l2). by apply path_prefix.
Qed.

Lemma path_tc a l b : path R (a :: l ++ [b]) → tc R a b.
Proof.
  revert a. induction l as [|c l IH]; intros a Hp; simpl in *.
  - inversion_clear Hp. by apply tc_once.
  - inversion_clear Hp. eapply tc_l; [done|by apply IH].
Qed.

Lemma path_revisit chain nid :
  nid ∈ chain → path R (chain ++ [nid]) → tc R nid nid.
Proof.
  intros Hin Hp. apply list_elem_of_split in Hin as (l1 & l2 & ->).
  rewrite <- app_assoc in Hp. apply path_suffix in Hp.
  by apply (path_tc nid l2 nid).
Qed.
End path.

(** ** What tree composition can raise *)

Lemma NoDup_length_le_size {V} (P : list string) (m : gmap string V) :
  NoDup P → (∀ p, p ∈ P → is_Some (m !! p)) → length P ≤ size m.
Proof.
  intros Hnd Hin.
  rewrite <- (size_list_to_set (C := gset string) P) by done.
  rewrite <- (size_dom m). apply subseteq_size.
  intros p Hp. apply elem_of_list_to_set in Hp. apply elem_of_dom. auto.
Qed.

Lemma tree_inv_grows this G s s' :
  grows s s' → tree_inv this G s → tree_inv this G s'.
Proof.
  intros Hg [HG Hidx]. pose proof Hg as (_ & _ & Hgr & _). split.
  - by rewrite Hgr.
  - intros k r Hk. destruct (Hidx k r Hk) as [Hlt Hid]. split.
    + pose proof (grows_length _ _ Hg). lia.
    + by rewrite (grows_lookup_total s s').
Qed.

Section composeTree_post.
Context (this : gref) (G : Graph) (Hplain : plain_producers G).

Lemma reduce_collect_post fuel k P :
  (∀ k' P' out s,
     tree_inv this G s → NoDup P' →
     (∀ p, p ∈ P' → is_Some (Graph.nodesObject G !! p)) →
     path (consumes G) (P' ++ [k']) → plain_at G k' →
     composeTree_post G fuel P' k'
       (fst (Graph_composeTree fuel this (Object_get (Graph.nodesObject G) k')
                               (Some <$> P') out s))) →
  NoDup (P ++ [k]) →
  (∀ p, p ∈ P ++ [k] → is_Some (Graph.nodesObject G !! p)) →
  path (consumes G) (P ++ [k]) →
  ∀ l acc s,
    tree_inv this G s →
    (∀ e, e ∈ l → consumes G k (EdgeObject.outputNodeId e)) →
    composeTree_post G (S fuel) P k
      (fst (reduce (collect_link (Graph_composeTree fuel this) this
                                 (Some <$> (P ++ [k]))) l acc s)).
Proof.
  intros IH Hnd Hdom Hpath l. induction l as [|e l IHl];
    intros acc s Hinv Hl; [done|].
  cbn [reduce]. unfold bind at 1, collect_link at 1.
  unfold bind at 1, getGraph at 1. cbv beta iota.
  rewrite (proj1 Hinv). unfold bind at 1.
  assert (Hstep : consumes G k (EdgeObject.outputNodeId e))
    by (apply Hl; by left).
  specialize (IH (EdgeObject.outputNodeId e) (P ++ [k])
                (Some (EdgeObject.out e)) s Hinv Hnd Hdom).
  destruct (Graph_composeTree fuel this
              (Object_get (Graph.nodesObject G) (EdgeObject.outputNodeId e))
              (Some <$> (P ++ [k])) (Some (EdgeObject.out e)) s)
    as [[child|[reading|msg]|] s1] eqn:Hchild; cbv beta iota.
  - unfold bind at 1, getNode at 1, ret at 1. cbv beta iota.
    apply IHl.
    + eapply tree_inv_grows; [|done].
      eapply (preserves_run grows); [|done].
      apply Graph_composeTree_grows.
    + intros e' He'. apply Hl. by right.
  - simpl in *. destruct IH as (b & Hb & Hnone).
    { rewrite <- app_assoc. by apply path_snoc. }
    { by apply (Hplain k). }
    exists b. split; [|done]. right.
    destruct Hb as [->|Hb]; [by exists k|done].
  - simpl in *. destruct IH as (chain & nid & Hmsg & Hin & Hp & Hpre).
    { rewrite <- app_assoc. by apply path_snoc. }
    { by apply (Hplain k). }
    exists chain, nid. repeat split; [done..|].
    etrans; [|done]. by apply prefix_app_r.
  - simpl in *. rewrite length_app in IH. simpl in IH.
    assert (fuel + (length P + 1) ≤ size (Graph.nodesObject G)); [|lia].
    apply IH; [|by apply (Hplain k)].
    rewrite <- app_assoc. by apply path_snoc.
Qed.

Lemma Graph_composeTree_post fuel k P out s :
  tree_inv this G s → NoDup P →
  (∀ p, p ∈ P → is_Some (Graph.nodesObject G !! p)) →
  path (consumes G) (P ++ [k]) → plain_at G k →
  composeTree_post G fuel P k
    (fst (Graph_composeTree fuel this (Object_get (Graph.nodesObject G) k)
                            (Some <$> P) out s)).
Proof.
  revert k P out s. induction fuel as [|fuel IH];
    intros k P out s Hinv Hnd Hdom Hpath Hk0.
  - simpl. by apply NoDup_length_le_size.
  - cbn [Graph_composeTree].
    destruct (Graph.nodesObject G !! k) as [r|] eqn:Hk; last first.
    { assert (Object_get (Graph.nodesObject G) k = None) as ->.
      { apply Object_get_None. split; [done|]. intros Hin.
        destruct (Hk0 Hin) as [? ?]. congruence. }
      rewrite composeTree_body_None. exists k. split; [by left|by left]. }
    rewrite (Object_get_own _ _ _ Hk).
    destruct (proj2 Hinv k r Hk) as [Hlt Hid].
    rewrite (composeTree_body_Own _ _ _ k) by done.
    case_bool_decide as HkP.
    + simpl. exists P, k. by repeat split.
    + rewrite (proj1 Hinv). rewrite union_Some_snoc by done.
      assert (Hnd' : NoDup (P ++ [k])).
      { apply NoDup_app. split; [done|]. split; [|apply NoDup_singleton].
        intros w Hw Hw'. apply list_elem_of_singleton in Hw'. by subst. }
      assert (Hdom' : ∀ p, p ∈ P ++ [k] →
                           is_Some (Graph.nodesObject G !! p)).
      { intros p Hp. apply elem_of_app in Hp as [Hp|Hp]; [by apply Hdom|].
        apply list_elem_of_singleton in Hp. subst. by rewrite Hk. }
      unfold bind at 1.
      destruct (Object_get (Graph.nodeEdgesObject G) k) as [[l|name]|] eqn:Hl;
        cbn [reduce_edges].
      * apply Object_get_Own in Hl.
        pose proof (reduce_collect_post fuel k P IH Hnd' Hdom' Hpath
                      l ∅ s Hinv) as Hred.
        destruct (reduce _ _ _ s) as [[nodeEdges|e|] s1] eqn:Hr.
        -- by rewrite clone_and_assign.
        -- apply Hred. intros e' He'. exists e'. by rewrite Hl.
        -- apply Hred. intros e' He'. exists e'. by rewrite Hl.
      * apply Object_get_Inherited in Hl as (Hnone & Hin & _).
        simpl. exists k. split; [by left|by right].
      * cbn [reduce]. unfold ret at 1. cbv beta iota.
        by rewrite clone_and_assign.
Qed.
End composeTree_post.

(** The constructor establishes the consistency of the node index. *)
Lemma index_ok_built s rawGraph prefix :
  index_ok (snd (Graph_new rawGraph prefix s)) (built_graph s rawGraph prefix).
Proof.
  intros k r Hk. rewrite (proj1 (Graph_new_store rawGraph prefix s)).
  simpl in *.
  apply nodes_index_Some in Hk as [Hr Hid]. split; [|done].
  apply elem_of_seq in Hr. unfold built_nodes.
  rewrite length_app, length_map. lia.
Qed.

(** A ranking of the node ids that decreases along every edge of the index
    rules out cycles. *)
Lemma acyclic_ranked (g : Graph) (rank : string → nat) :
  map_Forall (λ a edges,
                Forall (λ e, rank (EdgeObject.outputNodeId e) < rank a) edges)
             (Graph.nodeEdgesObject g) →
  acyclic g.
Proof.
  intros Hrank.
  assert (Hstep : ∀ a b, consumes g a b → rank b < rank a).
  { intros a b (e & He & <-).
    destruct (Graph.nodeEdgesObject g !! a) as [edges|] eqn:Ha; simpl in He.
    - specialize (Hrank a edges Ha). simpl in Hrank.
      by apply (proj1 (Forall_forall _ _) Hrank).
    - by apply not_elem_of_nil in He. }
  assert (Htc : ∀ a b, tc (consumes g) a b → rank b < rank a).
  { intros a b Hab. induction Hab as [a b Hab|a b c Hab _ IH].
    - by apply Hstep.
    - apply Hstep in Hab. lia. }
  intros a Ha. apply Htc in Ha. lia.
Qed.

Lemma Graph_composeTreeWithRootNode_post fuel this rootNodeId s :
  index_ok s (graph_objs s !!! this) →
  plain_producers (graph_objs s !!! this) →
  plain_at (graph_objs s !!! this) rootNodeId →
  composeTree_post (graph_objs s !!! this) fuel [] rootNodeId
    (fst (Graph_composeTreeWithRootNode fuel this rootNodeId s)).
Proof.
  intros Hidx Hplain Hroot.
  unfold Graph_composeTreeWithRootNode, bind, getGraph.
  apply (Graph_composeTree_post this _ Hplain fuel rootNodeId []).
  - done.
  - constructor.
  - intros p Hp. by apply not_elem_of_nil in Hp.
  - constructor.
  - done.
Qed.

(** ** One inlining pass on a graph that is a single call node *)

Lemma is_system_node_reads n :
  reads (is_system_node n)
        (λ s, bool_decide (substr (Node.c (node_objs s !!! n)) 0 3 = "UF_")).
Proof. done. Qed.

Lemma lookup_total_cons_snoc {A} `{Inhabited A} (v : A) l w :
  (v :: l ++ [w]) !!! S (length l) = w.
Proof. apply (lookup_total_snoc l w). Qed.

Lemma insert_cons_snoc {A} (v : A) l w w' :
  <[S (length l) := w']> (v :: l ++ [w]) = v :: l ++ [w'].
Proof.
  simpl. f_equal. rewrite insert_app_r_alt by lia.
  by rewrite Nat.sub_diag.
Qed.

Lemma evaluate_one_call s r :
  one_call s → Graph.nodes (graph_objs s !!! 0) = [r] →
  ∃ s', VAX_evaluateUserFunctionNode r 0 s = (Ok tt, s')
        ∧ one_call s'
        ∧ VAX.schema (this_vax s') = VAX.schema (this_vax s).
Proof.
  intros (Hgraph & r' & cs & no & neo & gs & Hgs & Hr & Hc) Hnodes.
  destruct s as [ns es gs0 vx]. simpl in *. subst gs0. simpl in Hnodes.
  injection Hnodes as ->.
  unfold VAX_evaluateUserFunctionNode.
  rewrite (bind_reads _ _ (λ s, this_vax s)) by done.
  rewrite (bind_reads _ _ _ _ (getNode_reads r)).
  rewrite (bind_run _ _ _ (VAX.counter vx)
             (mkStore ns es
                (Graph.mk [r] [] cs no neo :: gs)
                (VAX_set_counter (Number_succ (VAX.counter vx)) vx))) by reflexivity.
  generalize ("uf_" +:+ pretty (VAX.counter vx) +:+ "_"). intros prefix.
  erewrite bind_run;
    [|rewrite Graph_clone_spec; apply Graph_new_spec; apply Forall_nil_2].
  unfold built_nodes, built_edges, built_graph, raw_of.
  cbn [node_objs edge_objs graph_objs this_vax lookup_total
       list_lookup_total Graph.nodes Graph.edges Graph.comments
       RawGraph.nodes RawGraph.edges RawGraph.comments map length
       seq app].
  erewrite bind_run; [|reflexivity].
  erewrite bind_run; [|reflexivity].
  erewrite bind_run; [|reflexivity].
  erewrite bind_run; [|reflexivity].
  rewrite (bind_reads _ _ _ _ (getGraph_reads _)).
  cbn [graph_objs]. rewrite lookup_total_cons_snoc. cbn [Graph.nodes].
  generalize (map Comment_new (map Comment_rawComment cs)). intros cs'.
  match goal with
  | |- context [nodes_index ?objs ?l] =>
      generalize (nodes_index objs l); intros no'
  end.
  match goal with
  | |- context [edges_index ?objs ?l] =>
      generalize (edges_index objs l); intros neo'
  end.
  rewrite app_nil_r.
  set (copy := Node_constructor (rawNode_of (ns !!! r)) (Some prefix)).
  assert (Hcopy : Node.c copy = "F") by done.
  assert (Hsys : ∀ gs',
            is_system_node (length ns)
              (mkStore (ns ++ [copy]) es gs'
                       (VAX_set_counter (Number_succ (VAX.counter vx)) vx))
            = (Ok false,
               mkStore (ns ++ [copy]) es gs'
                       (VAX_set_counter (Number_succ (VAX.counter vx)) vx))).
  { intros gs'. rewrite is_system_node_reads. cbn [node_objs].
    rewrite lookup_total_snoc, Hcopy. done. }
  erewrite bind_run;
    [|unfold filterM; cbn [filterMi]; erewrite bind_run by apply Hsys;
      reflexivity].
  erewrite bind_run; [|reflexivity].
  erewrite bind_run;
    [|apply (Graph_deleteNodes_spec _ _
               (λ n _ s, bool_decide
                           (substr (Node.c (node_objs s !!! n)) 0 3 = "UF_")));
      intros n i; apply is_system_node_reads].
  cbn [node_objs edge_objs graph_objs this_vax].
  rewrite lookup_total_cons_snoc, insert_cons_snoc.
  cbn [Graph.nodes filter_indexed]. rewrite lookup_total_snoc, Hcopy.
  change (negb (bool_decide (substr "F" 0 3 = "UF_"))) with true.
  cbv iota.
  erewrite bind_run;
    [|apply (Graph_deleteEdges_spec _ _
               (λ e _ s, is_toDelete (edge_objs s !!! e)
                         || includes [] (Edge.outputNodeId (edge_objs s !!! e))
                         || includes [] (Edge.inputNodeId (edge_objs s !!! e))));
      by intros e i s0].
  cbn [node_objs edge_objs graph_objs this_vax].
  rewrite lookup_total_cons_snoc, insert_cons_snoc.
  cbn [Graph.edges Graph_set_nodes Graph_set_edges Graph.nodes Graph.comments
       Graph.nodesObject Graph.nodeEdgesObject filter_indexed].
  erewrite bind_run;
    [|apply (Graph_deleteEdges_spec _ _
               (λ e _ s, is_toDelete (edge_objs s !!! e)));
      by intros e i s0].
  cbn [node_objs edge_objs graph_objs this_vax lookup_total list_lookup_total
       insert list_insert
       Graph.edges Graph_set_nodes Graph_set_edges Graph.nodes Graph.comments
       Graph.nodesObject Graph.nodeEdgesObject filter_indexed].
  erewrite bind_run;
    [|apply (Graph_deleteNodes_spec _ _
               (λ n' _ s, bool_decide (Node.id (node_objs s !!! n')
                                       = Node.id (node_objs s !!! r))));
      by intros n i s0].
  cbn [node_objs edge_objs graph_objs this_vax lookup_total list_lookup_total
       insert list_insert
       Graph.edges Graph_set_nodes Graph_set_edges Graph.nodes Graph.comments
       Graph.nodesObject Graph.nodeEdgesObject filter_indexed].
  rewrite bool_decide_eq_true_2 by done. cbn [negb].
  rewrite (bind_reads _ _ _ _ (getGraph_reads _)).
  cbn [graph_objs]. rewrite lookup_total_cons_snoc.
  erewrite bind_run; [|apply Graph_addNodes_spec].
  rewrite (bind_reads _ _ _ _ (getGraph_reads _)).
  cbn [graph_objs insert list_insert]. rewrite lookup_total_cons_snoc.
  rewrite Graph_addEdges_spec.
  eexists. split; [reflexivity|]. split; [|done].
  split; [done|]. cbn [node_objs graph_objs].
  eexists (length ns), cs, no, neo, _. split; [reflexivity|].
  split; [rewrite length_app; simpl; lia|].
  by rewrite lookup_total_snoc.
Qed.

Lemma is_userFunction_node_reads userFunctionsIds n :
  reads (is_userFunction_node userFunctionsIds n)
        (λ s, includes userFunctionsIds (Node.c (node_objs s !!! n))).
Proof. done. Qed.

(** On such a graph every pass leaves such a graph: the method never
    returns. *)
Lemma inline_one_call_diverges fuel graphArg rawUserFunctionsIds s :
  one_call s →
  graphArg = None ∨ graphArg = Some 0 →
  "F" ∈ default [] rawUserFunctionsIds
        ++ match rawUserFunctionsIds with
           | Some _ => []
           | None => schema_userFunctions (VAX.schema (this_vax s))
           end →
  fst (VAX_inlineUserFunctionsInGraph fuel graphArg rawUserFunctionsIds s)
  = OutOfFuel.
Proof.
  revert graphArg rawUserFunctionsIds s.
  induction fuel as [|fuel IH]; intros graphArg rawIds s Hone Harg HF;
    [done|].
  cbn [VAX_inlineUserFunctionsInGraph]. unfold inlineUserFunctionsInGraph_body.
  rewrite (bind_reads _ _ (λ s, this_vax s)) by done.
  pose proof Hone as (Hgraph & r & cs & no & neo & gs & Hgs & Hr & Hc).
  assert (match graphArg with
          | Some g => Some g
          | None => VAX.graph (this_vax s)
          end = Some 0) as ->.
  { destruct Harg as [-> | ->]; done. }
  set (ids := default [] rawIds ++ _) in *.
  assert (Hnodes : Graph.nodes (graph_objs s !!! 0) = [r]) by by rewrite Hgs.
  erewrite bind_run;
    [|unfold Graph_nodes_of; rewrite (bind_reads _ _ _ _ (getGraph_reads _));
      unfold ret; by rewrite Hnodes].
  assert (Hfilter : ∀ s0 r0, Node.c (node_objs s0 !!! r0) = "F" →
            filterM (is_userFunction_node ids) [r0] s0 = (Ok [r0], s0)).
  { intros s0 r0 Hc0. unfold filterM. cbn [filterMi].
    rewrite (bind_reads _ _ _ _ (is_userFunction_node_reads _ _)).
    rewrite Hc0. unfold includes. rewrite bool_decide_eq_true_2 by done.
    done. }
  erewrite bind_run by by apply Hfilter.
  rewrite bool_decide_eq_false_2 by (simpl; lia).
  destruct (evaluate_one_call s r Hone Hnodes) as (s' & Hev & Hone' & Hschema).
  erewrite bind_run; [|cbn [forEach]; erewrite bind_run by apply Hev; done].
  pose proof Hone' as (_ & r' & cs' & no' & neo' & gs' & Hgs' & Hr' & Hc').
  erewrite bind_run;
    [|unfold Graph_nodes_of; rewrite (bind_reads _ _ _ _ (getGraph_reads _));
      unfold ret; by rewrite Hgs'].
  erewrite bind_run by by apply Hfilter.
  rewrite bool_decide_eq_false_2 by done.
  apply IH; [done|by right|]. simpl. by rewrite app_nil_r.
Qed.

(** ** A returned tree rules out reachable cycles *)

Section composes_ok.
Context (this : gref) (G : Graph) (Hplain : plain_producers G).

Lemma reduce_collect_Ok composeTree P' l acc s res s' :
  (∀ n p o, preserves grows (composeTree n p o)) →
  tree_inv this G s →
  reduce (collect_link composeTree this P') l acc s = (Ok res, s') →
  ∀ e, e ∈ l →
    ∃ s0 r0 s0',
      tree_inv this G s0
      ∧ composeTree (Object_get (Graph.nodesObject G)
                                (EdgeObject.outputNodeId e)) P'
                    (Some (EdgeObject.out e)) s0 = (Ok r0, s0').
Proof.
  intros Hrec. revert acc s. induction l as [|e0 l IH];
    intros acc s Hinv Hred e He; [by apply not_elem_of_nil in He|].
  cbn [reduce] in Hred. apply bind_Ok in Hred as (acc' & s1 & Hstep & Hred).
  unfold collect_link in Hstep.
  apply bind_Ok in Hstep as (g' & s0 & Hg & Hstep).
  injection Hg as <- <-. rewrite (proj1 Hinv) in Hstep.
  apply bind_Ok in Hstep as (child & s2 & Hchild & Hstep).
  apply bind_Ok in Hstep as (composed & s3 & Hget & Hret).
  injection Hget as _ <-. injection Hret as _ <-.
  apply elem_of_cons in He as [->|He].
  - by exists s, child, s2.
  - apply (IH acc' s2); [|done..].
    eapply tree_inv_grows; [|done].
    by eapply (preserves_run grows); [apply Hrec|].
Qed.

Lemma composes_ok_step fuel k P :
  composes_ok this G (S fuel) k P →
  (k ∉ P) ∧ ∀ b, consumes G k b → composes_ok this G fuel b (P ++ [k]).
Proof.
  intros (Hnd & Hk0 & out & s & r & s' & Hinv & Hrun).
  cbn [Graph_composeTree] in Hrun.
  destruct (Graph.nodesObject G !! k) as [r0|] eqn:Hk; last first.
  { assert (Object_get (Graph.nodesObject G) k = None) as Hnone.
    { apply Object_get_None. split; [done|]. intros Hin.
      destruct (Hk0 Hin) as [? ?]. congruence. }
    by rewrite Hnone, composeTree_body_None in Hrun. }
  rewrite (Object_get_own _ _ _ Hk) in Hrun.
  destruct (proj2 Hinv k r0 Hk) as [Hlt Hid].
  rewrite (composeTree_body_Own _ _ _ k) in Hrun by done.
  case_bool_decide as HkP; [discriminate|]. split; [done|].
  rewrite (proj1 Hinv), union_Some_snoc in Hrun by done.
  apply bind_Ok in Hrun as (nodeEdges & s1 & Hred & _).
  intros b (e & He & <-). split.
  { apply NoDup_app. split; [done|]. split; [|apply NoDup_singleton].
    intros w Hw Hw'. apply list_elem_of_singleton in Hw'. by subst. }
  split.
  { apply (Hplain k). by exists e. }
  destruct (Graph.nodeEdgesObject G !! k) as [l|] eqn:Hl;
    [|by apply not_elem_of_nil in He].
  rewrite (Object_get_own _ _ _ Hl) in Hred. cbn [reduce_edges] in Hred.
  destruct (reduce_collect_Ok _ _ _ _ _ _ _
              (Graph_composeTree_grows fuel this) Hinv Hred e He)
    as (s0 & r1 & s0' & Hinv0 & Hchild).
  by exists (Some (EdgeObject.out e)), s0, r1, s0'.
Qed.

Lemma composes_ok_fresh fuel k P : composes_ok this G fuel k P → k ∉ P.
Proof.
  destruct fuel as [|fuel].
  - intros (_ & _ & out & s & r & s' & _ & Hrun). discriminate.
  - intros Hok. by apply composes_ok_step in Hok as [? _].
Qed.

Lemma composes_ok_no_revisit fuel k P b :
  composes_ok this G fuel k P → tc (consumes G) k b → b ∉ P ++ [k].
Proof.
  revert k P. induction fuel as [|fuel IH]; intros k P Hok Hb.
  - destruct Hok as (_ & _ & out & s & r & s' & _ & Hrun). discriminate.
  - destruct (composes_ok_step _ _ _ Hok) as [_ Hchildren].
    inversion Hb as [? ? Hkb|? c ? Hkc Hcb]; subst.
    + by apply (composes_ok_fresh fuel), Hchildren.
    + specialize (IH c (P ++ [k]) (Hchildren c Hkc) Hcb).
      intros Hin. apply IH. apply elem_of_app. by left.
Qed.

Lemma composes_ok_reach fuel k P b :
  composes_ok this G fuel k P → rtc (consumes G) k b →
  ∃ fuel' P', composes_ok this G fuel' b P'.
Proof.
  intros Hok Hrtc. revert fuel P Hok.
  induction Hrtc as [k|k c b Hkc Hcb IH]; intros fuel P Hok; [by eauto|].
  destruct fuel as [|fuel].
  - destruct Hok as (_ & _ & out & s & r & s' & _ & Hrun). discriminate.
  - apply composes_ok_step in Hok as [_ Hchildren].
    by apply (IH fuel (P ++ [k])), Hchildren.
Qed.

Lemma composes_ok_acyclic fuel k P b :
  composes_ok this G fuel k P → rtc (consumes G) k b →
  ¬ tc (consumes G) b b.
Proof.
  intros Hok Hrtc Hcycle.
  destruct (composes_ok_reach _ _ _ _ Hok Hrtc) as (fuel' & P' & Hok').
  apply (composes_ok_no_revisit _ _ _ _ Hok' Hcycle).
  apply elem_of_app. right. by left.
Qed.
End composes_ok.

Lemma Graph_composeTreeWithRootNode_Ok fuel this rootNodeId s r :
  index_ok s (graph_objs s !!! this) →
  plain_at (graph_objs s !!! this) rootNodeId →
  fst (Graph_composeTreeWithRootNode fuel this rootNodeId s) = Ok r →
  composes_ok this (graph_objs s !!! this) fuel rootNodeId [].
Proof.
  intros Hidx Hroot Hrun. split; [constructor|]. split; [done|].
  exists None, s, r, (snd (Graph_composeTreeWithRootNode fuel this rootNodeId s)).
  split; [done|]. rewrite <- Hrun. apply surjective_pairing.
Qed.

(** Checks, by enumeration of the edge index, that no lookup of the root
    or of a producer gives an inherited member, and that the node index
    has the root and the producer of every edge, none of which is taken
    to have an inherited member for its edges. *)
Lemma producers_plain (g : Graph) (rootNodeId : string) :
  plain_at g rootNodeId →
  map_Forall (λ _ edges,
                Forall (λ e, EdgeObject.outputNodeId e ∈ Object_prototype →
                             is_Some (Graph.nodesObject g
                                        !! EdgeObject.outputNodeId e)) edges)
             (Graph.nodeEdgesObject g) →
  ∀ b, b = rootNodeId ∨ (∃ a, consumes g a b) → plain_at g b.
Proof.
  intros Hroot Hall b [->|(a & e & He & <-)]; [done|].
  destruct (Graph.nodeEdgesObject g !! a) as [edges|] eqn:Ha; simpl in He.
  - specialize (Hall a edges Ha). simpl in Hall.
    exact (proj1 (Forall_forall _ _) Hall e He).
  - by apply not_elem_of_nil in He.
Qed.

Lemma producers_indexed (g : Graph) (rootNodeId : string) :
  is_Some (Graph.nodesObject g !! rootNodeId) ∧ ¬ no_entries g rootNodeId →
  map_Forall (λ _ edges,
                Forall (λ e, is_Some (Graph.nodesObject g
                                        !! EdgeObject.outputNodeId e)
                             ∧ ¬ no_entries g (EdgeObject.outputNodeId e))
                       edges)
             (Graph.nodeEdgesObject g) →
  ∀ b, b = rootNodeId ∨ (∃ a, consumes g a b) →
       is_Some (Graph.nodesObject g !! b) ∧ ¬ no_entries g b.
Proof.
  intros Hroot Hall b [->|(a & e & He & <-)]; [done|].
  destruct (Graph.nodeEdgesObject g !! a) as [edges|] eqn:Ha; simpl in He.
  - specialize (Hall a edges Ha). simpl in Hall.
    by apply (proj1 (Forall_forall _ _) Hall).
  - by apply not_elem_of_nil in He.
Qed.

(** * The properties *)

(** ** C1: the graph that evaluateUserFunctionNode clones *)

(** C1 (defect): what [evaluateUserFunctionNode] clones and splices in is
    the host graph itself.  Whatever the storage holds for [F] (nothing,
    or a stored function), the host graph after the call consists of [k]
    and of the copies [uf_0_f], [uf_0_k] of the host's own nodes, the copy
    of the call node included, and the host's edge appears twice. *)
Theorem C1_evaluateUserFunctionNode_clones_the_host_graph :
  let result :=
    Ok {| RawGraph.nodes := [example_node "k" "Const";
                             example_node "uf_0_f" "F";
                             example_node "uf_0_k" "Const"];
          RawGraph.edges := [("f", "In1", "k", "out");
                             ("f", "uf_0_In1", "k", "uf_0_out")];
          RawGraph.comments := [] |} in
  host_after_evaluate ∅ = result
  ∧ host_after_evaluate
      {[ "F" := UserFunctionClosure (AObject {[ "body" := AString "g" ]}) ]}
    = result.
Proof. split; vm_compute; reflexivity. Qed.

(** ** C2: the inlining fixpoint *)

(** C2 (defect): on the host graph that is one call node of type [F],
    whatever the storage holds for [F], [inlineUserFunctionsInGraph] does
    not return: for every bound on the number of passes the bound is
    reached.  One pass replaces the call node by a prefixed copy of
    itself, which is again of type [F].  And called with a graph (object
    1) that has no node of a user-function type, the method returns the
    instance's own graph (object 0), not the graph it was given. *)
Theorem C2_inlining_never_reaches_a_fixpoint
    (fuel : nat) (storage : gmap string UserFunction) :
  fst ((setThis (VAX_set_userFunctionStorage storage) ;;;
        VAX_inlineUserFunctionsInGraph fuel None None)
         (store_with call_only_graph))
  = OutOfFuel
  ∧ fst ((VAX_evaluateUserFunctionNode 0 0 ;;;
          rawGraph <- Graph_rawGraph 0 ;;
          ret (map (λ n, (Node.id n, Node.c n)) (RawGraph.nodes rawGraph)))
           (store_with call_only_graph))
    = Ok [("uf_0_f", "F")]
  ∧ fst (VAX_inlineUserFunctionsInGraph (S fuel) (Some 1) None
           store_with_other_graph)
    = Ok (Some 0).
Proof.
  split; [|split; vm_compute; reflexivity].
  unfold bind at 1, setThis at 1.
  apply inline_one_call_diverges.
  - split; [reflexivity|].
    exists 0. eexists _, _, _, _. split; [reflexivity|].
    split; [simpl; lia|reflexivity].
  - by left.
  - simpl. by left.
Qed.

(** ** C3: cloning with a prefix *)

(** C3 (defect): on the graph with nodes [a], [b] and the edge
    [(a, x, b, out)], the clone with prefix [p_] has the nodes [p_a] and
    [p_b] and the edge [(a, p_x, b, p_out)]: the slot names carry the
    prefix, but the edge still names the nodes [a] and [b], and neither is
    a node of the clone (the clone's index has no entry for them). *)
Theorem C3_clone_leaves_edge_node_ids_unprefixed :
  fst ((g <- Graph_clone 0 (Some "p_") ;; Graph_rawGraph g)
         (store_with two_node_graph))
  = Ok {| RawGraph.nodes := [example_node "p_a" "Const";
                             example_node "p_b" "Const"];
          RawGraph.edges := [("a", "p_x", "b", "p_out")];
          RawGraph.comments := [] |}
  ∧ fst ((g <- Graph_clone 0 (Some "p_") ;; Graph_getNodesByIds g ["a"; "b"])
           (store_with two_node_graph))
    = Ok [None; None].
Proof. split; vm_compute; reflexivity. Qed.

(** ** C4: cycle detection *)




(** ** C5: the shape of a composed tree *)

(** C5: on the graph with nodes root, p1, p2 (of whatever contents) and
    the edges [(root, x, p1, out)] and [(root, y, p2, out)], composing
    from [root] returns (whenever the depth bound is at least 2) a new
    object that has the fields of [root], with [undefined] for [out], and
    whose [edges] map has exactly the keys [x] and [y].  The entry under
    [x] has the fields of [p1], an empty [edges] and the producer slot
    name ["out"] for [out]: it is what composing from [p1] returns, with
    [out] set; likewise for [y] and [p2].  The stored [root] object is as
    it was. *)
Theorem C5_composeTree_root_p1_p2 (fuel : nat) (root p1 p2 : INode) :
  let child (p : INode) (id : string) (out : option string) : Node :=
    {| Node.id := id; Node.a := Node.a p;
       Node.t := Some (default AUndefined (Node.t p)); Node.edges := ∅;
       Node.x := Some (default None (Node.x p));
       Node.y := Some (default None (Node.y p));
       Node.out := Some out; Node.c := Node.c p |} in
  ∃ tree x y,
    fst (composed_with root p1 p2 (S (S fuel)) "root") = Ok tree
    ∧ Node.edges tree = {[ "x" := x; "y" := y ]}
    ∧ dom (Node.edges tree) = ({[ "x"; "y" ]} : gset string)
    ∧ (Node.id tree = "root" ∧ Node.a tree = Node.a root
       ∧ Node.c tree = Node.c root
       ∧ Node.t tree = Some (default AUndefined (Node.t root))
       ∧ Node.x tree = Some (default None (Node.x root))
       ∧ Node.y tree = Some (default None (Node.y root))
       ∧ Node.out tree = Some None)
    ∧ (x = child p1 "p1" (Some "out") ∧ Node.out x = Some (Some "out")
       ∧ fst (composed_with root p1 p2 (S fuel) "p1") = Ok (child p1 "p1" None))
    ∧ (y = child p2 "p2" (Some "out") ∧ Node.out y = Some (Some "out")
       ∧ fst (composed_with root p1 p2 (S fuel) "p2") = Ok (child p2 "p2" None))
    ∧ fst (Graph_composeTreeWithRootNode (S (S fuel)) 0 "root"
             (store_with (root_p1_p2_with root p1 p2))) = Ok 5
    ∧ node_objs (store_with (root_p1_p2_with root p1 p2)) !! 0
      = Some (Node_constructor (Node_set_id "root" root) None)
    ∧ node_objs (snd (composed_with root p1 p2 (S (S fuel)) "root")) !! 0
      = Some (Node_constructor (Node_set_id "root" root) None).
Proof.
  intros child. destruct root, p1, p2.
  eexists _, _, _. split; [vm_compute; reflexivity|].
  repeat split; vm_compute; reflexivity.
Qed.

(** ** C6: the raw form of a loaded graph *)




(** ** C7: loadGraph *)

(** C7 (defect): [loadGraph] never assigns [this.graph].  In every store
    the instance is the same after the call as before; on an instance
    whose current graph is the empty graph (object 0), loading the
    two-node graph returns a new graph (object 1) while [this.graph] is
    still object 0; and the constructor, which calls [loadGraph] before
    anything has assigned [graph], raises a TypeError.  (Loading a raw
    graph equal to the current one does return the current graph and
    changes nothing.) *)
Theorem C7_loadGraph_does_not_replace_current_graph :
  (∀ G s, this_vax (snd (VAX_loadGraph G s)) = this_vax s)
  ∧ (fst (VAX_loadGraph two_node_graph (store_with emptyRawGraph)) = Ok 1
     ∧ VAX.graph (this_vax (snd (VAX_loadGraph two_node_graph
                                   (store_with emptyRawGraph)))) = Some 0
     ∧ VAX_loadGraph emptyRawGraph (store_with emptyRawGraph)
       = (Ok 0, store_with emptyRawGraph))
  ∧ (∀ schema s, fst (VAX_new schema s) = Throw (TypeError "equalsRaw")).
Proof.
  split; [|split; [repeat split; vm_compute; reflexivity|done]].
  intros G s. unfold VAX_loadGraph, VAX_graph, bind, getThis.
  destruct (VAX.graph (this_vax s)) as [current|] eqn:Hcur; [|done].
  unfold ret at 1. rewrite Graph_equalsRaw_reads.
  destruct (isEqual _ _).
  - by rewrite Hcur.
  - apply Graph_new_store.
Qed.

(** ** C8: getNodesByIds *)

(** C8 (as stated, refuted): on the two-node graph, asking for the ids
    [a], [zz], [b] returns normally, and the returned list has an
    [undefined] entry in the place of [zz]; no failure is signalled. *)
Lemma C8_counterexample :
  fst (Graph_getNodesByIds 0 ["a"; "zz"; "b"] (store_with two_node_graph))
  = Ok [Some (Own 0); None; Some (Own 1)]
  ∧ ¬ ∃ e, fst (Graph_getNodesByIds 0 ["a"; "zz"; "b"]
                  (store_with two_node_graph)) = Throw e.
Proof.
  split; [vm_compute; reflexivity|].
  intros [e He]. vm_compute in He. discriminate.
Qed.

(** C8 (amended): [getNodesByIds] always returns normally and leaves the
    store as it is; the result has one entry per requested id, in the
    order of the ids, and the entry is what a lookup of that id in the
    node index gives.  On a graph that the constructor has built, the
    entry for an id is a node of the graph with that id; or, when no node
    of the raw graph has that id, it is the member of that name that
    every object inherits, if the id names one ([constructor],
    [toString], ...), and [undefined] otherwise.  On the two-node graph,
    asking for [a], [constructor], [zz] gives the node [a], the inherited
    [constructor] and [undefined]. *)
Theorem C8_getNodesByIds_returns_index_entries :
  (∀ this ids s,
     Graph_getNodesByIds this ids s
     = (Ok (map (λ nodeId,
                   Object_get (Graph.nodesObject (graph_objs s !!! this))
                              nodeId)
                ids), s))
  ∧ (∀ raw prefix s g s' ids,
       Graph_new raw prefix s = (Ok g, s') →
       ∃ l, Graph_getNodesByIds g ids s' = (Ok l, s')
            ∧ length l = length ids
            ∧ Forall2 (λ nodeId entry,
                         let node_ids :=
                           map (λ n, Node.id (Node_constructor n prefix))
                               (RawGraph.nodes raw) in
                         match entry with
                         | Some (Own r) =>
                             r ∈ Graph.nodes (graph_objs s' !!! g)
                             ∧ Node.id (node_objs s' !!! r) = nodeId
                         | Some (Inherited name) =>
                             name = nodeId ∧ nodeId ∈ Object_prototype
                             ∧ (nodeId ∉ node_ids)
                         | None =>
                             (nodeId ∉ node_ids)
                             ∧ (nodeId ∉ Object_prototype)
                         end) ids l)
  ∧ fst (Graph_getNodesByIds 0 ["a"; "constructor"; "zz"]
           (store_with two_node_graph))
    = Ok [Some (Own 0); Some (Inherited "constructor"); None].
Proof.
  split; [done|]. split; [|vm_compute; reflexivity].
  intros raw prefix s g s' ids Hnew. eexists. split; [done|].
  split; [by rewrite length_map|].
  assert (indexable_raw raw) as Hd.
  { destruct (decide (indexable_raw raw)) as [Hd|Hd]; [done|].
    by rewrite (Graph_new_raises _ _ _ Hd) in Hnew. }
  rewrite (Graph_new_spec _ _ _ Hd) in Hnew. injection Hnew as <- <-.
  cbn [graph_objs node_objs].
  apply Forall2_fmap_r, Forall_Forall2_diag, Forall_forall.
  intros nodeId _. rewrite !lookup_total_snoc. cbn [built_graph
    Graph.nodesObject Graph.nodes].
  assert (Hnone : nodes_index (built_nodes s raw prefix)
                    (seq (length (node_objs s)) (length (RawGraph.nodes raw)))
                    !! nodeId = None →
                  nodeId ∉ map (λ n, Node.id (Node_constructor n prefix))
                               (RawGraph.nodes raw)).
  { intros Hk. apply nodes_index_None in Hk. unfold built_nodes in Hk.
    rewrite <- (length_map (λ raw, Node_constructor raw prefix)
                  (RawGraph.nodes raw)) in Hk.
    rewrite (lookup_total_app_seq Node.id) in Hk. by rewrite map_map in Hk. }
  unfold compose. cbv beta.
  destruct (Object_get _ nodeId) as [[r|name]|] eqn:Hk.
  - apply Object_get_Own in Hk. by apply nodes_index_Some in Hk.
  - apply Object_get_Inherited in Hk as (Hk & Hin & ->). auto.
  - apply Object_get_None in Hk as [Hk Hin]. auto.
Qed.

(** C8 at the two-node graph. *)
Lemma C8_witness :
  Graph_new two_node_graph None empty_store
  = (Ok 0, snd (Graph_new two_node_graph None empty_store))
  ∧ ∃ l, Graph_getNodesByIds 0 ["a"; "toString"]
           (snd (Graph_new two_node_graph None empty_store))
         = (Ok l, snd (Graph_new two_node_graph None empty_store))
         ∧ length l = 2.
Proof.
  split; [reflexivity|].
  destruct (proj1 (proj2 C8_getNodesByIds_returns_index_entries)
              two_node_graph None empty_store 0
              (snd (Graph_new two_node_graph None empty_store))
              ["a"; "toString"] eq_refl) as (l & Hl & Hlen & _).
  by exists l.
Defined.

(** ** C9: the mutators and the indices *)

(** C9: [addNodes], [addEdges], [deleteNodes] and [deleteEdges] (the last
    two with a callback that only reads the store) return normally and
    replace only the [nodes], respectively the [edges], array of the graph
    they are called on.  The two indices and the comments of the graph,
    all [Node] and [Edge] objects, the other graphs and the instance are
    as before, so [getNodesByIds] and [composeTreeWithRootNode] give after
    the mutation what they give before it.  On the two-node graph: a node
    [c] added with [addNodes] is not found by [getNodesByIds], and the
    node [a] is still found after [deleteNodes] has removed it. *)
Theorem C9_mutators_leave_the_indices_alone
    (this : gref) (s : Store) (nodes : list nref) (edges : list eref)
    (nodeFn : nref → nat → Store → bool)
    (edgeFn : eref → nat → Store → bool) :
  let g := graph_objs s !!! this in
  let addN := Graph_addNodes this nodes s in
  let addE := Graph_addEdges this edges s in
  let delN := Graph_deleteNodes this (λ n i, reading (nodeFn n i)) s in
  let delE := Graph_deleteEdges this (λ e i, reading (edgeFn e i)) s in
  (fst addN = Ok tt
   ∧ graph_objs (snd addN)
     = <[this := Graph_set_nodes (Graph.nodes g ++ nodes) g]> (graph_objs s))
  ∧ (fst addE = Ok tt
     ∧ graph_objs (snd addE)
       = <[this := Graph_set_edges (Graph.edges g ++ edges) g]> (graph_objs s))
  ∧ (fst delN = Ok tt
     ∧ graph_objs (snd delN)
       = <[this := Graph_set_nodes
                     (filter_indexed (λ n i, negb (nodeFn n i s))
                                     (Graph.nodes g) 0) g]> (graph_objs s))
  ∧ (fst delE = Ok tt
     ∧ graph_objs (snd delE)
       = <[this := Graph_set_edges
                     (filter_indexed (λ e i, negb (edgeFn e i s))
                                     (Graph.edges g) 0) g]> (graph_objs s))
  ∧ Forall (λ s',
              keeps_indices this s s'
              ∧ (∀ ids, fst (Graph_getNodesByIds this ids s')
                        = fst (Graph_getNodesByIds this ids s))
              ∧ (∀ fuel rootNodeId,
                   fst (Graph_composeTreeWithRootNode fuel this rootNodeId s')
                   = fst (Graph_composeTreeWithRootNode fuel this rootNodeId s)))
           [snd addN; snd addE; snd delN; snd delE]
  ∧ fst ((c <- Node_new (example_node "c" "Const") None ;;
          Graph_addNodes 0 [c] ;;;
          Graph_getNodesByIds 0 ["a"; "c"])
           (store_with two_node_graph))
    = Ok [Some (Own 0); None]
  ∧ fst ((Graph_deleteNodes 0
            (λ n _, node <- getNode n ;;
                    ret (bool_decide (Node.id node = "a"))) ;;;
          rawGraph <- Graph_rawGraph 0 ;;
          found <- Graph_getNodesByIds 0 ["a"] ;;
          ret (map Node.id (RawGraph.nodes rawGraph), found))
           (store_with two_node_graph))
    = Ok (["b"], [Some (Own 0)]).
Proof.
  intros g addN addE delN delE.
  assert (HdelN : delN = (Ok tt,
            mkStore (node_objs s) (edge_objs s)
              (<[this := Graph_set_nodes
                           (filter_indexed (λ n i, negb (nodeFn n i s))
                                           (Graph.nodes g) 0) g]>
                 (graph_objs s)) (this_vax s))).
  { apply (Graph_deleteNodes_spec this _ nodeFn). by intros n i s0. }
  assert (HdelE : delE = (Ok tt,
            mkStore (node_objs s) (edge_objs s)
              (<[this := Graph_set_edges
                           (filter_indexed (λ e i, negb (edgeFn e i s))
                                           (Graph.edges g) 0) g]>
                 (graph_objs s)) (this_vax s))).
  { apply (Graph_deleteEdges_spec this _ edgeFn). by intros e i s0. }
  assert (Hk : ∀ s', keeps_indices this s s' →
            keeps_indices this s s'
            ∧ (∀ ids, fst (Graph_getNodesByIds this ids s')
                      = fst (Graph_getNodesByIds this ids s))
            ∧ (∀ fuel rootNodeId,
                 fst (Graph_composeTreeWithRootNode fuel this rootNodeId s')
                 = fst (Graph_composeTreeWithRootNode fuel this rootNodeId s))).
  { intros s' Hs'. split; [done|]. by apply keeps_indices_queries. }
  rewrite HdelN, HdelE. subst addN addE. simpl.
  repeat split; try done.
  repeat constructor; apply Hk; by apply keeps_indices_insert.
Qed.

(** ** C10: tree composition is a query *)

(** C10: [composeTreeWithRootNode] and [composeTrees] write to no object
    that exists when they are called.  Whatever the outcome (a tree, an
    exception, or the depth bound being reached), every [Graph] object
    (its nodes, edges, comments and the two indices), every [Edge] object
    and the instance are the same afterwards, the [Node] objects that
    existed before are all still there with the same fields, and a
    returned tree is a new object (a clone). *)
Theorem C10_composition_writes_only_to_its_clones
    (fuel : nat) (this : gref) (rootNodeId : string) (s : Store) :
  let one := Graph_composeTreeWithRootNode fuel this rootNodeId s in
  let all := Graph_composeTrees fuel this s in
  (graph_objs (snd one) = graph_objs s
   ∧ edge_objs (snd one) = edge_objs s
   ∧ this_vax (snd one) = this_vax s
   ∧ take (length (node_objs s)) (node_objs (snd one)) = node_objs s
   ∧ match fst one with
     | Ok r => length (node_objs s) ≤ r
     | _ => True
     end)
  ∧ (graph_objs (snd all) = graph_objs s
     ∧ edge_objs (snd all) = edge_objs s
     ∧ this_vax (snd all) = this_vax s
     ∧ take (length (node_objs s)) (node_objs (snd all)) = node_objs s
     ∧ match fst all with
       | Ok rs => Forall (λ r, length (node_objs s) ≤ r) rs
       | _ => True
       end).
Proof.
  intros one all. split.
  - pose proof (Graph_composeTreeWithRootNode_grows fuel this rootNodeId s)
      as Hg. fold one in Hg.
    pose proof (grows_take _ _ Hg) as Htake.
    destruct Hg as (_ & He & Hgr & Hv). repeat split; [done..|].
    destruct (fst one) as [r| |] eqn:Hres; [|done..].
    apply (Graph_composeTreeWithRootNode_fresh fuel this rootNodeId s r
             (snd one)).
    subst one. by rewrite <- Hres, <- surjective_pairing.
  - pose proof (Graph_composeTrees_grows fuel this s) as Hg. fold all in Hg.
    pose proof (grows_take _ _ Hg) as Htake.
    destruct Hg as (_ & He & Hgr & Hv). repeat split; [done..|].
    destruct (fst all) as [rs| |] eqn:Hres; [|done..].
    apply (Graph_composeTrees_fresh fuel this s rs (snd all)).
    subst all. by rewrite <- Hres, <- surjective_pairing.
Qed.
(** * Further properties of the code *)

(** ** The two indices *)

(** X1.  [Node.getNodesObject(nodes)] only reads, and the object it returns
    maps an id to the LAST node of [nodes] that carries it; an id carried by
    no node is not a key. *)
Theorem X1_getNodesObject_keeps_the_last_node_of_an_id nodes s :
  ∃ index,
    Node_getNodesObject nodes s = (Ok index, s)
    ∧ ∀ id, index !! id
            = last (filter (λ r, Node.id (node_objs s !!! r) = id) nodes).
Proof.
  exists (nodes_index (node_objs s) nodes). split.
  - apply Node_getNodesObject_reads.
  - intros id. apply nodes_index_last.
Qed.

(** X2.  [Edge.getNodeEdgesObject(edges)] only reads.  When no edge names
    a member that every object inherits ([constructor], [toString], ...)
    as its consumer, the object it returns has, under the id of a
    consumer, the edge objects of exactly the edges whose [inputNodeId] is
    that id, in the order of [edges], and an id that consumes nothing is
    not a key.  When some edge does, the method raises a TypeError: the
    inherited member is taken for the list of the edges seen so far. *)
Theorem X2_getNodeEdgesObject_groups_edges_by_consumer edges s :
  (indexable (edge_objs s) edges →
   ∃ index,
     Edge_getNodeEdgesObject edges s = (Ok index, s)
     ∧ ∀ id, index !! id
             = match filter (λ r, Edge.inputNodeId (edge_objs s !!! r) = id)
                            edges with
               | [] => None
               | consumed =>
                   Some (map (λ r, edgeObject_of (edge_objs s !!! r)) consumed)
               end)
  ∧ (¬ indexable (edge_objs s) edges →
     Edge_getNodeEdgesObject edges s
     = (Throw (TypeError "Symbol.iterator"), s)).
Proof.
  rewrite Edge_getNodeEdgesObject_run. split; intros Hd.
  - rewrite decide_True by done.
    exists (edges_index (edge_objs s) edges). split; [done|].
    intros id. apply edges_index_lookup.
  - by rewrite decide_False.
Qed.

(** X2 at the edges of the two-node graph, and at an edge whose consumer
    is [constructor]. *)
Lemma X2_witness :
  (indexable (edge_objs (store_with two_node_graph)) [0]
   ∧ ∃ index,
       Edge_getNodeEdgesObject [0] (store_with two_node_graph)
       = (Ok index, store_with two_node_graph)
       ∧ index !! "a"
         = Some [{| EdgeObject.in_ := "x"; EdgeObject.outputNodeId := "b";
                    EdgeObject.out := "out" |}])
  ∧ (¬ indexable (edge_objs (snd (Graph_new prototype_consumer_graph None
                                    empty_store))) [0]
     ∧ fst (Edge_getNodeEdgesObject [0]
              (snd (Graph_new prototype_consumer_graph None empty_store)))
       = Throw (TypeError "Symbol.iterator")).
Proof.
  assert (Hd : indexable (edge_objs (store_with two_node_graph)) [0]).
  { apply (bool_decide_unpack _). vm_compute. exact I. }
  assert (Hn : ¬ indexable (edge_objs (snd (Graph_new prototype_consumer_graph
                                              None empty_store))) [0]).
  { intros H. apply (bool_decide_pack _) in H. vm_compute in H. exact H. }
  split.
  - split; [exact Hd|].
    destruct (proj1 (X2_getNodeEdgesObject_groups_edges_by_consumer
                       [0] (store_with two_node_graph)) Hd)
      as (index & Hrun & Hindex).
    exists index. split; [exact Hrun|]. rewrite Hindex. reflexivity.
  - split; [exact Hn|].
    by rewrite (proj2 (X2_getNodeEdgesObject_groups_edges_by_consumer
                         [0] _) Hn).
Defined.

(** ** Queries on a graph *)

Lemma filter_indexed_filter {A} (P : A → Prop) `{∀ v, Decision (P v)}
    (l : list A) index :
  filter_indexed (λ v _, bool_decide (P v)) l index = filter P l.
Proof.
  revert index. induction l as [|v l IH]; intros index; [done|].
  cbn [filter_indexed]. rewrite IH. destruct (decide (P v)).
  - by rewrite bool_decide_eq_true_2, filter_cons_True.
  - by rewrite bool_decide_eq_false_2, filter_cons_False.
Qed.

Lemma filterM_reads {A} (p : A → M bool) (Q : Store → A → Prop)
    {HQ : ∀ s v, Decision (Q s v)} l :
  (∀ v, reads (p v) (λ s, bool_decide (Q s v))) →
  reads (filterM p l) (λ s, filter (Q s) l).
Proof.
  intros Hp. unfold filterM.
  eapply reads_ext.
  - apply (filterMi_reads _ (λ v _ s, bool_decide (Q s v))).
    intros v _. apply Hp.
  - intros s. apply (filter_indexed_filter (Q s)).
Qed.

Lemma everyM_reads {A} (p : A → M bool) (Q : Store → A → Prop)
    {HQ : ∀ s v, Decision (Q s v)} l :
  (∀ v, reads (p v) (λ s, bool_decide (Q s v))) →
  reads (everyM p l) (λ s, bool_decide (Forall (Q s) l)).
Proof.
  intros Hp s. induction l as [|v l IH]; cbn [everyM].
  - unfold ret. by rewrite bool_decide_eq_true_2.
  - rewrite (bind_reads _ _ _ _ (Hp v)). destruct (decide (Q s v)) as [Hv|Hv].
    + rewrite (bool_decide_eq_true_2 _ Hv), IH. do 2 f_equal.
      apply bool_decide_ext. split; [by constructor|by inversion 1].
    + rewrite (bool_decide_eq_false_2 _ Hv). unfold ret.
      rewrite bool_decide_eq_false_2; [done|]. by inversion 1.
Qed.

Lemma Graph_getEdges_reads this node edgeFilterBy :
  reads (Graph_getEdges this node edgeFilterBy)
        (λ s, filter (λ r, edge_touches edgeFilterBy (edge_objs s !!! r)
                                        (Node.id (node_objs s !!! node)))
                     (Graph.edges (graph_objs s !!! this))).
Proof.
  intros s. unfold Graph_getEdges.
  rewrite (bind_reads _ _ _ _ (getGraph_reads this)).
  refine (filterM_reads _
            (λ s (r : eref), edge_touches edgeFilterBy (edge_objs s !!! r)
                                          (Node.id (node_objs s !!! node)))
            _ _ s).
  intros r s'. unfold bind, getEdge, getNode, ret.
  destruct edgeFilterBy as [[]|]; [done|done|].
  do 2 f_equal. rewrite <- bool_decide_or. by apply bool_decide_ext.
Qed.

Lemma Graph_getRootNodes_reads this :
  reads (Graph_getRootNodes this)
        (λ s, root_nodes s (graph_objs s !!! this)).
Proof.
  intros s. unfold Graph_getRootNodes, root_nodes.
  rewrite (bind_reads _ _ _ _ (getGraph_reads this)).
  refine (filterM_reads _
            (λ s' (n : nref),
               Forall (λ e : eref, Edge.inputNodeId (edge_objs s' !!! e)
                                   ≠ Node.id (node_objs s' !!! n))
                      (Graph.edges (graph_objs s' !!! this)))
            _ _ s).
  intros n s'. rewrite (bind_reads _ _ _ _ (getGraph_reads this)).
  refine (everyM_reads _
            (λ s'' (e : eref), Edge.inputNodeId (edge_objs s'' !!! e)
                               ≠ Node.id (node_objs s'' !!! n))
            _ _ s').
  intros e s''. unfold bind, getEdge, getNode, ret.
  by rewrite bool_decide_not.
Qed.

Lemma Graph_new_in_sync rawGraph prefix s :
  indexable_raw rawGraph →
  ∃ s', Graph_new rawGraph prefix s = (Ok (length (graph_objs s)), s')
        ∧ in_sync s' (graph_objs s' !!! length (graph_objs s))
        ∧ grows s (mkStore (node_objs s') (edge_objs s) (graph_objs s)
                           (this_vax s))
        ∧ edge_objs s `prefix_of` edge_objs s'
        ∧ graph_objs s'
          = graph_objs s ++ [graph_objs s' !!! length (graph_objs s)]
        ∧ this_vax s' = this_vax s
        ∧ Graph.nodes (graph_objs s' !!! length (graph_objs s))
          = seq (length (node_objs s)) (length (RawGraph.nodes rawGraph))
        ∧ Graph.edges (graph_objs s' !!! length (graph_objs s))
          = seq (length (edge_objs s)) (length (RawGraph.edges rawGraph))
        ∧ length (node_objs s')
          = length (node_objs s) + length (RawGraph.nodes rawGraph)
        ∧ length (edge_objs s')
          = length (edge_objs s) + length (RawGraph.edges rawGraph).
Proof.
  intros Hd. eexists. split; [by apply Graph_new_spec|].
  cbn [graph_objs node_objs edge_objs this_vax].
  rewrite lookup_total_snoc.
  repeat split; try done.
  - by apply prefix_app_r.
  - by apply prefix_app_r.
  - unfold built_nodes. by rewrite length_app, length_map.
  - unfold built_edges. by rewrite length_app, length_map.
Qed.

Lemma in_sync_consumed s G id :
  in_sync s G →
  default [] (Graph.nodeEdgesObject G !! id)
  = map (λ e, edgeObject_of (edge_objs s !!! e))
        (filter (λ r, Edge.inputNodeId (edge_objs s !!! r) = id)
                (Graph.edges G)).
Proof.
  intros [_ ->]. rewrite edges_index_lookup. by destruct (filter _ _).
Qed.

(** X3.  On a graph fresh from the constructor (which returns when no
    edge of the raw graph names an inherited member as its consumer), the
    two ways of finding what a node consumes agree: the edges that
    [getEdges(node, INPUT)] filters out of the edge array, turned into
    edge objects, are the own entry of the edge index under the id of the
    node (or no edges, when the id is not a key). *)
Theorem X3_getEdges_INPUT_agrees_with_the_edge_index rawGraph prefix s :
  indexable_raw rawGraph →
  ∃ g s',
    Graph_new rawGraph prefix s = (Ok g, s')
    ∧ ∀ node, ∃ consumed,
        Graph_getEdges g node (Some INPUT) s' = (Ok consumed, s')
        ∧ map (λ e, edgeObject_of (edge_objs s' !!! e)) consumed
          = default [] (Graph.nodeEdgesObject (graph_objs s' !!! g)
                          !! Node.id (node_objs s' !!! node)).
Proof.
  intros Hd.
  destruct (Graph_new_in_sync rawGraph prefix s Hd) as (s' & Hnew & Hsync & _).
  eexists _, s'. split; [exact Hnew|]. intros node. eexists. split.
  - apply Graph_getEdges_reads.
  - by rewrite (in_sync_consumed _ _ _ Hsync).
Qed.

Lemma indexable_two_node_graph : indexable_raw two_node_graph.
Proof. apply (bool_decide_unpack _). vm_compute. exact I. Qed.

(** X3 at the two-node graph, built with a prefix. *)
Lemma X3_witness :
  indexable_raw two_node_graph
  ∧ ∃ g s',
      Graph_new two_node_graph (Some "p_") empty_store = (Ok g, s')
      ∧ ∀ node, ∃ consumed,
          Graph_getEdges g node (Some INPUT) s' = (Ok consumed, s')
          ∧ map (λ e, edgeObject_of (edge_objs s' !!! e)) consumed
            = default [] (Graph.nodeEdgesObject (graph_objs s' !!! g)
                            !! Node.id (node_objs s' !!! node)).
Proof.
  split; [exact indexable_two_node_graph|].
  apply (X3_getEdges_INPUT_agrees_with_the_edge_index
           two_node_graph (Some "p_") empty_store).
  exact indexable_two_node_graph.
Defined.

Lemma filter_singleton_NoDup {A B} `{EqDecision B} (f : A → B) (l : list A) x :
  NoDup (map f l) → x ∈ l → filter (λ y, f y = f x) l = [x].
Proof.
  induction l as [|y l IH]; intros Hnd Hx; [by apply elem_of_nil in Hx|].
  cbn [map] in Hnd. apply NoDup_cons in Hnd as [Hy Hnd].
  assert (∀ z, z ∈ l → f z ∈ map f l) as Hin.
  { intros z Hz. apply list_elem_of_fmap. by exists z. }
  apply elem_of_cons in Hx as [->|Hx].
  - rewrite filter_cons_True by done. f_equal.
    destruct (filter (λ y0, f y0 = f y) l) as [|z k] eqn:Hf; [done|].
    assert (z ∈ filter (λ y0, f y0 = f y) l) as Hz by (rewrite Hf; left).
    apply list_elem_of_filter in Hz as [Hfz Hz].
    destruct Hy. rewrite <- Hfz. by apply Hin.
  - rewrite filter_cons_False; [by apply IH|].
    intros Hyx. destruct Hy. rewrite Hyx. by apply Hin.
Qed.

Lemma in_sync_lookup_NoDup s G r :
  in_sync s G →
  NoDup (map (λ r, Node.id (node_objs s !!! r)) (Graph.nodes G)) →
  r ∈ Graph.nodes G →
  Graph.nodesObject G !! Node.id (node_objs s !!! r) = Some r.
Proof.
  intros [-> _] Hnd Hr. rewrite nodes_index_last.
  by rewrite (filter_singleton_NoDup
                (λ r : nref, Node.id (node_objs s !!! r)) _ r).
Qed.

Lemma built_ids s rawGraph prefix :
  map (λ r, Node.id (built_nodes s rawGraph prefix !!! r))
      (seq (length (node_objs s)) (length (RawGraph.nodes rawGraph)))
  = map (λ n, prefix_or_empty prefix +:+ Node.id n) (RawGraph.nodes rawGraph).
Proof.
  unfold built_nodes.
  rewrite <- (length_map (λ raw, Node_constructor raw prefix)
                         (RawGraph.nodes rawGraph)).
  rewrite (lookup_total_app_seq Node.id). by rewrite map_map.
Qed.

(** X4.  When the constructor returns (no edge of the raw graph names an
    inherited member as its consumer) and the node ids of the raw graph
    are pairwise distinct, [getNodesByIds] on the graph built from it is
    a round trip: asked for the ids of the graph's nodes, in order, it
    returns these very nodes, in order, whatever the prefix and whatever
    the ids are. *)
Theorem X4_getNodesByIds_returns_the_nodes_of_their_ids rawGraph prefix s :
  indexable_raw rawGraph →
  NoDup (map Node.id (RawGraph.nodes rawGraph)) →
  ∃ g s',
    Graph_new rawGraph prefix s = (Ok g, s')
    ∧ Graph_getNodesByIds g
        (map (λ r, Node.id (node_objs s' !!! r))
             (Graph.nodes (graph_objs s' !!! g))) s'
      = (Ok (map (λ r, Some (Own r)) (Graph.nodes (graph_objs s' !!! g))), s').
Proof.
  intros Hd Hnd.
  destruct (Graph_new_in_sync rawGraph prefix s Hd)
    as (s' & Hnew & Hsync & _ & _ & _ & _ & Hnodes & _).
  eexists _, s'. split; [exact Hnew|].
  rewrite Graph_getNodesByIds_reads. do 2 f_equal.
  rewrite map_map. apply map_ext_in. intros r Hr%list_elem_of_In.
  apply Object_get_own.
  apply (in_sync_lookup_NoDup _ _ _ Hsync); [|done].
  rewrite Hnodes.
  rewrite Graph_new_spec in Hnew by done. injection Hnew as <-.
  cbn [node_objs].
  rewrite built_ids. rewrite <- (map_map Node.id).
  apply (NoDup_fmap_2 (String.append (prefix_or_empty prefix))). exact Hnd.
Qed.

(** X4 at the two-node graph, built with a prefix. *)
Lemma X4_witness :
  indexable_raw two_node_graph
  ∧ NoDup (map Node.id (RawGraph.nodes two_node_graph))
  ∧ ∃ g s',
      Graph_new two_node_graph (Some "p_") empty_store = (Ok g, s')
      ∧ Graph_getNodesByIds g
          (map (λ r, Node.id (node_objs s' !!! r))
               (Graph.nodes (graph_objs s' !!! g))) s'
        = (Ok (map (λ r, Some (Own r)) (Graph.nodes (graph_objs s' !!! g))),
           s').
Proof.
  assert (Hnd : NoDup (map Node.id (RawGraph.nodes two_node_graph))).
  { apply (bool_decide_unpack _). vm_compute. exact I. }
  split; [exact indexable_two_node_graph|]. split; [exact Hnd|].
  exact (X4_getNodesByIds_returns_the_nodes_of_their_ids
           two_node_graph (Some "p_") empty_store
           indexable_two_node_graph Hnd).
Defined.

Lemma in_sync_roots s G :
  in_sync s G →
  root_nodes s G
  = filter (λ n, Graph.nodeEdgesObject G !! Node.id (node_objs s !!! n) = None)
           (Graph.nodes G).
Proof.
  intros [_ Hsync]. unfold root_nodes. apply list_filter_iff. intros n.
  rewrite Hsync, edges_index_lookup.
  destruct (filter _ (Graph.edges G)) as [|e l] eqn:Hf.
  - split; [done|]. intros _. apply Forall_forall. intros e He Heq.
    by apply (filter_nil_not_elem_of _ _ e Hf).
  - split; [|done]. intros Hall.
    assert (e ∈ filter (λ r, Edge.inputNodeId (edge_objs s !!! r)
                             = Node.id (node_objs s !!! n)) (Graph.edges G))
      as He by (rewrite Hf; left).
    apply list_elem_of_filter in He as [He Hin].
    rewrite Forall_forall in Hall. by destruct (Hall e Hin).
Qed.

(** X5.  On a graph fresh from the constructor (which returns when no
    edge of the raw graph names an inherited member as its consumer),
    [getRootNodes] (which scans the edge array) returns, in the order of
    the node array, exactly the nodes whose id is not an own key of the
    edge index. *)
Theorem X5_getRootNodes_are_the_nodes_without_an_index_entry rawGraph prefix s :
  indexable_raw rawGraph →
  ∃ g s',
    Graph_new rawGraph prefix s = (Ok g, s')
    ∧ Graph_getRootNodes g s'
      = (Ok (filter (λ n, Graph.nodeEdgesObject (graph_objs s' !!! g)
                            !! Node.id (node_objs s' !!! n) = None)
                    (Graph.nodes (graph_objs s' !!! g))), s').
Proof.
  intros Hd.
  destruct (Graph_new_in_sync rawGraph prefix s Hd) as (s' & Hnew & Hsync & _).
  eexists _, s'. split; [exact Hnew|].
  rewrite Graph_getRootNodes_reads. by rewrite (in_sync_roots _ _ Hsync).
Qed.

(** X5 at the two-node graph. *)
Lemma X5_witness :
  indexable_raw two_node_graph
  ∧ ∃ g s',
      Graph_new two_node_graph None empty_store = (Ok g, s')
      ∧ Graph_getRootNodes g s'
        = (Ok (filter (λ n, Graph.nodeEdgesObject (graph_objs s' !!! g)
                              !! Node.id (node_objs s' !!! n) = None)
                      (Graph.nodes (graph_objs s' !!! g))), s').
Proof.
  split; [exact indexable_two_node_graph|].
  exact (X5_getRootNodes_are_the_nodes_without_an_index_entry
           two_node_graph None empty_store indexable_two_node_graph).
Defined.

(** ** Tree composition *)

Lemma composeTree_leaf fuel this r P out s :
  Some (Node.id (node_objs s !!! r)) ∉ P →
  Object_get (Graph.nodeEdgesObject (graph_objs s !!! this))
             (Node.id (node_objs s !!! r)) = None →
  Graph_composeTree (S fuel) this (Some (Own r)) P out s
  = (Ok (length (node_objs s)),
     mkStore (node_objs s
              ++ [Node_set_out out (Node_set_edges ∅ (node_objs s !!! r))])
             (edge_objs s) (graph_objs s) (this_vax s)).
Proof.
  intros HP Hnone. cbn [Graph_composeTree].
  rewrite composeTree_body_Some. cbn [id_of].
  change (String_of (Some (Node.id (node_objs s !!! r))))
    with (Node.id (node_objs s !!! r)).
  rewrite bool_decide_eq_false_2 by done.
  rewrite Hnone. cbn [reduce_edges reduce].
  rewrite (bind_run _ _ s ∅ s) by done.
  apply clone_and_assign.
Qed.

(** A node that has no entry in the edge index and whose id names an
    inherited member: the member is taken for the list of its edges. *)
Lemma composeTree_no_entries fuel this r P out s :
  Some (Node.id (node_objs s !!! r)) ∉ P →
  no_entries (graph_objs s !!! this) (Node.id (node_objs s !!! r)) →
  Graph_composeTree (S fuel) this (Some (Own r)) P out s
  = (Throw (TypeError "reduce"), s).
Proof.
  intros HP [Hnone Hin]. cbn [Graph_composeTree].
  rewrite composeTree_body_Some. cbn [id_of].
  change (String_of (Some (Node.id (node_objs s !!! r))))
    with (Node.id (node_objs s !!! r)).
  rewrite bool_decide_eq_false_2 by done.
  by rewrite (Object_get_inherited _ _ Hnone Hin).
Qed.

Lemma is_root_grows s s1 G root :
  grows s s1 → is_root s G root → is_root s1 G root.
Proof.
  intros Hgrow (Hlt & Hsome & Hnone). unfold is_root.
  rewrite (grows_lookup_total s s1) by done.
  pose proof (grows_length _ _ Hgrow). repeat split; [lia|done..].
Qed.

Lemma compose_root_leaf fuel this root s :
  index_ok s (graph_objs s !!! this) →
  is_root s (graph_objs s !!! this) root →
  Node.id (node_objs s !!! root) ∉ Object_prototype →
  bind (getNode root)
       (λ n, Graph_composeTreeWithRootNode (S fuel) this (Node.id n)) s
  = (Ok (length (node_objs s)),
     mkStore (node_objs s ++ [leaf_of s (graph_objs s !!! this) root])
             (edge_objs s) (graph_objs s) (this_vax s)).
Proof.
  intros Hidx (Hlt & [r0 Hr0] & Hnone) Hplain.
  destruct (Hidx _ _ Hr0) as [Hr0lt Hr0id].
  unfold bind at 1, getNode. unfold Graph_composeTreeWithRootNode.
  rewrite (bind_reads _ _ _ _ (getGraph_reads this)).
  rewrite (Object_get_own _ _ _ Hr0).
  unfold leaf_of. rewrite (lookup_total_correct _ _ _ Hr0).
  apply composeTree_leaf.
  - apply not_elem_of_nil.
  - rewrite Hr0id. rewrite Object_get_plain by done. by rewrite Hnone.
Qed.

Lemma compose_root_raises fuel this root s :
  index_ok s (graph_objs s !!! this) →
  is_root s (graph_objs s !!! this) root →
  Node.id (node_objs s !!! root) ∈ Object_prototype →
  bind (getNode root)
       (λ n, Graph_composeTreeWithRootNode (S fuel) this (Node.id n)) s
  = (Throw (TypeError "reduce"), s).
Proof.
  intros Hidx (Hlt & [r0 Hr0] & Hnone) Hin.
  destruct (Hidx _ _ Hr0) as [Hr0lt Hr0id].
  unfold bind at 1, getNode. unfold Graph_composeTreeWithRootNode.
  rewrite (bind_reads _ _ _ _ (getGraph_reads this)).
  rewrite (Object_get_own _ _ _ Hr0).
  apply composeTree_no_entries.
  - apply not_elem_of_nil.
  - by rewrite Hr0id.
Qed.

Lemma mapM_compose_leaves fuel this roots :
  ∀ s,
    index_ok s (graph_objs s !!! this) →
    Forall (is_root s (graph_objs s !!! this)) roots →
    Forall (λ root, Node.id (node_objs s !!! root) ∉ Object_prototype) roots →
    mapM (λ rootNode,
            n <- getNode rootNode ;;
            Graph_composeTreeWithRootNode (S fuel) this (Node.id n))
         roots s
    = (Ok (seq (length (node_objs s)) (length roots)),
       mkStore (node_objs s ++ map (leaf_of s (graph_objs s !!! this)) roots)
               (edge_objs s) (graph_objs s) (this_vax s)).
Proof.
  induction roots as [|root roots IH]; intros s Hidx Hroots Hplain.
  - cbn. unfold ret. rewrite app_nil_r. by destruct s.
  - apply Forall_cons in Hroots as [Hroot Hroots].
    apply Forall_cons in Hplain as [Hplain0 Hplain].
    set (s1 := mkStore (node_objs s
                        ++ [leaf_of s (graph_objs s !!! this) root])
                       (edge_objs s) (graph_objs s) (this_vax s)).
    assert (grows s s1) as Hgrow.
    { repeat split; try done. by apply prefix_app_r. }
    pose proof (compose_root_leaf fuel this root s Hidx Hroot Hplain0)
      as Hstep. fold s1 in Hstep.
    assert (index_ok s1 (graph_objs s1 !!! this)) as Hidx1.
    { destruct (tree_inv_grows this (graph_objs s !!! this) s s1 Hgrow)
        as [_ H]; [by split|exact H]. }
    assert (Forall (is_root s1 (graph_objs s1 !!! this)) roots) as Hroots1.
    { eapply Forall_impl; [exact Hroots|]. cbn beta. intros root'.
      replace (graph_objs s1 !!! this) with (graph_objs s !!! this) by done.
      by apply is_root_grows. }
    assert (Forall (λ root, Node.id (node_objs s1 !!! root)
                            ∉ Object_prototype) roots) as Hplain1.
    { apply Forall_forall. intros root' Hin'.
      rewrite Forall_forall in Hroots, Hplain.
      destruct (Hroots root' Hin') as (Hlt' & _).
      rewrite (grows_lookup_total s s1) by done. by apply Hplain. }
    cbn [mapM]. rewrite (bind_run _ _ _ _ _ Hstep).
    rewrite (bind_run _ _ _ _ _ (IH s1 Hidx1 Hroots1 Hplain1)).
    unfold ret. cbn [s1 node_objs edge_objs graph_objs this_vax length seq map].
    rewrite length_app, <- app_assoc. cbn [length app].
    replace (length (node_objs s) + 1) with (S (length (node_objs s))) by lia.
    do 4 f_equal.
    apply Forall_fmap_ext_1. eapply Forall_impl; [exact Hroots|]. cbn beta.
    intros root' (Hlt' & [r' Hr'] & _). unfold leaf_of.
    destruct (Hidx _ _ Hr') as [Hr'lt _].
    change (node_objs s ++ [leaf_of s (graph_objs s !!! this) root])
      with (node_objs s1).
    rewrite (grows_lookup_total s s1 root') by done.
    rewrite (lookup_total_correct _ _ _ Hr').
    by rewrite (grows_lookup_total s s1 r') by done.
Qed.

Lemma mapM_compose_raises fuel this roots :
  ∀ s,
    index_ok s (graph_objs s !!! this) →
    Forall (is_root s (graph_objs s !!! this)) roots →
    Exists (λ root, Node.id (node_objs s !!! root) ∈ Object_prototype) roots →
    fst (mapM (λ rootNode,
                 n <- getNode rootNode ;;
                 Graph_composeTreeWithRootNode (S fuel) this (Node.id n))
              roots s)
    = Throw (TypeError "reduce").
Proof.
  induction roots as [|root roots IH]; intros s Hidx Hroots Hex;
    [by apply Exists_nil in Hex|].
  apply Forall_cons in Hroots as [Hroot Hroots]. cbn [mapM].
  destruct (decide (Node.id (node_objs s !!! root) ∈ Object_prototype))
    as [Hin|Hnin].
  - by rewrite (bind_raises _ _ _ _ _
                  (compose_root_raises fuel this root s Hidx Hroot Hin)).
  - set (s1 := mkStore (node_objs s
                        ++ [leaf_of s (graph_objs s !!! this) root])
                       (edge_objs s) (graph_objs s) (this_vax s)).
    assert (grows s s1) as Hgrow.
    { repeat split; try done. by apply prefix_app_r. }
    pose proof (compose_root_leaf fuel this root s Hidx Hroot Hnin)
      as Hstep. fold s1 in Hstep.
    rewrite (bind_run _ _ _ _ _ Hstep).
    assert (fst (mapM (λ rootNode,
                         n <- getNode rootNode ;;
                         Graph_composeTreeWithRootNode (S fuel) this
                                                       (Node.id n))
                      roots s1) = Throw (TypeError "reduce")) as Hrest.
    { apply IH.
      - destruct (tree_inv_grows this (graph_objs s !!! this) s s1 Hgrow)
          as [_ H]; [by split|exact H].
      - eapply Forall_impl; [exact Hroots|]. cbn beta. intros root'.
        replace (graph_objs s1 !!! this) with (graph_objs s !!! this) by done.
        by apply is_root_grows.
      - apply Exists_cons in Hex as [Hex|Hex]; [done|].
        apply Exists_exists in Hex as (root' & Hin' & Hproto).
        apply Exists_exists. exists root'. split; [done|].
        rewrite Forall_forall in Hroots.
        destruct (Hroots root' Hin') as (Hlt' & _).
        by rewrite (grows_lookup_total s s1) by done. }
    unfold bind at 1.
    destruct (mapM _ roots s1) as [[trees|e|] s2]; simpl in *;
      congruence.
Qed.

Lemma in_sync_indexed s G n :
  in_sync s G → n ∈ Graph.nodes G →
  is_Some (Graph.nodesObject G !! Node.id (node_objs s !!! n)).
Proof.
  intros [-> _] Hn. apply not_eq_None_Some. rewrite nodes_index_None.
  intros Hnot. apply Hnot. apply list_elem_of_fmap. by exists n.
Qed.



Section composeTree_shape.
Context (this : gref) (G : Graph).

Lemma edges_key_id s k node :
  tree_inv this G s →
  Object_get (Graph.nodesObject G) k = Some node →
  String_of (id_of s node) = edges_key G k.
Proof.
  intros Hinv Hk. unfold edges_key. destruct node as [r|name].
  - apply Object_get_Own in Hk. rewrite decide_True by by eexists.
    cbn. by destruct (proj2 Hinv k r Hk) as [_ ->].
  - apply Object_get_Inherited in Hk as (Hk & _). rewrite Hk.
    by rewrite decide_False by by intros [? ?].
Qed.

Lemma composeTree_Ok_inv fuel k P out s tree s' :
  tree_inv this G s →
  Graph_composeTree fuel this (Object_get (Graph.nodesObject G) k) P out s
  = (Ok tree, s') →
  ∃ fuel' node E s1,
    fuel = S fuel'
    ∧ Object_get (Graph.nodesObject G) k = Some node
    ∧ (id_of s node ∉ P)
    ∧ reduce (collect_link (Graph_composeTree fuel' this) this
                           (union P [id_of s node]))
             (default [] (Graph.nodeEdgesObject G !! edges_key G k)) ∅ s
      = (Ok E, s1)
    ∧ grows s s1
    ∧ tree = length (node_objs s1)
    ∧ node_objs s'
      = node_objs s1
        ++ [Node_set_out out (Node_set_edges E (cloned s node))]
    ∧ grows s s'.
Proof.
  intros Hinv Hrun.
  pose proof (preserves_run grows _ _ _ _
                (Graph_composeTree_grows fuel this _ P out) Hrun) as Hgrow.
  destruct fuel as [|fuel]; [discriminate|]. cbn [Graph_composeTree] in Hrun.
  destruct (Object_get (Graph.nodesObject G) k) as [node|] eqn:Hk;
    [|by rewrite composeTree_body_None in Hrun].
  rewrite composeTree_body_Some in Hrun.
  case_bool_decide as HkP; [discriminate|].
  rewrite (proj1 Hinv), (edges_key_id s k node Hinv Hk) in Hrun.
  apply bind_Ok in Hrun as (E & s1 & Hred & Hrun).
  rewrite clone_and_assign in Hrun. injection Hrun as <- <-.
  assert (reduce (collect_link (Graph_composeTree fuel this) this
                               (union P [id_of s node]))
                 (default [] (Graph.nodeEdgesObject G !! edges_key G k)) ∅ s
          = (Ok E, s1)) as Hred'.
  { destruct (Object_get (Graph.nodeEdgesObject G) (edges_key G k))
      as [[l|name]|] eqn:Hl; cbn [reduce_edges] in Hred.
    - apply Object_get_Own in Hl. by rewrite Hl.
    - discriminate.
    - apply Object_get_None in Hl as [Hl _]. by rewrite Hl. }
  assert (grows s s1) as Hgrow1.
  { eapply (preserves_run grows); [|exact Hred'].
    apply preserves_reduce; [apply _..|]. intros acc v. unfold collect_link.
    apply preserves_bind; [apply _|apply preserves_getGraph; apply _|].
    intros g'. apply preserves_bind; [apply _|apply Graph_composeTree_grows|].
    intros child.
    apply preserves_bind; [apply _|apply preserves_getNode; apply _|].
    intros composed. apply preserves_ret; apply _. }
  exists fuel, node, E, s1. cbn [node_objs].
  assert (cloned s1 node = cloned s node) as Hcloned.
  { destruct node as [r|name]; [|done]. cbn.
    apply Object_get_Own in Hk. destruct (proj2 Hinv k r Hk) as [Hlt _].
    by apply grows_lookup_total. }
  rewrite Hcloned in *.
  repeat (split; [done|]). done.
Qed.

Lemma composeTree_Ok_cell fuel k P out s tree s' :
  tree_inv this G s →
  Graph_composeTree fuel this (Object_get (Graph.nodesObject G) k) P out s
  = (Ok tree, s') →
  ∃ node E, Object_get (Graph.nodesObject G) k = Some node
            ∧ node_objs s' !!! tree
              = Node_set_out out (Node_set_edges E (cloned s node)).
Proof.
  intros Hinv Hrun.
  destruct (composeTree_Ok_inv _ _ _ _ _ _ _ Hinv Hrun)
    as (fuel' & node & E & s1 & _ & Hk & _ & _ & _ & -> & -> & _).
  exists node, E. split; [done|]. apply lookup_total_snoc.
Qed.

Lemma reduce_collect_children fuel P' l :
  ∀ acc s E s1,
    tree_inv this G s →
    reduce (collect_link (Graph_composeTree fuel this) this P') l acc s
    = (Ok E, s1) →
    ∀ slot,
      match slot_edge l slot with
      | Some e => ∃ child, E !! slot = Some child
                           ∧ is_child this G fuel P' s e child
      | None => E !! slot = acc !! slot
      end.
Proof.
  induction l as [|e0 l IH]; intros acc s E s1 Hinv Hred slot.
  { injection Hred as <- <-. done. }
  cbn [reduce] in Hred. apply bind_Ok in Hred as (acc' & s2 & Hstep & Hred).
  unfold collect_link in Hstep.
  apply bind_Ok in Hstep as (g' & s0 & Hg & Hstep).
  injection Hg as <- <-. rewrite (proj1 Hinv) in Hstep.
  apply bind_Ok in Hstep as (rc & sc & Hchild & Hstep).
  apply bind_Ok in Hstep as (composed & s3 & Hget & Hret).
  injection Hget as <- <-. injection Hret as <- <-.
  assert (grows s sc) as Hgrow.
  { by eapply (preserves_run grows); [apply Graph_composeTree_grows|]. }
  assert (tree_inv this G sc) as Hinv' by (by eapply tree_inv_grows).
  specialize (IH _ _ _ _ Hinv' Hred slot).
  unfold slot_edge in *.
  destruct (decide (EdgeObject.in_ e0 = slot)) as [He0|He0].
  - rewrite filter_cons_True by done. rewrite last_cons.
    destruct (last _) as [e|].
    + destruct IH as (child & HE & s0 & rc' & sc' & ? & ? & ? & ?).
      exists child. split; [done|]. exists s0, rc', sc'.
      split; [done|]. split; [by etrans|]. by split.
    + rewrite IH, <- He0, lookup_insert_eq. eexists. split; [done|].
      exists s, rc, sc. split; [done|]. split; [reflexivity|]. by split.
  - rewrite filter_cons_False by done.
    destruct (last _) as [e|].
    + destruct IH as (child & HE & s0 & rc' & sc' & ? & ? & ? & ?).
      exists child. split; [done|]. exists s0, rc', sc'.
      split; [done|]. split; [by etrans|]. by split.
    + by rewrite IH, lookup_insert_ne.
Qed.

Lemma composeTree_Ok_children fuel k P out s tree s' :
  tree_inv this G s →
  Graph_composeTree fuel this (Object_get (Graph.nodesObject G) k) P out s
  = (Ok tree, s') →
  ∃ fuel' P', fuel = S fuel' ∧ ∀ slot,
    match slot_edge (default [] (Graph.nodeEdgesObject G !! edges_key G k))
                    slot with
    | Some e => ∃ child,
        Node.edges (node_objs s' !!! tree) !! slot = Some child
        ∧ is_child this G fuel' P' s e child
    | None => Node.edges (node_objs s' !!! tree) !! slot = None
    end.
Proof.
  intros Hinv Hrun.
  destruct (composeTree_Ok_inv _ _ _ _ _ _ _ Hinv Hrun)
    as (fuel' & node & E & s1 & -> & Hk & _ & Hred & _ & -> & -> & _).
  exists fuel', (union P [id_of s node]). split; [done|]. intros slot.
  rewrite lookup_total_snoc. cbn [Node_set_out Node_set_edges Node.edges].
  pose proof (reduce_collect_children _ _ _ _ _ _ _ Hinv Hred slot) as H.
  destruct (slot_edge _ slot); [done|]. by rewrite H, lookup_empty.
Qed.

End composeTree_shape.

(** X7.  The shape of a tree that [composeTree] returns for what the node
    index gives for [k]: a new object that has the fields of the node
    indexed under [k] (or, when [k] is no key and the lookup gave an
    inherited member, an object without [t], [x] and [y]), except that
    [out] is the argument [out] and [edges] has exactly the slot names of
    the edge objects that the edge index lists under the id of the node
    (under [undefined], for an inherited member); on a slot the last edge
    object with that slot name decides, and the child there has the
    producer slot of that edge as [out] and, when the producer is a key
    of the node index, the id of the producer. *)
Theorem X7_composeTree_result_shape fuel this G k P out s tree s' :
  tree_inv this G s →
  Graph_composeTree fuel this (Object_get (Graph.nodesObject G) k) P out s
  = (Ok tree, s') →
  ∃ node,
    Object_get (Graph.nodesObject G) k = Some node
    ∧ length (node_objs s) ≤ tree
    ∧ match node with
      | Own r =>
          Node_set_edges ∅ (Node_set_out None (node_objs s' !!! tree))
          = Node_set_edges ∅ (Node_set_out None (node_objs s !!! r))
      | Inherited _ =>
          Node.t (node_objs s' !!! tree) = None
          ∧ Node.x (node_objs s' !!! tree) = None
          ∧ Node.y (node_objs s' !!! tree) = None
      end
    ∧ Node.out (node_objs s' !!! tree) = Some out
    ∧ ∀ slot,
        match slot_edge (default [] (Graph.nodeEdgesObject G
                                       !! edges_key G k)) slot with
        | Some e => ∃ child,
            Node.edges (node_objs s' !!! tree) !! slot = Some child
            ∧ Node.out child = Some (Some (EdgeObject.out e))
            ∧ (is_Some (Graph.nodesObject G !! EdgeObject.outputNodeId e) →
               Node.id child = EdgeObject.outputNodeId e)
        | None => Node.edges (node_objs s' !!! tree) !! slot = None
        end.
Proof.
  intros Hinv Hrun.
  destruct (composeTree_Ok_cell _ _ _ _ _ _ _ _ _ Hinv Hrun)
    as (node & E & Hk & Hcell).
  destruct (composeTree_Ok_children _ _ _ _ _ _ _ _ _ Hinv Hrun)
    as (fuel' & P' & -> & Hchildren).
  exists node. split; [done|]. split.
  { by eapply Graph_composeTree_fresh. }
  rewrite Hcell. split; [by destruct node|]. split; [done|]. intros slot.
  specialize (Hchildren slot). rewrite Hcell in Hchildren.
  destruct (slot_edge _ slot) as [e|]; [|done].
  destruct Hchildren as (child & Hslot & s0 & rc & sc & Hinv0 & _ & Hcall & ->).
  exists (node_objs sc !!! rc). split; [done|].
  destruct (composeTree_Ok_cell _ _ _ _ _ _ _ _ _ Hinv0 Hcall)
    as (producer & E' & Hp & ->).
  split; [done|]. intros [rp Hrp].
  rewrite (Object_get_own _ _ _ Hrp) in Hp. injection Hp as <-.
  cbn. by destruct (proj2 Hinv0 _ _ Hrp).
Qed.

(** X7 at the graph where [root] consumes [p1] twice, and at the graph
    where [a] consumes [constructor], which is no node: the child is an
    object that has only [edges] and [out]. *)
Lemma X7_witness :
  (∃ node,
     Object_get (Graph.nodesObject
                   (graph_objs (store_with shared_producer_graph) !!! 0))
                "root" = Some node
     ∧ length (node_objs (store_with shared_producer_graph)) ≤ 7
     ∧ match node with
       | Own r =>
           Node_set_edges ∅ (Node_set_out None
             (node_objs (snd (Graph_composeTreeWithRootNode 3 0 "root"
                                (store_with shared_producer_graph))) !!! 7))
           = Node_set_edges ∅ (Node_set_out None
               (node_objs (store_with shared_producer_graph) !!! r))
       | Inherited _ =>
           Node.t (node_objs (snd (Graph_composeTreeWithRootNode 3 0 "root"
                                     (store_with shared_producer_graph)))
                   !!! 7) = None
           ∧ Node.x (node_objs (snd (Graph_composeTreeWithRootNode 3 0 "root"
                                       (store_with shared_producer_graph)))
                     !!! 7) = None
           ∧ Node.y (node_objs (snd (Graph_composeTreeWithRootNode 3 0 "root"
                                       (store_with shared_producer_graph)))
                     !!! 7) = None
       end
     ∧ Node.out
         (node_objs (snd (Graph_composeTreeWithRootNode 3 0 "root"
                            (store_with shared_producer_graph))) !!! 7)
       = Some None
     ∧ ∀ slot,
         match slot_edge
                 (default [] (Graph.nodeEdgesObject
                                (graph_objs (store_with shared_producer_graph)
                                   !!! 0)
                              !! edges_key
                                   (graph_objs
                                      (store_with shared_producer_graph)
                                      !!! 0) "root")) slot with
         | Some e => ∃ child,
             Node.edges
               (node_objs (snd (Graph_composeTreeWithRootNode 3 0 "root"
                                  (store_with shared_producer_graph))) !!! 7)
               !! slot = Some child
             ∧ Node.out child = Some (Some (EdgeObject.out e))
             ∧ (is_Some (Graph.nodesObject
                           (graph_objs (store_with shared_producer_graph)
                              !!! 0) !! EdgeObject.outputNodeId e) →
                Node.id child = EdgeObject.outputNodeId e)
         | None =>
             Node.edges
               (node_objs (snd (Graph_composeTreeWithRootNode 3 0 "root"
                                  (store_with shared_producer_graph))) !!! 7)
               !! slot = None
         end)
  ∧ (∃ child,
       Node.edges
         (node_objs (snd (Graph_composeTreeWithRootNode 3 0 "a"
                            (store_with dangling_constructor_graph))) !!! 2)
         !! "x" = Some child
       ∧ Node.out child = Some (Some "out")
       ∧ Node.edges child = ∅
       ∧ Node.t child = None ∧ Node.x child = None ∧ Node.y child = None).
Proof.
  split; [|eexists; split; [vm_compute; reflexivity|done]].
  apply (X7_composeTree_result_shape 3 0
           (graph_objs (store_with shared_producer_graph) !!! 0) "root" []
           None (store_with shared_producer_graph) 7).
  - split; [done|]. unfold index_ok. apply (bool_decide_unpack _).
    vm_compute. exact I.
  - vm_compute. reflexivity.
Defined.

Lemma same_but_out_eq n1 n2 :
  same_but_out n1 n2 → Node.out n1 = Node.out n2 → n1 = n2.
Proof.
  destruct n1, n2. unfold same_but_out, Node_set_out. cbn.
  intros [= -> -> -> -> -> -> ->] ->. done.
Qed.

Section composeTree_independent.
Context (this : gref) (G : Graph).

Lemma agree_on_index_refl s : agree_on_index G s s.
Proof. by intros k r _. Qed.

Lemma agree_on_index_grows s1 s2 s1' s2' :
  tree_inv this G s1 → tree_inv this G s2 →
  agree_on_index G s1 s2 → grows s1 s1' → grows s2 s2' →
  agree_on_index G s1' s2'.
Proof.
  intros [_ Hidx1] [_ Hidx2] Hagree Hg1 Hg2 k r Hk. cbn beta.
  destruct (Hidx1 k r Hk) as [Hlt1 _]. destruct (Hidx2 k r Hk) as [Hlt2 _].
  rewrite (grows_lookup_total s1 s1'), (grows_lookup_total s2 s2') by done.
  by apply (Hagree k r).
Qed.

Lemma reduce_collect_independent fuel1 fuel2 P1 P2 :
  (∀ k out1 out2 s1 s2 t1 t2 s1' s2',
     tree_inv this G s1 → tree_inv this G s2 → agree_on_index G s1 s2 →
     Graph_composeTree fuel1 this (Object_get (Graph.nodesObject G) k)
                       P1 out1 s1
     = (Ok t1, s1') →
     Graph_composeTree fuel2 this (Object_get (Graph.nodesObject G) k)
                       P2 out2 s2
     = (Ok t2, s2') →
     same_but_out (node_objs s1' !!! t1) (node_objs s2' !!! t2)) →
  ∀ l acc s1 s2 E1 E2 s1' s2',
    tree_inv this G s1 → tree_inv this G s2 → agree_on_index G s1 s2 →
    reduce (collect_link (Graph_composeTree fuel1 this) this P1) l acc s1
    = (Ok E1, s1') →
    reduce (collect_link (Graph_composeTree fuel2 this) this P2) l acc s2
    = (Ok E2, s2') →
    E1 = E2.
Proof.
  intros Hrec. induction l as [|e l IH];
    intros acc s1 s2 E1 E2 s1' s2' Hinv1 Hinv2 Hagree Hred1 Hred2.
  { injection Hred1 as <- _. by injection Hred2 as <- _. }
  cbn [reduce] in Hred1, Hred2.
  apply bind_Ok in Hred1 as (acc1 & sa & Hstep1 & Hred1).
  apply bind_Ok in Hred2 as (acc2 & sb & Hstep2 & Hred2).
  unfold collect_link in Hstep1, Hstep2.
  apply bind_Ok in Hstep1 as (g1 & ? & [= <- <-] & Hstep1).
  apply bind_Ok in Hstep2 as (g2 & ? & [= <- <-] & Hstep2).
  rewrite (proj1 Hinv1) in Hstep1. rewrite (proj1 Hinv2) in Hstep2.
  apply bind_Ok in Hstep1 as (c1 & sc1 & Hchild1 & Hstep1).
  apply bind_Ok in Hstep2 as (c2 & sc2 & Hchild2 & Hstep2).
  apply bind_Ok in Hstep1 as (? & ? & [= <- <-] & [= <- <-]).
  apply bind_Ok in Hstep2 as (? & ? & [= <- <-] & [= <- <-]).
  assert (grows s1 sc1) as Hg1
    by (by eapply (preserves_run grows); [apply Graph_composeTree_grows|]).
  assert (grows s2 sc2) as Hg2
    by (by eapply (preserves_run grows); [apply Graph_composeTree_grows|]).
  assert (node_objs sc1 !!! c1 = node_objs sc2 !!! c2) as Hsame.
  { apply same_but_out_eq.
    { eapply (Hrec _ _ _ s1 s2);
        [exact Hinv1|exact Hinv2|exact Hagree|exact Hchild1|exact Hchild2]. }
    destruct (composeTree_Ok_cell _ _ _ _ _ _ _ _ _ Hinv1 Hchild1)
      as (? & ? & _ & ->).
    by destruct (composeTree_Ok_cell _ _ _ _ _ _ _ _ _ Hinv2 Hchild2)
      as (? & ? & _ & ->). }
  rewrite Hsame in Hred1.
  eapply (IH _ sc1 sc2); [..|exact Hred1|exact Hred2].
  - by apply (tree_inv_grows this G s1).
  - by apply (tree_inv_grows this G s2).
  - by apply (agree_on_index_grows s1 s2).
Qed.

Lemma composeTree_independent fuel1 :
  ∀ fuel2 k P1 P2 out1 out2 s1 s2 t1 t2 s1' s2',
    tree_inv this G s1 → tree_inv this G s2 → agree_on_index G s1 s2 →
    Graph_composeTree fuel1 this (Object_get (Graph.nodesObject G) k)
                      P1 out1 s1
    = (Ok t1, s1') →
    Graph_composeTree fuel2 this (Object_get (Graph.nodesObject G) k)
                      P2 out2 s2
    = (Ok t2, s2') →
    same_but_out (node_objs s1' !!! t1) (node_objs s2' !!! t2).
Proof.
  induction fuel1 as [|fuel1 IH];
    intros fuel2 k P1 P2 out1 out2 s1 s2 t1 t2 s1' s2'
           Hinv1 Hinv2 Hagree Hrun1 Hrun2; [discriminate|].
  destruct (composeTree_Ok_inv _ _ _ _ _ _ _ _ _ Hinv1 Hrun1)
    as (f1 & n1 & E1 & sa & [= <-] & Hk1 & _ & Hred1 & _ & -> & -> & _).
  destruct (composeTree_Ok_inv _ _ _ _ _ _ _ _ _ Hinv2 Hrun2)
    as (f2 & n2 & E2 & sb & -> & Hk2 & _ & Hred2 & _ & -> & -> & _).
  rewrite Hk1 in Hk2. injection Hk2 as <-.
  rewrite !lookup_total_snoc.
  rewrite (reduce_collect_independent _ _ _ _ (λ k' o1 o2, IH f2 k' _ _ o1 o2)
             _ _ _ _ _ _ _ _ Hinv1 Hinv2 Hagree Hred1 Hred2).
  unfold same_but_out. destruct n1 as [r1|name]; [|done]. cbn [cloned].
  apply Object_get_Own in Hk1. by rewrite (Hagree k r1 Hk1).
Qed.

End composeTree_independent.

(** X8.  The tree that [composeTree] builds for a node depends on the graph
    only: two calls for what the node index gives for [k] that both
    return, with whatever ancestor chains, depth bounds and [out]
    arguments, and in whatever stores that hold this graph and the same
    indexed nodes, return trees that are equal except for [out]. *)
Theorem X8_composed_tree_depends_on_the_graph_only
    fuel1 fuel2 this G k P1 P2 out1 out2 s1 s2 t1 t2 s1' s2' :
  tree_inv this G s1 → tree_inv this G s2 → agree_on_index G s1 s2 →
  Graph_composeTree fuel1 this (Object_get (Graph.nodesObject G) k) P1 out1 s1
  = (Ok t1, s1') →
  Graph_composeTree fuel2 this (Object_get (Graph.nodesObject G) k) P2 out2 s2
  = (Ok t2, s2') →
  same_but_out (node_objs s1' !!! t1) (node_objs s2' !!! t2).
Proof. apply composeTree_independent. Qed.

Lemma X8_witness :
  same_but_out
    (node_objs (snd (Graph_composeTreeWithRootNode 3 0 "p1"
                       (store_with shared_producer_graph))) !!! 4)
    (node_objs
       (snd (Graph_composeTree 2 0 (Some (Own 1)) [Some "root"] (Some "out")
               (snd (Graph_composeTreeWithRootNode 3 0 "p1"
                       (store_with shared_producer_graph))))) !!! 6).
Proof.
  apply (X8_composed_tree_depends_on_the_graph_only 3 2 0
           (graph_objs (store_with shared_producer_graph) !!! 0) "p1"
           [] [Some "root"] None (Some "out")
           (store_with shared_producer_graph)
           (snd (Graph_composeTreeWithRootNode 3 0 "p1"
                   (store_with shared_producer_graph)))).
  - split; [done|]. unfold index_ok. apply (bool_decide_unpack _).
    vm_compute. exact I.
  - split; [done|]. unfold index_ok. apply (bool_decide_unpack _).
    vm_compute. exact I.
  - unfold agree_on_index. apply (bool_decide_unpack _). vm_compute. exact I.
  - vm_compute. reflexivity.
  - vm_compute. reflexivity.
Defined.

(** X9.  A producer that feeds two slots is composed once per slot: when
    two slots of a composed node are decided by edges that name the same
    producer, both slots hold a child, and the two children are equal
    except for [out]. *)
Theorem X9_slots_with_the_same_producer_hold_equal_subtrees
    fuel this G k P out s tree s' slot1 slot2 e1 e2 :
  tree_inv this G s →
  Graph_composeTree fuel this (Object_get (Graph.nodesObject G) k) P out s
  = (Ok tree, s') →
  slot_edge (default [] (Graph.nodeEdgesObject G !! edges_key G k)) slot1
  = Some e1 →
  slot_edge (default [] (Graph.nodeEdgesObject G !! edges_key G k)) slot2
  = Some e2 →
  EdgeObject.outputNodeId e1 = EdgeObject.outputNodeId e2 →
  ∃ child1 child2,
    Node.edges (node_objs s' !!! tree) !! slot1 = Some child1
    ∧ Node.edges (node_objs s' !!! tree) !! slot2 = Some child2
    ∧ same_but_out child1 child2.
Proof.
  intros Hinv Hrun He1 He2 Hsame.
  destruct (composeTree_Ok_children _ _ _ _ _ _ _ _ _ Hinv Hrun)
    as (fuel' & P' & -> & Hchildren).
  pose proof (Hchildren slot1) as H1. pose proof (Hchildren slot2) as H2.
  rewrite He1 in H1. rewrite He2 in H2.
  destruct H1 as (c1 & Hc1 & sa & ra & sa' & Hinva & Hga & Hcalla & ->).
  destruct H2 as (c2 & Hc2 & sb & rb & sb' & Hinvb & Hgb & Hcallb & ->).
  eexists _, _. split; [exact Hc1|]. split; [exact Hc2|].
  rewrite Hsame in Hcalla.
  eapply (composeTree_independent this G); [exact Hinva|exact Hinvb| |done..].
  apply (agree_on_index_grows this G s s); try done.
Qed.

Lemma X9_witness :
  ∃ child1 child2,
    Node.edges
      (node_objs (snd (Graph_composeTreeWithRootNode 3 0 "root"
                         (store_with shared_producer_graph))) !!! 7)
      !! "x" = Some child1
    ∧ Node.edges
        (node_objs (snd (Graph_composeTreeWithRootNode 3 0 "root"
                           (store_with shared_producer_graph))) !!! 7)
        !! "y" = Some child2
    ∧ same_but_out child1 child2.
Proof.
  apply (X9_slots_with_the_same_producer_hold_equal_subtrees 3 0
           (graph_objs (store_with shared_producer_graph) !!! 0) "root" []
           None (store_with shared_producer_graph) 7 _ "x" "y"
           {| EdgeObject.in_ := "x"; EdgeObject.outputNodeId := "p1";
              EdgeObject.out := "out" |}
           {| EdgeObject.in_ := "y"; EdgeObject.outputNodeId := "p1";
              EdgeObject.out := "out2" |}).
  - split; [done|]. unfold index_ok. apply (bool_decide_unpack _).
    vm_compute. exact I.
  - vm_compute. reflexivity.
  - vm_compute. reflexivity.
  - vm_compute. reflexivity.
  - reflexivity.
Defined.

(** ** Cloning and comparing graphs *)

Lemma prefix_lookup_total {A} `{Inhabited A} (l l' : list A) i :
  l `prefix_of` l' → i < length l → l' !!! i = l !!! i.
Proof. intros [k ->] Hi. by apply lookup_total_app_l. Qed.

Lemma Forall2_seq_built {A} (P : A → nat → Prop) (olds : list A)
    (start : nat) :
  (∀ i old, olds !! i = Some old → P old (start + i)) →
  Forall2 P olds (seq start (length olds)).
Proof.
  intros HP. apply Forall2_same_length_lookup_2; [by rewrite length_seq|].
  intros i old new Hold Hnew. apply lookup_seq in Hnew as [-> _]. by apply HP.
Qed.

Lemma lookup_total_app_map {A B} `{Inhabited B} (f : A → B) (l : list B)
    (k : list A) i v :
  k !! i = Some v → (l ++ map f k) !!! (length l + i) = f v.
Proof.
  intros Hi. apply list_lookup_total_correct. rewrite lookup_app_r by lia.
  replace (length l + i - length l) with i by lia.
  by rewrite list_lookup_fmap, Hi.
Qed.

(** X10.  When no edge of the graph names an inherited member as its
    consumer, [clone(prefix)] leaves every existing [Node], [Edge] and
    [Graph] object as it is and allocates one new graph, one new node per
    node and one new edge per edge.  Each new node is built from the raw
    form of the node at the same position, each new edge from the raw
    form of the edge at the same position, so a new edge has no pending
    [actions] and no attached nodes; the indices of the new graph are
    computed from the new objects.  When some edge does name such a
    consumer, [clone] raises the TypeError of the constructor. *)
Theorem X10_clone_allocates_a_copy_of_every_node_and_edge this prefix s :
  (indexable (edge_objs s) (Graph.edges (graph_objs s !!! this)) →
   ∃ c s',
     Graph_clone this prefix s = (Ok c, s')
     ∧ node_objs s `prefix_of` node_objs s'
     ∧ edge_objs s `prefix_of` edge_objs s'
     ∧ graph_objs s' = graph_objs s ++ [graph_objs s' !!! c]
     ∧ this_vax s' = this_vax s
     ∧ in_sync s' (graph_objs s' !!! c)
     ∧ Forall2 (λ old new,
                  length (node_objs s) ≤ new < length (node_objs s')
                  ∧ node_objs s' !!! new
                    = Node_constructor (rawNode_of (node_objs s !!! old))
                                       prefix)
               (Graph.nodes (graph_objs s !!! this))
               (Graph.nodes (graph_objs s' !!! c))
     ∧ Forall2 (λ old new,
                  length (edge_objs s) ≤ new < length (edge_objs s')
                  ∧ edge_objs s' !!! new
                    = Edge_constructor (rawEdge_of (edge_objs s !!! old))
                                       prefix None None
                  ∧ Edge.actions (edge_objs s' !!! new) = [])
               (Graph.edges (graph_objs s !!! this))
               (Graph.edges (graph_objs s' !!! c)))
  ∧ (¬ indexable (edge_objs s) (Graph.edges (graph_objs s !!! this)) →
     fst (Graph_clone this prefix s) = Throw (TypeError "Symbol.iterator")
     ∧ graph_objs (snd (Graph_clone this prefix s)) = graph_objs s).
Proof.
  set (G := graph_objs s !!! this). split; last first.
  { intros Hd. rewrite Graph_clone_spec. fold G.
    rewrite Graph_new_raises by by rewrite indexable_raw_of. done. }
  intros Hd%indexable_raw_of. fold G in Hd.
  destruct (Graph_new_in_sync (raw_of s G) prefix s Hd)
    as (s' & Hnew & Hsync & _ & _ & Hgs & Hthis & Hnodes & Hedges & _).
  exists (length (graph_objs s)), s'.
  split; [by rewrite Graph_clone_spec|].
  rewrite Hnodes, Hedges. rewrite Graph_new_spec in Hnew by done.
  injection Hnew as <-. cbn [node_objs edge_objs graph_objs this_vax] in *.
  unfold built_nodes, built_edges, raw_of.
  cbn [RawGraph.nodes RawGraph.edges]. rewrite !length_map.
  split; [by apply prefix_app_r|]. split; [by apply prefix_app_r|].
  split; [done|]. split; [done|]. split; [done|]. split.
  - apply Forall2_seq_built.
    intros i old Hold. rewrite length_app, !length_map.
    apply lookup_lt_Some in Hold as Hlt. split; [lia|].
    rewrite map_map.
    by rewrite (lookup_total_app_map
                  (λ r, Node_constructor (rawNode_of (node_objs s !!! r)) prefix)
                  _ _ i old).
  - apply Forall2_seq_built.
    intros i old Hold. rewrite length_app, !length_map.
    apply lookup_lt_Some in Hold as Hlt. split; [lia|].
    rewrite map_map.
    rewrite (lookup_total_app_map
               (λ r, Edge_constructor (rawEdge_of (edge_objs s !!! r)) prefix
                                      None None)
               _ _ i old) by done.
    split; [done|]. by destruct (rawEdge_of _) as [[[? ?] ?] ?].
Qed.

(** X10 at the two-node graph, and at a graph object that was given an
    edge whose consumer is [constructor]. *)
Lemma X10_witness :
  (indexable (edge_objs (store_with two_node_graph))
             (Graph.edges (graph_objs (store_with two_node_graph) !!! 0))
   ∧ ∃ c s',
       Graph_clone 0 (Some "p_") (store_with two_node_graph) = (Ok c, s')
       ∧ Graph.nodes (graph_objs s' !!! c) = [2; 3])
  ∧ (¬ indexable
         (edge_objs (snd ((e <- Edge_new ("constructor", "x", "a", "out")
                                         None None None ;;
                           Graph_addEdges 0 [e])
                            (store_with two_node_graph))))
         (Graph.edges
            (graph_objs (snd ((e <- Edge_new ("constructor", "x", "a", "out")
                                             None None None ;;
                               Graph_addEdges 0 [e])
                                (store_with two_node_graph))) !!! 0))
     ∧ fst (Graph_clone 0 None
              (snd ((e <- Edge_new ("constructor", "x", "a", "out")
                                   None None None ;;
                     Graph_addEdges 0 [e])
                      (store_with two_node_graph))))
       = Throw (TypeError "Symbol.iterator")).
Proof.
  assert (Hd : indexable (edge_objs (store_with two_node_graph))
                 (Graph.edges (graph_objs (store_with two_node_graph) !!! 0))).
  { apply (bool_decide_unpack _). vm_compute. exact I. }
  split.
  - split; [exact Hd|].
    destruct (proj1 (X10_clone_allocates_a_copy_of_every_node_and_edge
                       0 (Some "p_") (store_with two_node_graph)) Hd)
      as (c & s' & Hrun & _ & _ & _ & _ & _ & Hnodes & _).
    exists c, s'. split; [exact Hrun|].
    assert (Graph.nodes (graph_objs (store_with two_node_graph) !!! 0)
            = [0; 1]) as Hold by reflexivity.
    rewrite Hold in Hnodes.
    assert (length (node_objs (store_with two_node_graph)) = 2) as Hlen
      by reflexivity.
    assert (fst (Graph_clone 0 (Some "p_") (store_with two_node_graph))
            = Ok 1) as Hc by (vm_compute; reflexivity).
    rewrite Hrun in Hc. injection Hc as ->.
    assert (snd (Graph_clone 0 (Some "p_") (store_with two_node_graph)) = s')
      as Hs' by by rewrite Hrun.
    rewrite <- Hs'. vm_compute. reflexivity.
  - set (s := snd _).
    assert (Hn : ¬ indexable (edge_objs s) (Graph.edges (graph_objs s !!! 0))).
    { intros H. apply (bool_decide_pack _) in H. vm_compute in H. exact H. }
    split; [exact Hn|].
    exact (proj1 (proj2 (X10_clone_allocates_a_copy_of_every_node_and_edge
                           0 None s) Hn)).
Defined.

Lemma raw_of_prefix s s' G :
  node_objs s `prefix_of` node_objs s' →
  edge_objs s `prefix_of` edge_objs s' →
  Forall (λ r, r < length (node_objs s)) (Graph.nodes G) →
  Forall (λ r, r < length (edge_objs s)) (Graph.edges G) →
  raw_of s' G = raw_of s G.
Proof.
  intros Hn He HGn HGe. unfold raw_of. f_equal.
  - apply Forall_fmap_ext_1. eapply Forall_impl; [exact HGn|]. cbn beta.
    intros r Hr. by rewrite (prefix_lookup_total _ _ r Hn).
  - apply Forall_fmap_ext_1. eapply Forall_impl; [exact HGe|]. cbn beta.
    intros r Hr. by rewrite (prefix_lookup_total _ _ r He).
Qed.

(** X11.  A clone made without a prefix (or with the empty prefix), of a
    graph none of whose edges names an inherited member as its consumer
    (so that [clone] returns), is a different graph object that [equals]
    the graph it was cloned from, in both directions; neither comparison
    writes. *)
Theorem X11_clone_without_prefix_equals_the_original this prefix s :
  Graph_wf s this → prefix_or_empty prefix = "" →
  indexable (edge_objs s) (Graph.edges (graph_objs s !!! this)) →
  ∃ c s',
    Graph_clone this prefix s = (Ok c, s')
    ∧ c ≠ this
    ∧ Graph_equals this c s' = (Ok true, s')
    ∧ Graph_equals c this s' = (Ok true, s').
Proof.
  intros (Hthis & Hnodes & Hedges) Hprefix Hd%indexable_raw_of.
  exists (length (graph_objs s)),
         (mkStore (built_nodes s (raw_of s (graph_objs s !!! this)) prefix)
                  (built_edges s (raw_of s (graph_objs s !!! this)) prefix)
                  (graph_objs s
                   ++ [built_graph s (raw_of s (graph_objs s !!! this)) prefix])
                  (this_vax s)).
  split; [by rewrite Graph_clone_spec, Graph_new_spec|]. split; [lia|].
  clear Hd. unfold Graph_equals.
  rewrite !(bind_reads _ _ _ _ (Graph_rawGraph_reads _)).
  cbn [graph_objs]. rewrite lookup_total_snoc, raw_of_built.
  rewrite (lookup_total_app_l (graph_objs s)) by done.
  rewrite (raw_of_prefix s
             (mkStore
                (built_nodes s (raw_of s (graph_objs s !!! this)) prefix)
                (built_edges s (raw_of s (graph_objs s !!! this)) prefix)
                (graph_objs s
                 ++ [built_graph s (raw_of s (graph_objs s !!! this)) prefix])
                (this_vax s))
             (graph_objs s !!! this));
    [|by apply prefix_app_r|by apply prefix_app_r|done|done].
  assert ({| RawGraph.nodes :=
               map (λ raw, rawNode_of (Node_constructor raw prefix))
                   (RawGraph.nodes (raw_of s (graph_objs s !!! this)));
             RawGraph.edges :=
               map (λ raw, rawEdge_of (Edge_constructor raw prefix None None))
                   (RawGraph.edges (raw_of s (graph_objs s !!! this)));
             RawGraph.comments :=
               map (λ c, Comment_rawComment (Comment_new c))
                   (RawGraph.comments (raw_of s (graph_objs s !!! this))) |}
          = raw_of s (graph_objs s !!! this)) as ->.
  { unfold raw_of.
    cbn [RawGraph.nodes RawGraph.edges RawGraph.comments]. f_equal.
    - rewrite map_map. apply map_ext. intros r.
      unfold rawNode_of, Node_constructor. cbn. by rewrite Hprefix.
    - rewrite map_map. apply map_ext. intros r.
      destruct (edge_objs s !!! r).
      unfold rawEdge_of, Edge_constructor. cbn. by rewrite Hprefix.
    - rewrite map_map. apply map_ext. intros c.
      by rewrite rawComment_of_new. }
  unfold ret, isEqual. by rewrite bool_decide_eq_true_2.
Qed.

(** X11 at the two-node graph, cloned with the empty prefix. *)
Lemma X11_witness :
  ∃ c s',
    Graph_clone 0 (Some "") (store_with two_node_graph) = (Ok c, s')
    ∧ c ≠ 0
    ∧ Graph_equals 0 c s' = (Ok true, s')
    ∧ Graph_equals c 0 s' = (Ok true, s').
Proof.
  apply (X11_clone_without_prefix_equals_the_original 0 (Some "")
           (store_with two_node_graph)).
  - unfold Graph_wf. apply (bool_decide_unpack _). vm_compute. exact I.
  - reflexivity.
  - apply (bool_decide_unpack _). vm_compute. exact I.
Defined.

(** ** The instance: fresh ids and inlining *)

Lemma string_length_append (s1 s2 : string) :
  String.length (s1 +:+ s2) = String.length s1 + String.length s2.
Proof.
  induction s1 as [|a s1 IH]; [done|].
  change (S (String.length (s1 +:+ s2))
          = S (String.length s1 + String.length s2)).
  by rewrite IH.
Qed.

Lemma string_append_inj_r (t s1 s2 : string) :
  s1 +:+ t = s2 +:+ t → s1 = s2.
Proof.
  revert s2. induction s1 as [|a s1 IH]; intros [|b s2] Heq; [done|..].
  - apply (f_equal String.length) in Heq.
    rewrite !string_length_append in Heq. cbn in Heq. lia.
  - apply (f_equal String.length) in Heq.
    rewrite !string_length_append in Heq. cbn in Heq. lia.
  - cbn in Heq. injection Heq as -> Heq. f_equal. by apply IH.
Qed.

Lemma generateNextID_run s :
  VAX_generateNextID s
  = (Ok (VAX.counter (this_vax s)),
     mkStore (node_objs s) (edge_objs s) (graph_objs s)
             (VAX_set_counter (Number_succ (VAX.counter (this_vax s)))
                              (this_vax s))).
Proof. done. Qed.

Lemma Number_succ_exact n : (N.of_nat n < 2 ^ 53)%N → Number_succ n = S n.
Proof. intros Hn. unfold Number_succ. by rewrite bool_decide_eq_true_2. Qed.

Lemma Number_succ_stuck n : ¬ (N.of_nat n < 2 ^ 53)%N → Number_succ n = n.
Proof. intros Hn. unfold Number_succ. by rewrite bool_decide_eq_false_2. Qed.

Lemma Number_succ_le n : n ≤ Number_succ n.
Proof. unfold Number_succ. case_bool_decide; lia. Qed.

(** X12.  [generateNextID] hands out the value of [counter] and increments
    it, touching nothing else.  As long as the counter stays within the
    integers that a number holds exactly (up to 2^53), [n] successive
    calls return [n] consecutive numbers starting at the current
    [counter], and the prefixes [uf_<id>_] that
    [evaluateUserFunctionNode] would form from them are pairwise
    different.  Once the counter is 2^53 the increment no longer changes
    it: every further call returns 2^53 again and leaves the instance as
    it is, so the prefixes repeat. *)
Theorem X12_generateNextID_returns_consecutive_ids n s :
  ((N.of_nat (VAX.counter (this_vax s) + n) ≤ 2 ^ 53)%N →
   mapM (λ _ : unit, VAX_generateNextID) (replicate n ()) s
   = (Ok (seq (VAX.counter (this_vax s)) n),
      mkStore (node_objs s) (edge_objs s) (graph_objs s)
              (VAX_set_counter (VAX.counter (this_vax s) + n) (this_vax s)))
   ∧ NoDup (map (λ id, "uf_" +:+ pretty id +:+ "_")
                (seq (VAX.counter (this_vax s)) n)))
  ∧ (N.of_nat (VAX.counter (this_vax s)) = (2 ^ 53)%N →
     mapM (λ _ : unit, VAX_generateNextID) (replicate n ()) s
     = (Ok (replicate n (VAX.counter (this_vax s))), s)).
Proof.
  split.
  - intros Hbound. split.
    + revert s Hbound. induction n as [|n IH]; intros s Hbound.
      * cbn [replicate mapM seq]. unfold ret. rewrite Nat.add_0_r.
        by destruct s as [? ? ? []].
      * cbn [replicate mapM].
        rewrite (bind_run _ _ _ _ _ (generateNextID_run s)).
        rewrite Number_succ_exact by lia.
        set (s1 := mkStore _ _ _ _).
        assert (N.of_nat (VAX.counter (this_vax s1) + n) ≤ 2 ^ 53)%N as Hb1.
        { subst s1. cbn [this_vax VAX_set_counter VAX.counter]. lia. }
        rewrite (bind_run _ _ _ _ _ (IH s1 Hb1)). unfold ret. subst s1.
        cbn [node_objs edge_objs graph_objs this_vax VAX_set_counter
             VAX.counter VAX.graph VAX.schema VAX.userFunctionStorage seq].
        do 2 f_equal. unfold VAX_set_counter.
        cbn [VAX.counter VAX.graph VAX.schema VAX.userFunctionStorage].
        f_equal. lia.
    + apply NoDup_fmap_2_strong; [|apply NoDup_seq].
      intros i j _ _ Heq. apply (inj (String.append "uf_")) in Heq.
      apply string_append_inj_r in Heq. by apply (inj pretty) in Heq.
  - intros Hstuck. induction n as [|n IH]; [reflexivity|].
    cbn [replicate mapM].
    rewrite (bind_run _ _ _ _ _ (generateNextID_run s)).
    rewrite Number_succ_stuck by lia.
    assert (mkStore (node_objs s) (edge_objs s) (graph_objs s)
                    (VAX_set_counter (VAX.counter (this_vax s)) (this_vax s))
            = s) as -> by (by destruct s as [? ? ? []]).
    by rewrite (bind_run _ _ _ _ _ IH).
Qed.

(** X12 at three calls on a new instance, and at an instance whose
    counter is 2^53. *)
Lemma X12_witness :
  ((N.of_nat (VAX.counter (this_vax empty_store) + 3) ≤ 2 ^ 53)%N
   ∧ fst (mapM (λ _ : unit, VAX_generateNextID) (replicate 3 ()) empty_store)
     = Ok [0; 1; 2])
  ∧ (N.of_nat (VAX.counter
                 (VAX_set_counter (N.to_nat (2 ^ 53)) (this_vax empty_store)))
     = (2 ^ 53)%N
     ∧ fst (mapM (λ _ : unit, VAX_generateNextID) (replicate 2 ())
              (mkStore [] [] []
                 (VAX_set_counter (N.to_nat (2 ^ 53)) (this_vax empty_store))))
       = Ok [N.to_nat (2 ^ 53); N.to_nat (2 ^ 53)]).
Proof.
  assert (Hb : (N.of_nat (VAX.counter (this_vax empty_store) + 3) ≤ 2 ^ 53)%N)
    by (vm_compute; discriminate).
  assert (Hs : N.of_nat (VAX.counter
                 (VAX_set_counter (N.to_nat (2 ^ 53)) (this_vax empty_store)))
               = (2 ^ 53)%N) by apply N2Nat.id.
  split.
  - split; [exact Hb|].
    by rewrite (proj1 (proj1 (X12_generateNextID_returns_consecutive_ids
                                3 empty_store) Hb)).
  - split; [exact Hs|].
    by rewrite (proj2 (X12_generateNextID_returns_consecutive_ids
                         2 (mkStore [] [] []
                              (VAX_set_counter (N.to_nat (2 ^ 53))
                                 (this_vax empty_store)))) Hs).
Defined.

Lemma filter_none {A} (P : A → Prop) `{∀ v, Decision (P v)} (l : list A) :
  Forall (λ v, ¬ P v) l → filter P l = [].
Proof.
  induction 1 as [|v l Hv _ IH]; [done|]. by rewrite filter_cons_False.
Qed.

Lemma userFunction_nodes_reads ids nodes :
  reads (filterM (is_userFunction_node ids) nodes)
        (λ s, filter (λ n, Node.c (node_objs s !!! n) ∈ ids) nodes).
Proof.
  apply (filterM_reads _ (λ s (n : nref), Node.c (node_objs s !!! n) ∈ ids)).
  intros n. apply is_userFunction_node_reads.
Qed.

Lemma inline_without_user_functions fuel graphArg rawUserFunctionsIds s g :
  resolved_graph graphArg (this_vax s) = Some g →
  Forall (λ n, Node.c (node_objs s !!! n)
               ∉ effective_ids rawUserFunctionsIds (this_vax s))
         (Graph.nodes (graph_objs s !!! g)) →
  VAX_inlineUserFunctionsInGraph (S fuel) graphArg rawUserFunctionsIds s
  = (Ok (VAX.graph (this_vax s)), s).
Proof.
  intros Hg Hnone. cbn [VAX_inlineUserFunctionsInGraph].
  unfold inlineUserFunctionsInGraph_body.
  rewrite (bind_reads _ _ (λ s, this_vax s)) by done.
  fold (resolved_graph graphArg (this_vax s)).
  fold (effective_ids rawUserFunctionsIds (this_vax s)).
  rewrite Hg. unfold Graph_nodes_of.
  rewrite (bind_run _ _ s (Graph.nodes (graph_objs s !!! g)) s) by done.
  rewrite (bind_reads _ _ _ _ (userFunction_nodes_reads _ _)).
  by rewrite filter_none.
Qed.

(** X13.  When the graph that [inlineUserFunctionsInGraph] works on has no
    node of a user-function type, the method writes nothing and returns
    the instance's [graph] field, whichever graph was passed in. *)
Theorem X13_inlining_without_user_functions_returns_the_graph_field
    fuel graphArg rawUserFunctionsIds s g :
  resolved_graph graphArg (this_vax s) = Some g →
  Forall (λ n, Node.c (node_objs s !!! n)
               ∉ effective_ids rawUserFunctionsIds (this_vax s))
         (Graph.nodes (graph_objs s !!! g)) →
  VAX_inlineUserFunctionsInGraph (S fuel) graphArg rawUserFunctionsIds s
  = (Ok (VAX.graph (this_vax s)), s).
Proof. apply inline_without_user_functions. Qed.

Lemma X13_witness :
  VAX_inlineUserFunctionsInGraph 1 (Some 1) None store_with_other_graph
  = (Ok (VAX.graph (this_vax store_with_other_graph)), store_with_other_graph).
Proof.
  apply (X13_inlining_without_user_functions_returns_the_graph_field
           0 (Some 1) None store_with_other_graph 1).
  - reflexivity.
  - apply (bool_decide_unpack _). vm_compute. exact I.
Defined.

(** X14.  Called without a graph on an instance whose [graph] field was
    never assigned, [inlineUserFunctionsInGraph] raises the [TypeError] of
    reading [nodes] of [undefined] before it writes anything, and so does
    [composeTreesInlined]. *)
Theorem X14_inlining_without_a_graph_raises fuel rawUserFunctionsIds s :
  VAX.graph (this_vax s) = None →
  VAX_inlineUserFunctionsInGraph (S fuel) None rawUserFunctionsIds s
  = (Throw (TypeError "nodes"), s)
  ∧ VAX_composeTreesInlined (S fuel) s = (Throw (TypeError "nodes"), s).
Proof.
  intros Hg.
  assert (∀ ids, VAX_inlineUserFunctionsInGraph (S fuel) None ids s
                 = (Throw (TypeError "nodes"), s)) as Hinline.
  { intros ids. cbn [VAX_inlineUserFunctionsInGraph].
    unfold inlineUserFunctionsInGraph_body.
    rewrite (bind_reads _ _ (λ s, this_vax s)) by done. by rewrite Hg. }
  split; [apply Hinline|].
  unfold VAX_composeTreesInlined, bind. by rewrite Hinline.
Qed.

Lemma X14_witness :
  VAX_inlineUserFunctionsInGraph 1 None None empty_store
  = (Throw (TypeError "nodes"), empty_store)
  ∧ VAX_composeTreesInlined 1 empty_store
    = (Throw (TypeError "nodes"), empty_store).
Proof.
  apply (X14_inlining_without_a_graph_raises 0 None empty_store).
  reflexivity.
Defined.

(** ** One inlining pass, in general *)

#[global] Instance only_edges_written_refl : Reflexive only_edges_written.
Proof. by intros s. Qed.

#[global] Instance only_edges_written_trans : Transitive only_edges_written.
Proof.
  intros s1 s2 s3 (Hn & Hg & Ht & He) (Hn' & Hg' & Ht' & He').
  repeat split; congruence.
Qed.

Lemma preserves_getThis R `{!Reflexive R} : preserves R getThis.
Proof. intros s. apply reflexivity. Qed.

Lemma preserves_is_marker R `{!Reflexive R} marker name n :
  preserves R (is_marker marker name n).
Proof.
  intros s. unfold is_marker, bind, getNode.
  destruct (bool_decide _); [|apply reflexivity].
  destruct (Any_get _ _); apply reflexivity.
Qed.

Lemma preserves_Graph_getEdges R `{!Reflexive R} this node edgeFilterBy :
  preserves R (Graph_getEdges this node edgeFilterBy).
Proof. intros s. rewrite Graph_getEdges_reads. apply reflexivity. Qed.

Lemma only_edges_written_setEdge r f :
  preserves only_edges_written (setEdge r f).
Proof. intros s. repeat split. cbn. apply length_insert. Qed.

(** Decomposes a goal [preserves R m] along the structure of [m]. *)
Ltac frame :=
  lazymatch goal with
  | |- Reflexive _ => apply _
  | |- Transitive _ => apply _
  | |- preserves _ (bind _ _) =>
      apply preserves_bind; [..|intros ?]; frame
  | |- preserves _ (match ?x with _ => _ end) => destruct x; frame
  | |- preserves _ (ret _) => apply preserves_ret; frame
  | |- preserves _ (throw _) => apply preserves_throw; frame
  | |- preserves _ (forEach _ _) =>
      apply preserves_forEach; [..|intros ?]; frame
  | |- preserves _ (findM _ _) =>
      apply preserves_findM; [..|intros ?]; frame
  | |- preserves _ (filterM _ _) =>
      apply preserves_filterM; [..|intros ?]; frame
  | |- preserves _ (mapM _ _) =>
      apply preserves_mapM; [..|intros ?]; frame
  | |- preserves _ (getNode _) => apply preserves_getNode; frame
  | |- preserves _ (getEdge _) => apply preserves_getEdge; frame
  | |- preserves _ (getGraph _) => apply preserves_getGraph; frame
  | |- preserves _ getThis => apply preserves_getThis; frame
  | |- preserves _ (is_marker _ _ _) => apply preserves_is_marker; frame
  | |- preserves _ (Graph_getEdges _ _ _) =>
      apply preserves_Graph_getEdges; frame
  | |- preserves only_edges_written (setEdge _ _) =>
      apply only_edges_written_setEdge
  | |- _ => idtac
  end.

Lemma filter_indexed_negb_filter {A} (P : A → Prop) `{∀ v, Decision (P v)}
    (l : list A) index :
  filter_indexed (λ v _, negb (bool_decide (P v))) l index
  = filter (λ v, ¬ P v) l.
Proof.
  rewrite <- (filter_indexed_filter (λ v, ¬ P v) l index).
  revert index. induction l as [|v l IH]; intros index; [done|].
  cbn [filter_indexed]. by rewrite IH, bool_decide_not.
Qed.

Lemma Graph_deleteNodes_run this filterFn (P : Store → nref → Prop)
    {HP : ∀ s n, Decision (P s n)} s :
  (∀ n i, reads (filterFn n i) (λ s, bool_decide (P s n))) →
  ∃ s', Graph_deleteNodes this filterFn s = (Ok tt, s')
        ∧ node_objs s' = node_objs s ∧ edge_objs s' = edge_objs s
        ∧ this_vax s' = this_vax s
        ∧ graph_objs s'
          = <[this := Graph_set_nodes
                        (filter (λ n, ¬ P s n)
                                (Graph.nodes (graph_objs s !!! this)))
                        (graph_objs s !!! this)]> (graph_objs s).
Proof.
  intros Hp. eexists. split.
  - apply (Graph_deleteNodes_spec _ _ (λ n _ s, bool_decide (P s n))).
    intros n i. apply Hp.
  - cbn [node_objs edge_objs this_vax graph_objs].
    by rewrite (filter_indexed_negb_filter (P s)).
Qed.

Lemma Graph_deleteEdges_run this filterFn (P : Store → eref → Prop)
    {HP : ∀ s e, Decision (P s e)} s :
  (∀ e i, reads (filterFn e i) (λ s, bool_decide (P s e))) →
  ∃ s', Graph_deleteEdges this filterFn s = (Ok tt, s')
        ∧ node_objs s' = node_objs s ∧ edge_objs s' = edge_objs s
        ∧ this_vax s' = this_vax s
        ∧ graph_objs s'
          = <[this := Graph_set_edges
                        (filter (λ e, ¬ P s e)
                                (Graph.edges (graph_objs s !!! this)))
                        (graph_objs s !!! this)]> (graph_objs s).
Proof.
  intros Hp. eexists. split.
  - apply (Graph_deleteEdges_spec _ _ (λ e _ s, bool_decide (P s e))).
    intros e i. apply Hp.
  - cbn [node_objs edge_objs this_vax graph_objs].
    by rewrite (filter_indexed_negb_filter (P s)).
Qed.

Lemma Graph_addNodes_run this nodes s :
  ∃ s', Graph_addNodes this nodes s = (Ok tt, s')
        ∧ node_objs s' = node_objs s ∧ edge_objs s' = edge_objs s
        ∧ this_vax s' = this_vax s
        ∧ graph_objs s'
          = <[this := Graph_set_nodes
                        (Graph.nodes (graph_objs s !!! this) ++ nodes)
                        (graph_objs s !!! this)]> (graph_objs s).
Proof. eexists. split; [apply Graph_addNodes_spec|done]. Qed.

Lemma Graph_addEdges_run this edges s :
  ∃ s', Graph_addEdges this edges s = (Ok tt, s')
        ∧ node_objs s' = node_objs s ∧ edge_objs s' = edge_objs s
        ∧ this_vax s' = this_vax s
        ∧ graph_objs s'
          = <[this := Graph_set_edges
                        (Graph.edges (graph_objs s !!! this) ++ edges)
                        (graph_objs s !!! this)]> (graph_objs s).
Proof. eexists. split; [apply Graph_addEdges_spec|done]. Qed.

Lemma system_nodes_reads nodes :
  reads (filterM is_system_node nodes)
        (λ s, filter (λ n, ¬ kept_in_clone (node_objs s) n) nodes).
Proof.
  eapply reads_ext.
  - apply (filterM_reads _
             (λ s (n : nref), substr (Node.c (node_objs s !!! n)) 0 3 = "UF_")
             (HQ := λ s (n : nref),
                      decide (substr (Node.c (node_objs s !!! n)) 0 3 = "UF_"))).
    intros n. apply is_system_node_reads.
  - intros s. apply list_filter_iff. intros n. unfold kept_in_clone.
    split; [tauto|]. apply dec_stable.
Qed.

Lemma evaluate_splice_run node g c s :
  g ≠ c → g < length (graph_objs s) → c < length (graph_objs s) →
  ∃ s',
    evaluate_splice node g c s = (Ok tt, s')
    ∧ node_objs s' = node_objs s ∧ edge_objs s' = edge_objs s
    ∧ this_vax s' = this_vax s
    ∧ length (graph_objs s') = length (graph_objs s)
    ∧ (∀ g', g' ≠ g → g' ≠ c → graph_objs s' !!! g' = graph_objs s !!! g')
    ∧ Graph.nodes (graph_objs s' !!! g)
      = filter (kept_in_graph (node_objs s) node)
               (Graph.nodes (graph_objs s !!! g))
        ++ filter (kept_in_clone (node_objs s))
                  (Graph.nodes (graph_objs s !!! c))
    ∧ Graph.edges (graph_objs s' !!! g)
      = filter (λ e, ¬ marked (edge_objs s) e)
               (Graph.edges (graph_objs s !!! g))
        ++ filter (λ e, ¬ dropped_from_clone s c e)
                  (Graph.edges (graph_objs s !!! c)).
Proof.
  intros Hgc Hg Hc. unfold evaluate_splice.
  rewrite (bind_reads _ _ _ _ (getGraph_reads c)).
  rewrite (bind_reads _ _ _ _ (system_nodes_reads _)).
  assert (Hids : ∀ l,
            reads (mapM (λ userFunctionNode,
                           un <- getNode userFunctionNode ;;
                           ret (Node.id un)) l)
                  (λ s, map (λ n, Node.id (node_objs s !!! n)) l)).
  { intros l. by apply (mapM_reads _ (λ n s, Node.id (node_objs s !!! n))). }
  rewrite (bind_reads _ _ _ _ (Hids _)). clear Hids.
  fold (system_ids s c).
  destruct (Graph_deleteNodes_run c
              (λ userFunctionNode _, is_system_node userFunctionNode)
              (λ s n, ¬ kept_in_clone (node_objs s) n)
              (HP := λ s n, decide (¬ kept_in_clone (node_objs s) n)) s)
    as (s5 & Hrun5 & Hn5 & He5 & Ht5 & Hg5).
  { intros n i s0. rewrite is_system_node_reads. do 2 f_equal.
    apply bool_decide_ext. unfold kept_in_clone. split; [tauto|].
    apply dec_stable. }
  rewrite (bind_run _ _ _ _ _ Hrun5). clear Hrun5.
  destruct (Graph_deleteEdges_run c
              (λ userFunctionEdge _,
                 ue <- getEdge userFunctionEdge ;;
                 ret (is_toDelete ue
                      || includes (system_ids s c) (Edge.outputNodeId ue)
                      || includes (system_ids s c) (Edge.inputNodeId ue)))
              (λ s0 e,
                 (marked (edge_objs s0) e
                  ∨ Edge.outputNodeId (edge_objs s0 !!! e) ∈ system_ids s c)
                 ∨ Edge.inputNodeId (edge_objs s0 !!! e) ∈ system_ids s c)
              (HP := λ s0 e,
                 decide ((marked (edge_objs s0) e
                          ∨ Edge.outputNodeId (edge_objs s0 !!! e)
                            ∈ system_ids s c)
                         ∨ Edge.inputNodeId (edge_objs s0 !!! e)
                           ∈ system_ids s c)) s5)
    as (s6 & Hrun6 & Hn6 & He6 & Ht6 & Hg6).
  { intros e i s0. unfold bind, getEdge, ret. do 2 f_equal.
    unfold is_toDelete, includes. rewrite <- !bool_decide_or.
    by apply bool_decide_ext. }
  rewrite (bind_run _ _ _ _ _ Hrun6). clear Hrun6.
  destruct (Graph_deleteEdges_run g
              (λ edge _, e <- getEdge edge ;; ret (is_toDelete e))
              (λ s0 e, marked (edge_objs s0) e)
              (HP := λ s0 e, decide (marked (edge_objs s0) e)) s6)
    as (s7 & Hrun7 & Hn7 & He7 & Ht7 & Hg7); [by intros e i s0|].
  rewrite (bind_run _ _ _ _ _ Hrun7). clear Hrun7.
  destruct (Graph_deleteNodes_run g
              (λ n' _, other <- getNode n' ;;
                       this_node <- getNode node ;;
                       ret (bool_decide (Node.id other = Node.id this_node)))
              (λ s n, Node.id (node_objs s !!! n)
                      = Node.id (node_objs s !!! node))
              (HP := λ s n, decide (Node.id (node_objs s !!! n)
                                    = Node.id (node_objs s !!! node))) s7)
    as (s8 & Hrun8 & Hn8 & He8 & Ht8 & Hg8); [by intros n i s0|].
  rewrite (bind_run _ _ _ _ _ Hrun8). clear Hrun8.
  rewrite (bind_reads _ _ _ _ (getGraph_reads c)).
  destruct (Graph_addNodes_run g (Graph.nodes (graph_objs s8 !!! c)) s8)
    as (s9 & Hrun9 & Hn9 & He9 & Ht9 & Hg9).
  rewrite (bind_run _ _ _ _ _ Hrun9). clear Hrun9.
  rewrite (bind_reads _ _ _ _ (getGraph_reads c)).
  destruct (Graph_addEdges_run g (Graph.edges (graph_objs s9 !!! c)) s9)
    as (s10 & Hrun10 & Hn10 & He10 & Ht10 & Hg10).
  exists s10. split; [exact Hrun10|]. clear Hrun10.
  assert (Hlen5 : length (graph_objs s5) = length (graph_objs s))
    by (by rewrite Hg5, length_insert).
  assert (Hlen6 : length (graph_objs s6) = length (graph_objs s))
    by (by rewrite Hg6, length_insert).
  assert (Hlen7 : length (graph_objs s7) = length (graph_objs s))
    by (by rewrite Hg7, length_insert).
  assert (Hlen8 : length (graph_objs s8) = length (graph_objs s))
    by (by rewrite Hg8, length_insert).
  assert (Hlen9 : length (graph_objs s9) = length (graph_objs s))
    by (by rewrite Hg9, length_insert).
  assert (H5c : graph_objs s5 !!! c
                = Graph_set_nodes
                    (filter (λ n, ¬ ¬ kept_in_clone (node_objs s) n)
                            (Graph.nodes (graph_objs s !!! c)))
                    (graph_objs s !!! c)).
  { by rewrite Hg5, list_lookup_total_insert_eq. }
  assert (H6c : graph_objs s6 !!! c
                = Graph_set_edges
                    (filter (λ e, ¬ ((marked (edge_objs s5) e
                                      ∨ Edge.outputNodeId (edge_objs s5 !!! e)
                                        ∈ system_ids s c)
                                     ∨ Edge.inputNodeId (edge_objs s5 !!! e)
                                       ∈ system_ids s c))
                            (Graph.edges (graph_objs s5 !!! c)))
                    (graph_objs s5 !!! c)).
  { rewrite Hg6, list_lookup_total_insert_eq; [done|lia]. }
  assert (H6g : graph_objs s6 !!! g = graph_objs s !!! g).
  { rewrite Hg6, list_lookup_total_insert_ne by done.
    by rewrite Hg5, list_lookup_total_insert_ne. }
  assert (H7g : graph_objs s7 !!! g
                = Graph_set_edges
                    (filter (λ e, ¬ marked (edge_objs s6) e)
                            (Graph.edges (graph_objs s6 !!! g)))
                    (graph_objs s6 !!! g)).
  { rewrite Hg7, list_lookup_total_insert_eq; [done|lia]. }
  assert (H8g : graph_objs s8 !!! g
                = Graph_set_nodes
                    (filter (λ n, ¬ Node.id (node_objs s7 !!! n)
                                    = Node.id (node_objs s7 !!! node))
                            (Graph.nodes (graph_objs s7 !!! g)))
                    (graph_objs s7 !!! g)).
  { rewrite Hg8, list_lookup_total_insert_eq; [done|lia]. }
  assert (H9c : graph_objs s9 !!! c = graph_objs s6 !!! c).
  { rewrite Hg9, list_lookup_total_insert_ne by done.
    rewrite Hg8, list_lookup_total_insert_ne by done.
    by rewrite Hg7, list_lookup_total_insert_ne. }
  assert (H8c : graph_objs s8 !!! c = graph_objs s6 !!! c).
  { rewrite Hg8, list_lookup_total_insert_ne by done.
    by rewrite Hg7, list_lookup_total_insert_ne. }
  split; [by rewrite Hn10, Hn9, Hn8, Hn7, Hn6, Hn5|].
  split; [by rewrite He10, He9, He8, He7, He6, He5|].
  split; [by rewrite Ht10, Ht9, Ht8, Ht7, Ht6, Ht5|].
  split; [by rewrite Hg10, length_insert|].
  split.
  { intros g' Hg'g Hg'c. rewrite Hg10, list_lookup_total_insert_ne by done.
    rewrite Hg9, list_lookup_total_insert_ne by done.
    rewrite Hg8, list_lookup_total_insert_ne by done.
    rewrite Hg7, list_lookup_total_insert_ne by done.
    rewrite Hg6, list_lookup_total_insert_ne by done.
    by rewrite Hg5, list_lookup_total_insert_ne. }
  rewrite Hg10, list_lookup_total_insert_eq by lia.
  cbn [Graph.nodes Graph.edges Graph_set_edges]. rewrite H9c.
  rewrite Hg9, list_lookup_total_insert_eq by lia.
  cbn [Graph.nodes Graph.edges Graph_set_nodes].
  rewrite H8c, H8g, H7g, H6g, H6c, H5c.
  cbn [Graph.nodes Graph.edges Graph_set_nodes Graph_set_edges].
  rewrite Hn7, Hn6, Hn5, He6, He5. split; f_equal.
  - apply list_filter_iff. intros n. split; [apply dec_stable|tauto].
  - apply list_filter_iff. intros e. unfold dropped_from_clone. tauto.
Qed.

Lemma evaluate_to_splice node g s s' :
  VAX_evaluateUserFunctionNode node g s = (Ok tt, s') →
  ∃ s4,
    only_edges_written (after_clone s g) s4
    ∧ evaluate_splice node g (length (graph_objs s)) s4 = (Ok tt, s').
Proof.
  intros Hrun. unfold VAX_evaluateUserFunctionNode in Hrun.
  rewrite (bind_reads _ _ (λ s, this_vax s)) in Hrun by done.
  rewrite (bind_reads _ _ _ _ (getNode_reads node)) in Hrun.
  rewrite (bind_run _ _ _ _ _ (generateNextID_run s)) in Hrun.
  fold (next_prefix s) in Hrun.
  destruct (decide (indexable (edge_objs s)
                              (Graph.edges (graph_objs s !!! g)))) as [Hd|Hd];
    [|by rewrite (bind_raises _ _ _ _ _
                    (Graph_clone_raises g (Some (next_prefix s))
                       (mkStore (node_objs s) (edge_objs s) (graph_objs s)
                          (VAX_set_counter
                             (Number_succ (VAX.counter (this_vax s)))
                             (this_vax s))) Hd))
        in Hrun].
  assert (Graph_clone g (Some (next_prefix s))
            (mkStore (node_objs s) (edge_objs s) (graph_objs s)
                     (VAX_set_counter (Number_succ (VAX.counter (this_vax s)))
                                      (this_vax s)))
          = (Ok (length (graph_objs s)), after_clone s g)) as Hclone.
  { by rewrite Graph_clone_Ok. }
  rewrite (bind_run _ _ _ _ _ Hclone) in Hrun. clear Hclone.
  rewrite (bind_reads _ _ _ _ (Graph_getEdges_reads _ _ _)) in Hrun.
  apply bind_Ok in Hrun as ([] & s3 & Hloop1 & Hrun).
  assert (only_edges_written (after_clone s g) s3) as H23.
  { eapply (preserves_run only_edges_written); [|exact Hloop1]. frame. }
  rewrite (bind_reads _ _ _ _ (Graph_getEdges_reads _ _ _)) in Hrun.
  apply bind_Ok in Hrun as ([] & s4 & Hloop2 & Hrun).
  assert (only_edges_written s3 s4) as H34.
  { eapply (preserves_run only_edges_written); [|exact Hloop2]. frame. }
  exists s4. split; [by etrans|exact Hrun].
Qed.

Lemma evaluate_Ok_inv node g s s' :
  g < length (graph_objs s) →
  VAX_evaluateUserFunctionNode node g s = (Ok tt, s') →
  node_objs s'
  = built_nodes s (raw_of s (graph_objs s !!! g)) (Some (next_prefix s))
  ∧ length (graph_objs s') = S (length (graph_objs s))
  ∧ this_vax s'
    = VAX_set_counter (Number_succ (VAX.counter (this_vax s))) (this_vax s)
  ∧ length (edge_objs s')
    = length (edge_objs s) + length (Graph.edges (graph_objs s !!! g))
  ∧ (∀ g', g' ≠ g → g' < length (graph_objs s) →
           graph_objs s' !!! g' = graph_objs s !!! g')
  ∧ Graph.nodes (graph_objs s' !!! g)
    = filter (kept_in_graph (node_objs s') node)
             (Graph.nodes (graph_objs s !!! g))
      ++ filter (kept_in_clone (node_objs s'))
                (seq (length (node_objs s))
                     (length (Graph.nodes (graph_objs s !!! g)))).
Proof.
  intros Hg Hrun.
  destruct (evaluate_to_splice _ _ _ _ Hrun)
    as (s4 & (Hn4 & Hg4 & Ht4 & He4) & Hsplice).
  assert (Hlen4 : length (graph_objs s4) = S (length (graph_objs s))).
  { rewrite Hg4. cbn. rewrite length_app. cbn. lia. }
  destruct (evaluate_splice_run node g (length (graph_objs s)) s4)
    as (s'' & Hsplice' & Hn & He & Ht & Hlen & Hothers & Hnodes & _);
    [lia..|].
  rewrite Hsplice in Hsplice'. injection Hsplice' as <-.
  assert (Hold4 : ∀ g', g' < length (graph_objs s) →
            graph_objs s4 !!! g' = graph_objs s !!! g').
  { intros g' Hg'. rewrite Hg4. cbn. by apply lookup_total_app_l. }
  split; [by rewrite Hn, Hn4|]. split; [by rewrite Hlen|].
  split; [by rewrite Ht, Ht4|]. split.
  { rewrite He, He4. cbn. unfold built_edges.
    rewrite length_app, length_map. unfold raw_of. cbn.
    by rewrite length_map. }
  split.
  { intros g' Hg'g Hg'. rewrite Hothers by (done || lia). by apply Hold4. }
  rewrite Hnodes, Hn, Hold4 by done. do 2 f_equal.
  rewrite Hg4. cbn [after_clone graph_objs]. rewrite lookup_total_snoc.
  cbn [built_graph Graph.nodes]. unfold raw_of. cbn [RawGraph.nodes].
  by rewrite length_map.
Qed.

(** X15.  What a call [evaluateUserFunctionNode(node, graph)] that returns
    has done to the nodes, for any graph and any stored functions: it
    allocated one copy of every node of [graph] itself, with the prefix
    [uf_<counter>_] on its id, and [graph.nodes] is now the old nodes whose
    id is not the id of [node], followed by those copies whose component
    type does not start with [UF_].  The counter was incremented (as a
    number is: by one, until it holds 2^53), and no other existing graph
    was written. *)
Theorem X15_evaluate_appends_copies_of_the_graphs_own_nodes node g s s' :
  g < length (graph_objs s) →
  VAX_evaluateUserFunctionNode node g s = (Ok tt, s') →
  node_objs s'
  = node_objs s
    ++ map (λ r, Node_constructor (rawNode_of (node_objs s !!! r))
                                  (Some (next_prefix s)))
           (Graph.nodes (graph_objs s !!! g))
  ∧ Graph.nodes (graph_objs s' !!! g)
    = filter (kept_in_graph (node_objs s') node)
             (Graph.nodes (graph_objs s !!! g))
      ++ filter (kept_in_clone (node_objs s'))
                (seq (length (node_objs s))
                     (length (Graph.nodes (graph_objs s !!! g))))
  ∧ VAX.counter (this_vax s') = Number_succ (VAX.counter (this_vax s))
  ∧ ∀ g', g' ≠ g → g' < length (graph_objs s) →
          graph_objs s' !!! g' = graph_objs s !!! g'.
Proof.
  intros Hg Hrun.
  destruct (evaluate_Ok_inv _ _ _ _ Hg Hrun)
    as (Hnodes & _ & Hthis & _ & Hothers & Hlist).
  split; [|split; [exact Hlist|split; [by rewrite Hthis|exact Hothers]]].
  rewrite Hnodes. unfold built_nodes, raw_of. cbn [RawGraph.nodes].
  by rewrite map_map.
Qed.

Lemma X15_witness :
  let s := store_with host_graph in
  let s' := snd (VAX_evaluateUserFunctionNode 0 0 s) in
  node_objs s'
  = node_objs s
    ++ map (λ r, Node_constructor (rawNode_of (node_objs s !!! r))
                                  (Some (next_prefix s)))
           (Graph.nodes (graph_objs s !!! 0))
  ∧ Graph.nodes (graph_objs s' !!! 0)
    = filter (kept_in_graph (node_objs s') 0)
             (Graph.nodes (graph_objs s !!! 0))
      ++ filter (kept_in_clone (node_objs s'))
                (seq (length (node_objs s))
                     (length (Graph.nodes (graph_objs s !!! 0))))
  ∧ VAX.counter (this_vax s') = Number_succ (VAX.counter (this_vax s))
  ∧ ∀ g', g' ≠ 0 → g' < length (graph_objs s) →
          graph_objs s' !!! g' = graph_objs s !!! g'.
Proof.
  apply (X15_evaluate_appends_copies_of_the_graphs_own_nodes 0 0
           (store_with host_graph)).
  - vm_compute. lia.
  - vm_compute. reflexivity.
Defined.

Lemma evaluate_keeps_user_function ids node g s s' :
  has_user_function ids g s →
  VAX_evaluateUserFunctionNode node g s = (Ok tt, s') →
  has_user_function ids g s'.
Proof.
  intros (Hg & m & Hm & Hlt & Hids & Hkept) Hrun.
  destruct (evaluate_Ok_inv _ _ _ _ Hg Hrun)
    as (Hnodes & Hlen & _ & _ & _ & Hlist).
  split; [lia|].
  apply list_elem_of_lookup_1 in Hm as [i Hi].
  assert (node_objs s' !!! (length (node_objs s) + i)
          = Node_constructor (rawNode_of (node_objs s !!! m))
                             (Some (next_prefix s))) as Hcopy.
  { rewrite Hnodes. unfold built_nodes, raw_of. cbn [RawGraph.nodes].
    rewrite map_map.
    by apply (lookup_total_app_map
                (λ r, Node_constructor (rawNode_of (node_objs s !!! r))
                                       (Some (next_prefix s)))). }
  assert (kept_in_clone (node_objs s') (length (node_objs s) + i)) as Hkept'.
  { unfold kept_in_clone. by rewrite Hcopy. }
  apply lookup_lt_Some in Hi as Hi'.
  exists (length (node_objs s) + i). split; [|split; [|split]].
  - rewrite Hlist. apply elem_of_app. right.
    apply list_elem_of_filter. split; [done|]. apply elem_of_seq. lia.
  - rewrite Hnodes. unfold built_nodes, raw_of. cbn [RawGraph.nodes].
    rewrite length_app, !length_map. lia.
  - by rewrite Hcopy.
  - done.
Qed.

Lemma forEach_evaluate_keeps_user_function ids g l :
  ∀ s s',
    has_user_function ids g s →
    forEach l (λ node, VAX_evaluateUserFunctionNode node g) s = (Ok tt, s') →
    has_user_function ids g s'.
Proof.
  induction l as [|node l IH]; intros s s' Huf Hrun.
  { by injection Hrun as <-. }
  cbn [forEach] in Hrun. apply bind_Ok in Hrun as ([] & s1 & Hev & Hrun).
  eapply IH; [|exact Hrun]. by eapply evaluate_keeps_user_function.
Qed.

Lemma user_function_nodes_nonempty ids g s :
  has_user_function ids g s →
  filter (λ n, Node.c (node_objs s !!! n) ∈ ids)
         (Graph.nodes (graph_objs s !!! g)) ≠ [].
Proof.
  intros (_ & m & Hm & _ & Hids & _) Hnil.
  by apply (filter_nil_not_elem_of _ _ m Hnil).
Qed.

Lemma nonempty_length {A} (l : list A) :
  l ≠ [] → ¬ length l ≤ 0 ∧ length l ≠ 0.
Proof. destruct l; [done|]. intros _. cbn. lia. Qed.

Lemma inline_never_returns ids g fuel :
  ∀ graphArg rawUserFunctionsIds s v,
    resolved_graph graphArg (this_vax s) = Some g →
    effective_ids rawUserFunctionsIds (this_vax s) = ids →
    has_user_function ids g s →
    fst (VAX_inlineUserFunctionsInGraph fuel graphArg rawUserFunctionsIds s)
    ≠ Ok v.
Proof.
  induction fuel as [|fuel IH];
    intros graphArg rawIds s v Hg Hids Huf; [done|].
  cbn [VAX_inlineUserFunctionsInGraph]. unfold inlineUserFunctionsInGraph_body.
  rewrite (bind_reads _ _ (λ s, this_vax s)) by done.
  fold (resolved_graph graphArg (this_vax s)).
  fold (effective_ids rawIds (this_vax s)). rewrite Hg, Hids.
  unfold Graph_nodes_of at 1.
  rewrite (bind_run _ _ s (Graph.nodes (graph_objs s !!! g)) s) by done.
  rewrite (bind_reads _ _ _ _ (userFunction_nodes_reads _ _)).
  pose proof (user_function_nodes_nonempty _ _ _ Huf) as Hne.
  rewrite bool_decide_eq_false_2 by (by apply nonempty_length).
  unfold bind at 1.
  destruct (forEach _ _ s) as [[[]| |] s1] eqn:Hloop; [|done..].
  pose proof (forEach_evaluate_keeps_user_function _ _ _ _ _ Huf Hloop) as Huf1.
  unfold Graph_nodes_of.
  rewrite (bind_run _ _ s1 (Graph.nodes (graph_objs s1 !!! g)) s1) by done.
  rewrite (bind_reads _ _ _ _ (userFunction_nodes_reads _ _)).
  pose proof (user_function_nodes_nonempty _ _ _ Huf1) as Hne1.
  rewrite bool_decide_eq_false_2 by (by apply nonempty_length).
  apply IH; [done| |done]. unfold effective_ids. cbn. apply app_nil_r.
Qed.

(** X16.  Inlining cannot succeed on any graph that needs it: when the
    graph has a node of a user-function type whose name does not start
    with [UF_], no call of [inlineUserFunctionsInGraph] returns, however
    deep the recursion is allowed to go.  Every pass leaves a copy of such
    a node in the graph, so the method calls itself again (or an
    exception of a pass ends it). *)
Theorem X16_inlining_never_returns_on_a_graph_with_a_user_function
    fuel graphArg rawUserFunctionsIds s g v :
  resolved_graph graphArg (this_vax s) = Some g →
  has_user_function (effective_ids rawUserFunctionsIds (this_vax s)) g s →
  fst (VAX_inlineUserFunctionsInGraph fuel graphArg rawUserFunctionsIds s)
  ≠ Ok v.
Proof. intros Hg Huf. by eapply inline_never_returns. Qed.

Lemma X16_witness :
  fst (VAX_inlineUserFunctionsInGraph 5 None None (store_with host_graph))
  ≠ Ok (Some 0).
Proof.
  apply (X16_inlining_never_returns_on_a_graph_with_a_user_function
           5 None None (store_with host_graph) 0 (Some 0)).
  - reflexivity.
  - split; [vm_compute; lia|]. exists 0.
    split; [apply (bool_decide_unpack _); vm_compute; exact I|].
    split; [vm_compute; lia|].
    split; [apply (bool_decide_unpack _); vm_compute; exact I|].
    intros H. vm_compute in H. discriminate H.
Defined.

(** ** The rewiring step of a pass *)

Lemma is_marker_quiet marker name n s :
  ∃ res, is_marker marker name n s = (res, s).
Proof.
  unfold is_marker, bind, getNode.
  destruct (bool_decide _); [|by eexists].
  destruct (Any_get _ _); by eexists.
Qed.

Lemma findM_is_marker_inv marker name l s :
  ∃ res, findM (is_marker marker name) l s = (res, s)
         ∧ ∀ m, res = Ok (Some m) → m ∈ l.
Proof.
  induction l as [|n l (res & Hres & Hin)].
  { exists (Ok None). by split. }
  cbn [findM]. unfold bind at 1.
  destruct (is_marker_quiet marker name n s) as ([[|] | e |] & ->).
  - exists (Ok (Some n)). split; [done|]. intros m [= <-]. left.
  - exists res. split; [done|]. intros m Hm. right. by apply Hin.
  - exists (Throw e). by split.
  - exists OutOfFuel. by split.
Qed.

Lemma forEach_quiet {A} (f : A → M unit) l s :
  (∀ v, v ∈ l → snd (f v s) = s) → snd (forEach l f s) = s.
Proof.
  induction l as [|v l IH]; intros Hf; [done|].
  cbn [forEach]. unfold bind.
  pose proof (Hf v (list_elem_of_here _ _)) as Hv.
  destruct (f v s) as [[[]| |] s1]; cbn [snd] in Hv; subst s1; [|done..].
  apply IH. intros w Hw. apply Hf. by right.
Qed.

Lemma rewire_loop_quiet marker filt (name_of : Edge → string)
    (body : eref → eref → M unit) c l s :
  (∀ m, m ∈ Graph.nodes (graph_objs s !!! c) →
        filter (λ r, edge_touches (Some filt) (edge_objs s !!! r)
                                  (Node.id (node_objs s !!! m)))
               (Graph.edges (graph_objs s !!! c)) = []) →
  snd (forEach l (λ edge,
         e <- getEdge edge ;;
         cg <- getGraph c ;;
         found <- findM (is_marker marker (name_of e)) (Graph.nodes cg) ;;
         match found with
         | Some m =>
             inner <- Graph_getEdges c m (Some filt) ;;
             forEach inner (body edge)
         | None => ret tt
         end) s) = s.
Proof.
  intros Hnone. apply forEach_quiet. intros edge _.
  rewrite (bind_reads _ _ _ _ (getEdge_reads edge)).
  rewrite (bind_reads _ _ _ _ (getGraph_reads c)).
  unfold bind at 1.
  destruct (findM_is_marker_inv marker (name_of (edge_objs s !!! edge))
              (Graph.nodes (graph_objs s !!! c)) s)
    as ([[m|] | e |] & -> & Hin); [|done..].
  rewrite (bind_reads _ _ _ _ (Graph_getEdges_reads _ _ _)).
  by rewrite Hnone by by apply Hin.
Qed.

Lemma filter_ext_Forall {A} (P Q : A → Prop) `{∀ v, Decision (P v)}
    `{∀ v, Decision (Q v)} (l : list A) :
  Forall (λ v, P v ↔ Q v) l → filter P l = filter Q l.
Proof.
  induction 1 as [|v l Hv _ IH]; [done|].
  destruct (decide (P v)) as [HP|HP].
  - rewrite !filter_cons_True by tauto. by rewrite IH.
  - rewrite !filter_cons_False by tauto. done.
Qed.

Lemma filter_all {A} (P : A → Prop) `{∀ v, Decision (P v)} (l : list A) :
  Forall P l → filter P l = l.
Proof.
  induction 1 as [|v l Hv _ IH]; [done|].
  by rewrite filter_cons_True, IH.
Qed.

Section after_clone.
Context (s : Store) (g : gref).

Lemma after_clone_graph :
  graph_objs (after_clone s g) !!! length (graph_objs s)
  = built_graph s (raw_of s (graph_objs s !!! g)) (Some (next_prefix s)).
Proof. apply lookup_total_snoc. Qed.

Lemma after_clone_node i n :
  Graph.nodes (graph_objs s !!! g) !! i = Some n →
  node_objs (after_clone s g) !!! (length (node_objs s) + i)
  = Node_constructor (rawNode_of (node_objs s !!! n)) (Some (next_prefix s)).
Proof.
  intros Hi. cbn [after_clone node_objs]. unfold built_nodes, raw_of.
  cbn [RawGraph.nodes]. rewrite map_map.
  by apply (lookup_total_app_map
              (λ r, Node_constructor (rawNode_of (node_objs s !!! r))
                                     (Some (next_prefix s)))).
Qed.

Lemma after_clone_edge j e :
  Graph.edges (graph_objs s !!! g) !! j = Some e →
  edge_objs (after_clone s g) !!! (length (edge_objs s) + j)
  = Edge_constructor (rawEdge_of (edge_objs s !!! e)) (Some (next_prefix s))
                     None None.
Proof.
  intros Hj. cbn [after_clone edge_objs]. unfold built_edges, raw_of.
  cbn [RawGraph.edges]. rewrite map_map.
  by apply (lookup_total_app_map
              (λ r, Edge_constructor (rawEdge_of (edge_objs s !!! r))
                                     (Some (next_prefix s)) None None)).
Qed.

Lemma after_clone_nodes :
  Graph.nodes (graph_objs (after_clone s g) !!! length (graph_objs s))
  = seq (length (node_objs s)) (length (Graph.nodes (graph_objs s !!! g))).
Proof.
  rewrite after_clone_graph. cbn [built_graph Graph.nodes]. unfold raw_of.
  cbn [RawGraph.nodes]. by rewrite length_map.
Qed.

Lemma after_clone_edges :
  Graph.edges (graph_objs (after_clone s g) !!! length (graph_objs s))
  = seq (length (edge_objs s)) (length (Graph.edges (graph_objs s !!! g))).
Proof.
  rewrite after_clone_graph. cbn [built_graph Graph.edges]. unfold raw_of.
  cbn [RawGraph.edges]. by rewrite length_map.
Qed.

Lemma after_clone_actions r :
  r ∈ Graph.edges (graph_objs (after_clone s g) !!! length (graph_objs s)) →
  Edge.actions (edge_objs (after_clone s g) !!! r) = [].
Proof.
  intros Hr. rewrite after_clone_edges in Hr.
  apply elem_of_seq in Hr as [Hr1 Hr2].
  destruct (lookup_lt_is_Some_2 (Graph.edges (graph_objs s !!! g))
              (r - length (edge_objs s))) as [e He]; [lia|].
  replace r with (length (edge_objs s) + (r - length (edge_objs s))) by lia.
  rewrite (after_clone_edge _ _ He).
  by destruct (rawEdge_of _) as [[[? ?] ?] ?].
Qed.

(** No edge of the clone names a node of the clone. *)
Lemma after_clone_unrelated m r :
  prefix_unused s g →
  m ∈ Graph.nodes (graph_objs (after_clone s g) !!! length (graph_objs s)) →
  r ∈ Graph.edges (graph_objs (after_clone s g) !!! length (graph_objs s)) →
  Edge.inputNodeId (edge_objs (after_clone s g) !!! r)
  ≠ Node.id (node_objs (after_clone s g) !!! m)
  ∧ Edge.outputNodeId (edge_objs (after_clone s g) !!! r)
    ≠ Node.id (node_objs (after_clone s g) !!! m).
Proof.
  intros Hunused Hm Hr. rewrite after_clone_nodes in Hm.
  rewrite after_clone_edges in Hr.
  apply elem_of_seq in Hm as [Hm1 Hm2]. apply elem_of_seq in Hr as [Hr1 Hr2].
  destruct (lookup_lt_is_Some_2 (Graph.nodes (graph_objs s !!! g))
              (m - length (node_objs s))) as [n Hn]; [lia|].
  destruct (lookup_lt_is_Some_2 (Graph.edges (graph_objs s !!! g))
              (r - length (edge_objs s))) as [e He]; [lia|].
  replace m with (length (node_objs s) + (m - length (node_objs s))) by lia.
  replace r with (length (edge_objs s) + (r - length (edge_objs s))) by lia.
  rewrite (after_clone_node _ _ Hn), (after_clone_edge _ _ He).
  unfold prefix_unused in Hunused. rewrite Forall_forall in Hunused.
  specialize (Hunused e (list_elem_of_lookup_2 _ _ _ He)).
  rewrite Forall_forall in Hunused.
  destruct (Hunused n (list_elem_of_lookup_2 _ _ _ Hn)) as [Hin Hout].
  unfold rawEdge_of, Edge_constructor, Node_constructor, rawNode_of.
  by cbn.
Qed.

Lemma after_clone_no_match filt m :
  prefix_unused s g →
  m ∈ Graph.nodes (graph_objs (after_clone s g) !!! length (graph_objs s)) →
  filter (λ r, edge_touches (Some filt) (edge_objs (after_clone s g) !!! r)
                            (Node.id (node_objs (after_clone s g) !!! m)))
         (Graph.edges (graph_objs (after_clone s g) !!! length (graph_objs s)))
  = [].
Proof.
  intros Hunused Hm. apply filter_none. apply Forall_forall. intros r Hr.
  destruct (after_clone_unrelated m r Hunused Hm Hr) as (Hin & Hout).
  by destruct filt.
Qed.

Lemma evaluate_unused_prefix node :
  prefix_unused s g →
  VAX_evaluateUserFunctionNode node g s
  = evaluate_splice node g (length (graph_objs s)) (after_clone s g)
  ∨ (edge_objs (snd (VAX_evaluateUserFunctionNode node g s))
     = edge_objs (after_clone s g)
     ∧ fst (VAX_evaluateUserFunctionNode node g s) ≠ Ok tt).
Proof.
  intros Hunused.
  cut (∀ r, VAX_evaluateUserFunctionNode node g s = r →
            r = evaluate_splice node g (length (graph_objs s))
                                (after_clone s g)
            ∨ (edge_objs (snd r) = edge_objs (after_clone s g)
               ∧ fst r ≠ Ok tt)).
  { intros H. by apply H. }
  intros r Hr. unfold VAX_evaluateUserFunctionNode in Hr.
  rewrite (bind_reads _ _ (λ s, this_vax s)) in Hr by done.
  rewrite (bind_reads _ _ _ _ (getNode_reads node)) in Hr.
  rewrite (bind_run _ _ _ _ _ (generateNextID_run s)) in Hr.
  fold (next_prefix s) in Hr.
  destruct (decide (indexable (edge_objs s)
                              (Graph.edges (graph_objs s !!! g)))) as [Hd|Hd];
    last first.
  { rewrite (bind_raises _ _ _ _ _
               (Graph_clone_raises g (Some (next_prefix s))
                  (mkStore (node_objs s) (edge_objs s) (graph_objs s)
                     (VAX_set_counter
                        (Number_succ (VAX.counter (this_vax s)))
                        (this_vax s))) Hd)) in Hr.
    subst r. right. by split. }
  assert (Graph_clone g (Some (next_prefix s))
            (mkStore (node_objs s) (edge_objs s) (graph_objs s)
                     (VAX_set_counter (Number_succ (VAX.counter (this_vax s)))
                                      (this_vax s)))
          = (Ok (length (graph_objs s)), after_clone s g)) as Hclone.
  { by rewrite Graph_clone_Ok. }
  rewrite (bind_run _ _ _ _ _ Hclone) in Hr. clear Hclone.
  rewrite (bind_reads _ _ _ _ (Graph_getEdges_reads _ _ _)) in Hr.
  unfold bind at 1 in Hr.
  match type of Hr with
  | context [forEach ?l ?f (after_clone s g)] =>
      pose proof (rewire_loop_quiet "UF_Input" INPUT Edge.inputName
                    (λ edge userFunctionEdge,
                       ue <- getEdge userFunctionEdge ;;
                       setEdge edge (Edge_set_inputName (Edge.inputName ue)) ;;;
                       ue' <- getEdge userFunctionEdge ;;
                       setEdge edge
                         (Edge_set_inputNodeId (Edge.inputNodeId ue')) ;;;
                       setEdge userFunctionEdge (Edge_push_action "toDelete"))
                    (length (graph_objs s)) l (after_clone s g)
                    (λ m, after_clone_no_match INPUT m Hunused)) as Hquiet1;
      change (snd (forEach l f (after_clone s g)) = after_clone s g)
        in Hquiet1;
      destruct (forEach l f (after_clone s g)) as [[[]| |] s3]
  end; cbn [snd] in Hquiet1; subst s3;
    [|subst r; right; split; [reflexivity|discriminate]..].
  rewrite (bind_reads _ _ _ _ (Graph_getEdges_reads _ _ _)) in Hr.
  unfold bind at 1 in Hr.
  match type of Hr with
  | context [forEach ?l ?f (after_clone s g)] =>
      pose proof (rewire_loop_quiet "UF_Output" OUTPUT Edge.outputName
                    (λ edge userFunctionEdge,
                       ue <- getEdge userFunctionEdge ;;
                       setEdge edge
                         (Edge_set_outputName (Edge.outputName ue)) ;;;
                       ue' <- getEdge userFunctionEdge ;;
                       setEdge edge
                         (Edge_set_outputNodeId (Edge.outputNodeId ue')) ;;;
                       setEdge userFunctionEdge (Edge_push_action "toDelete"))
                    (length (graph_objs s)) l (after_clone s g)
                    (λ m, after_clone_no_match OUTPUT m Hunused)) as Hquiet2;
      change (snd (forEach l f (after_clone s g)) = after_clone s g)
        in Hquiet2;
      destruct (forEach l f (after_clone s g)) as [[[]| |] s4]
  end; cbn [snd] in Hquiet2; subst s4;
    [|subst r; right; split; [reflexivity|discriminate]..].
  left. by subst r.
Qed.

End after_clone.

(** X17.  The rewiring step of [evaluateUserFunctionNode] finds nothing to
    rewire, unless an edge of the graph already names a node id that
    carries the new prefix: the edges of the clone keep the node ids of
    the edges they were copied from, so none of them is an edge of a
    prefixed marker node.  Whatever the outcome of the call, no existing
    [Edge] object is changed and one copy per edge of the graph is
    allocated; when the call returns, [graph.edges] is the old edges
    that were not already marked [toDelete], the edges of the call node
    among them, followed by the copies of all edges. *)
Theorem X17_evaluate_rewires_no_edge node g s :
  Graph_wf s g → prefix_unused s g →
  edge_objs (snd (VAX_evaluateUserFunctionNode node g s))
  = edge_objs s
    ++ map (λ e, Edge_constructor (rawEdge_of (edge_objs s !!! e))
                                  (Some (next_prefix s)) None None)
           (Graph.edges (graph_objs s !!! g))
  ∧ (fst (VAX_evaluateUserFunctionNode node g s) = Ok tt →
     Graph.edges (graph_objs (snd (VAX_evaluateUserFunctionNode node g s))
                    !!! g)
     = filter (λ e, ¬ marked (edge_objs s) e)
              (Graph.edges (graph_objs s !!! g))
       ++ seq (length (edge_objs s))
              (length (Graph.edges (graph_objs s !!! g)))).
Proof.
  intros (Hg & _ & Hedges) Hunused.
  assert (edge_objs (after_clone s g)
          = edge_objs s
            ++ map (λ e, Edge_constructor (rawEdge_of (edge_objs s !!! e))
                                          (Some (next_prefix s)) None None)
                   (Graph.edges (graph_objs s !!! g))) as Hcopies.
  { cbn [after_clone edge_objs]. unfold built_edges, raw_of.
    cbn [RawGraph.edges]. by rewrite map_map. }
  destruct (evaluate_unused_prefix s g node Hunused) as [-> | [-> Hfail]];
    [|by split].
  assert (length (graph_objs (after_clone s g)) = S (length (graph_objs s)))
    as Hlen.
  { cbn. rewrite length_app. cbn. lia. }
  destruct (evaluate_splice_run node g (length (graph_objs s))
              (after_clone s g))
    as (s' & -> & _ & He & _ & _ & _ & _ & Hlist); [lia..|].
  cbn [fst snd]. split; [by rewrite He|]. intros _. rewrite Hlist.
  assert (graph_objs (after_clone s g) !!! g = graph_objs s !!! g) as ->.
  { cbn. by apply lookup_total_app_l. }
  f_equal.
  - apply filter_ext_Forall. eapply Forall_impl; [exact Hedges|]. cbn beta.
    intros e He'. unfold marked. cbn [after_clone edge_objs].
    unfold built_edges. by rewrite lookup_total_app_l.
  - rewrite <- after_clone_edges. apply filter_all. apply Forall_forall.
    intros r Hr [Hmarked | Hsystem].
    + unfold marked in Hmarked.
      rewrite (after_clone_actions s g r Hr) in Hmarked.
      by apply elem_of_nil in Hmarked.
    + assert (∃ m, m ∈ Graph.nodes (graph_objs (after_clone s g)
                                      !!! length (graph_objs s))
                   ∧ (Edge.outputNodeId (edge_objs (after_clone s g) !!! r)
                      = Node.id (node_objs (after_clone s g) !!! m)
                      ∨ Edge.inputNodeId (edge_objs (after_clone s g) !!! r)
                        = Node.id (node_objs (after_clone s g) !!! m)))
        as (m & Hm & Hsame).
      { unfold system_ids in Hsystem.
        destruct Hsystem as [Hin | Hin];
          apply list_elem_of_fmap in Hin as (m & Hid & Hm);
          apply list_elem_of_filter in Hm as [_ Hm]; exists m; auto. }
      destruct (after_clone_unrelated s g m r Hunused Hm Hr) as [Hin Hout].
      by destruct Hsame.
Qed.


Lemma X17_witness :
  let s := store_with host_graph in
  edge_objs (snd (VAX_evaluateUserFunctionNode 0 0 s))
  = edge_objs s
    ++ map (λ e, Edge_constructor (rawEdge_of (edge_objs s !!! e))
                                  (Some (next_prefix s)) None None)
           (Graph.edges (graph_objs s !!! 0))
  ∧ (fst (VAX_evaluateUserFunctionNode 0 0 s) = Ok tt →
     Graph.edges (graph_objs (snd (VAX_evaluateUserFunctionNode 0 0 s)) !!! 0)
     = filter (λ e, ¬ marked (edge_objs s) e)
              (Graph.edges (graph_objs s !!! 0))
       ++ seq (length (edge_objs s))
              (length (Graph.edges (graph_objs s !!! 0)))).
Proof.
  apply (X17_evaluate_rewires_no_edge 0 0 (store_with host_graph)).
  - unfold Graph_wf. apply (bool_decide_unpack _). vm_compute. exact I.
  - unfold prefix_unused. apply (bool_decide_unpack _). vm_compute. exact I.
Defined.

(** ** What the methods of the instance leave alone *)

#[global] Instance instance_kept_refl : Reflexive instance_kept.
Proof. intros s. by repeat split. Qed.

#[global] Instance instance_kept_trans : Transitive instance_kept.
Proof.
  intros s1 s2 s3 (Hn & He & Hg & Hf & Hs & Hu & Hc)
         (Hn' & He' & Hg' & Hf' & Hs' & Hu' & Hc').
  split; [by etrans|]. repeat split; (lia || congruence).
Qed.

Lemma grows_instance_kept s s' : grows s s' → instance_kept s s'.
Proof.
  intros (Hn & He & Hg & Ht). unfold instance_kept.
  rewrite He, Hg, Ht. by repeat split.
Qed.

Lemma instance_kept_setEdge r f : preserves instance_kept (setEdge r f).
Proof. intros s. repeat split; try done. cbn. by rewrite length_insert. Qed.

Lemma instance_kept_setGraph r f : preserves instance_kept (setGraph r f).
Proof. intros s. repeat split; try done. cbn. by rewrite length_insert. Qed.

Lemma instance_kept_generateNextID : preserves instance_kept VAX_generateNextID.
Proof.
  intros s. rewrite generateNextID_run. repeat split; try done. cbn.
  apply Number_succ_le.
Qed.

Lemma instance_kept_Graph_new rawGraph prefix :
  preserves instance_kept (Graph_new rawGraph prefix).
Proof.
  intros s. rewrite Graph_new_run.
  destruct (decide (indexable_raw rawGraph)); cbn [snd];
    unfold built_nodes, built_edges;
    (split; [by apply prefix_app_r|]); cbn; rewrite !length_app;
    repeat split; try done; lia.
Qed.

Lemma instance_kept_Graph_clone this prefix :
  preserves instance_kept (Graph_clone this prefix).
Proof. intros s. rewrite Graph_clone_spec. apply instance_kept_Graph_new. Qed.

Lemma instance_kept_composeTreeWithRootNode fuel this rootNodeId :
  preserves instance_kept (Graph_composeTreeWithRootNode fuel this rootNodeId).
Proof.
  intros s. apply grows_instance_kept.
  apply Graph_composeTreeWithRootNode_grows.
Qed.

(** Decomposes a goal [preserves instance_kept m]. *)
Ltac kept :=
  frame;
  lazymatch goal with
  | |- preserves _ (filterMi _ _ _) =>
      apply preserves_filterMi; [apply _..|intros ? ?]; kept
  | |- preserves _ (setEdge _ _) => apply instance_kept_setEdge
  | |- preserves _ (setGraph _ _) => apply instance_kept_setGraph
  | |- preserves _ VAX_generateNextID => apply instance_kept_generateNextID
  | |- preserves _ (Graph_clone _ _) => apply instance_kept_Graph_clone
  | |- preserves _ (Graph_new _ _) => apply instance_kept_Graph_new
  | |- preserves _ (Graph_composeTreeWithRootNode _ _ _) =>
      apply instance_kept_composeTreeWithRootNode
  | |- preserves _ (Graph_getRootNodes _) =>
      apply preserves_Graph_getRootNodes; apply _
  | |- preserves _ (is_system_node _) => unfold is_system_node; kept
  | |- preserves _ (is_userFunction_node _ _) =>
      unfold is_userFunction_node; kept
  | |- preserves _ (Graph_nodes_of _) => unfold Graph_nodes_of; kept
  | |- preserves _ (Graph_deleteNodes _ _) => unfold Graph_deleteNodes; kept
  | |- preserves _ (Graph_deleteEdges _ _) => unfold Graph_deleteEdges; kept
  | |- preserves _ (Graph_addNodes _ _) => unfold Graph_addNodes; kept
  | |- preserves _ (Graph_addEdges _ _) => unfold Graph_addEdges; kept
  | |- _ => idtac
  end.

Lemma instance_kept_evaluate node g :
  preserves instance_kept (VAX_evaluateUserFunctionNode node g).
Proof. unfold VAX_evaluateUserFunctionNode. kept. Qed.

Lemma instance_kept_inline fuel :
  ∀ graphArg rawUserFunctionsIds,
    preserves instance_kept
      (VAX_inlineUserFunctionsInGraph fuel graphArg rawUserFunctionsIds).
Proof.
  induction fuel as [|fuel IH]; intros graphArg rawIds.
  { apply preserves_out_of_fuel. apply _. }
  cbn [VAX_inlineUserFunctionsInGraph]. unfold inlineUserFunctionsInGraph_body.
  kept; try apply IH; apply instance_kept_evaluate.
Qed.

(** X18.  Whatever their outcome, [evaluateUserFunctionNode],
    [inlineUserFunctionsInGraph] and [composeTreesInlined] never write to
    an existing [Node] object (they only allocate new ones), never assign
    the fields [graph], [schema] or [userFunctionStorage] of the
    instance, and never lower [counter]. *)
Theorem X18_inlining_keeps_nodes_and_instance_fields
    fuel node g graphArg rawUserFunctionsIds s :
  instance_kept s (snd (VAX_evaluateUserFunctionNode node g s))
  ∧ instance_kept s
      (snd (VAX_inlineUserFunctionsInGraph fuel graphArg
              rawUserFunctionsIds s))
  ∧ instance_kept s (snd (VAX_composeTreesInlined fuel s)).
Proof.
  split; [apply instance_kept_evaluate|]. split; [apply instance_kept_inline|].
  revert s. change (preserves instance_kept (VAX_composeTreesInlined fuel)).
  unfold VAX_composeTreesInlined. kept. apply instance_kept_inline.
Qed.

(** X19.  [node.clone(prefix)] and [edge.clone(prefix)] allocate one new
    object and write to nothing else.  The new node has the prefix on its
    id and, without a prefix, the raw form of the original.  The new edge
    has the prefix on its two slot names and the node ids of the original,
    and it never inherits the [actions] or the attached nodes of the
    original. *)
Theorem X19_node_and_edge_clone this prefix s :
  (∃ s',
     Node_clone this prefix s = (Ok (length (node_objs s)), s')
     ∧ node_objs s' = node_objs s ++ [node_objs s' !!! length (node_objs s)]
     ∧ edge_objs s' = edge_objs s ∧ graph_objs s' = graph_objs s
     ∧ this_vax s' = this_vax s
     ∧ Node.id (node_objs s' !!! length (node_objs s))
       = prefix_or_empty prefix +:+ Node.id (node_objs s !!! this)
     ∧ Node_rawNode (length (node_objs s)) s'
       = (Ok (Node_constructor (rawNode_of (node_objs s !!! this)) prefix), s')
     ∧ Node_constructor (rawNode_of (node_objs s !!! this)) None
       = rawNode_of (node_objs s !!! this))
  ∧ (∃ s',
       Edge_clone this prefix s = (Ok (length (edge_objs s)), s')
       ∧ edge_objs s' = edge_objs s ++ [edge_objs s' !!! length (edge_objs s)]
       ∧ node_objs s' = node_objs s ∧ graph_objs s' = graph_objs s
       ∧ this_vax s' = this_vax s
       ∧ Edge_rawEdge (length (edge_objs s)) s'
         = (Ok (Edge.inputNodeId (edge_objs s !!! this),
                prefix_or_empty prefix +:+ Edge.inputName (edge_objs s !!! this),
                Edge.outputNodeId (edge_objs s !!! this),
                prefix_or_empty prefix
                +:+ Edge.outputName (edge_objs s !!! this)), s')
       ∧ Edge.actions (edge_objs s' !!! length (edge_objs s)) = []
       ∧ Edge.inputNode (edge_objs s' !!! length (edge_objs s)) = None
       ∧ Edge.outputNode (edge_objs s' !!! length (edge_objs s)) = None).
Proof.
  split.
  - eexists. split; [reflexivity|].
    cbn [node_objs edge_objs graph_objs this_vax].
    rewrite lookup_total_snoc. repeat split.
    rewrite Node_rawNode_reads. cbn [node_objs]. by rewrite lookup_total_snoc.
  - eexists. split; [reflexivity|].
    cbn [node_objs edge_objs graph_objs this_vax].
    rewrite lookup_total_snoc.
    repeat split;
      try (by destruct (rawEdge_of (edge_objs s !!! this)) as [[[? ?] ?] ?]).
    rewrite Edge_rawEdge_reads. cbn [edge_objs]. rewrite lookup_total_snoc.
    by destruct (edge_objs s !!! this).
Qed.

(** X20.  Saving and loading back is a no-op: on an instance whose [graph]
    field holds a graph, [loadGraph(saveGraph(filter))] and
    [loadGraph(saveFilteredGraph(filter))] return that very graph object,
    whatever the filter, and write nothing. *)
Theorem X20_loading_the_saved_graph_returns_the_current_graph
    filterNodeIds filterNodeIds' s g :
  VAX.graph (this_vax s) = Some g →
  (rawGraph <- VAX_saveGraph filterNodeIds ;; VAX_loadGraph rawGraph) s
  = (Ok g, s)
  ∧ (rawGraph <- VAX_saveFilteredGraph filterNodeIds' ;;
     VAX_loadGraph rawGraph) s
    = (Ok g, s).
Proof.
  intros Hg.
  assert (∀ m : M RawGraph,
            m = (current <- VAX_graph "rawGraph" ;; Graph_rawGraph current) →
            (rawGraph <- m ;; VAX_loadGraph rawGraph) s = (Ok g, s)) as Hboth.
  { intros m ->.
    assert (∀ reading, VAX_graph reading s = (Ok g, s)) as Hcurrent.
    { intros reading. unfold VAX_graph.
      rewrite (bind_reads _ _ (λ s, this_vax s)) by done. by rewrite Hg. }
    assert ((current <- VAX_graph "rawGraph" ;; Graph_rawGraph current) s
            = (Ok (raw_of s (graph_objs s !!! g)), s)) as Hsave.
    { rewrite (bind_run _ _ _ _ _ (Hcurrent _)). apply Graph_rawGraph_reads. }
    rewrite (bind_run _ _ _ _ _ Hsave). unfold VAX_loadGraph.
    rewrite (bind_run _ _ _ _ _ (Hcurrent _)).
    rewrite (bind_reads _ _ _ _ (Graph_equalsRaw_reads _ _)).
    unfold isEqual. rewrite bool_decide_eq_true_2 by done.
    rewrite (bind_reads _ _ (λ s, this_vax s)) by done. by rewrite Hg. }
  split; by apply Hboth.
Qed.

Lemma X20_witness :
  (rawGraph <- VAX_saveGraph (Some ["a"]) ;; VAX_loadGraph rawGraph)
    (store_with two_node_graph)
  = (Ok 0, store_with two_node_graph)
  ∧ (rawGraph <- VAX_saveFilteredGraph ["b"] ;; VAX_loadGraph rawGraph)
      (store_with two_node_graph)
    = (Ok 0, store_with two_node_graph).
Proof.
  apply (X20_loading_the_saved_graph_returns_the_current_graph
           (Some ["a"]) ["b"] (store_with two_node_graph) 0).
  reflexivity.
Defined.

(** X21.  On an instance whose graph has no node of a user-function type
    of the schema, [composeTreesInlined] is [composeTrees] on that graph:
    same result, same store. *)
Theorem X21_composeTreesInlined_without_user_functions fuel s g :
  VAX.graph (this_vax s) = Some g →
  Forall (λ n, Node.c (node_objs s !!! n)
               ∉ schema_userFunctions (VAX.schema (this_vax s)))
         (Graph.nodes (graph_objs s !!! g)) →
  VAX_composeTreesInlined (S fuel) s = Graph_composeTrees (S fuel) g s.
Proof.
  intros Hg Hnone. unfold VAX_composeTreesInlined.
  rewrite (bind_run _ _ _ _ _
             (inline_without_user_functions fuel None None s g Hg Hnone)).
  by rewrite Hg.
Qed.

Lemma X21_witness :
  VAX_composeTreesInlined 3 (store_with root_p1_p2_graph)
  = Graph_composeTrees 3 0 (store_with root_p1_p2_graph).
Proof.
  apply (X21_composeTreesInlined_without_user_functions
           2 (store_with root_p1_p2_graph) 0).
  - reflexivity.
  - apply (bool_decide_unpack _). vm_compute. exact I.
Defined.

(** ** The exceptions of a pass *)

Section raises_only.
Context (E : exn → Prop).

Lemma raises_only_ret {A} (v : A) : raises_only E (ret v).
Proof. by intros s. Qed.

Lemma raises_only_throw {A} e : E e → raises_only E (@throw A e).
Proof. by intros He s. Qed.

Lemma raises_only_reads {A} (m : M A) f : reads m f → raises_only E m.
Proof. intros Hm s. by rewrite Hm. Qed.

Lemma raises_only_bind {A B} (m : M A) (k : A → M B) :
  raises_only E m → (∀ v, raises_only E (k v)) → raises_only E (bind m k).
Proof.
  intros Hm Hk s. unfold bind. specialize (Hm s).
  destruct (m s) as [[v| |] s1]; [apply Hk|done..].
Qed.

Lemma raises_only_forEach {A} (f : A → M unit) l :
  (∀ v, raises_only E (f v)) → raises_only E (forEach l f).
Proof.
  intros Hf. induction l as [|v l IH]; [apply raises_only_ret|].
  cbn [forEach]. by apply raises_only_bind.
Qed.

Lemma raises_only_mapM {A B} (f : A → M B) l :
  (∀ v, raises_only E (f v)) → raises_only E (mapM f l).
Proof.
  intros Hf. induction l as [|v l IH]; [apply raises_only_ret|].
  cbn [mapM]. apply raises_only_bind; [done|]. intros w.
  apply raises_only_bind; [done|]. intros ws. apply raises_only_ret.
Qed.

Lemma raises_only_filterMi {A} (p : A → nat → M bool) l index :
  (∀ v i, raises_only E (p v i)) → raises_only E (filterMi p l index).
Proof.
  intros Hp. revert index. induction l as [|v l IH]; intros index;
    [apply raises_only_ret|].
  cbn [filterMi]. apply raises_only_bind; [done|]. intros b.
  apply raises_only_bind; [done|]. intros vs. apply raises_only_ret.
Qed.

Lemma raises_only_findM {A} (p : A → M bool) l :
  (∀ v, raises_only E (p v)) → raises_only E (findM p l).
Proof.
  intros Hp. induction l as [|v l IH]; [apply raises_only_ret|].
  cbn [findM]. apply raises_only_bind; [done|]. intros [|]; [|done].
  apply raises_only_ret.
Qed.

Lemma raises_only_getNode r : raises_only E (getNode r).
Proof. by intros s. Qed.

Lemma raises_only_getEdge r : raises_only E (getEdge r).
Proof. by intros s. Qed.

Lemma raises_only_getGraph r : raises_only E (getGraph r).
Proof. by intros s. Qed.

Lemma raises_only_getThis : raises_only E getThis.
Proof. by intros s. Qed.

Lemma raises_only_setEdge r f : raises_only E (setEdge r f).
Proof. by intros s. Qed.

Lemma raises_only_setGraph r f : raises_only E (setGraph r f).
Proof. by intros s. Qed.

Lemma raises_only_generateNextID : raises_only E VAX_generateNextID.
Proof. by intros s. Qed.

Lemma raises_only_Graph_getEdges this node edgeFilterBy :
  raises_only E (Graph_getEdges this node edgeFilterBy).
Proof. eapply raises_only_reads. apply Graph_getEdges_reads. Qed.

Lemma raises_only_is_marker marker name n :
  E (TypeError "Name") → raises_only E (is_marker marker name n).
Proof.
  intros HE s. unfold is_marker, bind, getNode.
  destruct (bool_decide _); [|done].
  by destruct (Node.a (node_objs s !!! n)).
Qed.

End raises_only.

(** Decomposes a goal [raises_only E m] along the structure of [m]. *)
Ltac raising :=
  lazymatch goal with
  | |- raises_only _ (bind _ _) =>
      apply raises_only_bind; [|intros ?]; raising
  | |- raises_only _ (match ?x with _ => _ end) => destruct x; raising
  | |- raises_only _ (ret _) => apply raises_only_ret
  | |- raises_only _ (forEach _ _) =>
      apply raises_only_forEach; intros ?; raising
  | |- raises_only _ (findM _ _) =>
      apply raises_only_findM; intros ?; raising
  | |- raises_only _ (mapM _ _) =>
      apply raises_only_mapM; intros ?; raising
  | |- raises_only _ (filterM _ _) =>
      apply raises_only_filterMi; intros ? ?; raising
  | |- raises_only _ (filterMi _ _ _) =>
      apply raises_only_filterMi; intros ? ?; raising
  | |- raises_only _ (getNode _) => apply raises_only_getNode
  | |- raises_only _ (getEdge _) => apply raises_only_getEdge
  | |- raises_only _ (getGraph _) => apply raises_only_getGraph
  | |- raises_only _ getThis => apply raises_only_getThis
  | |- raises_only _ (setEdge _ _) => apply raises_only_setEdge
  | |- raises_only _ (setGraph _ _) => apply raises_only_setGraph
  | |- raises_only _ VAX_generateNextID => apply raises_only_generateNextID
  | |- raises_only _ (Graph_getEdges _ _ _) =>
      apply raises_only_Graph_getEdges
  | |- raises_only _ (is_system_node _) => unfold is_system_node; raising
  | |- raises_only _ (is_userFunction_node _ _) =>
      unfold is_userFunction_node; raising
  | |- raises_only _ (Graph_deleteNodes _ _) =>
      unfold Graph_deleteNodes; raising
  | |- raises_only _ (Graph_deleteEdges _ _) =>
      unfold Graph_deleteEdges; raising
  | |- raises_only _ (Graph_addNodes _ _) => unfold Graph_addNodes; raising
  | |- raises_only _ (Graph_addEdges _ _) => unfold Graph_addEdges; raising
  | |- _ => idtac
  end.

(** X22.  The only exceptions that [evaluateUserFunctionNode] can raise
    are the [TypeError] that reading [Name] of an attribute bag that is
    [undefined] or [null] raises and, when an edge of the graph names an
    inherited member as its consumer, the [TypeError] of the constructor
    that [clone] calls; it never raises an [Error], and it always ends. *)
Theorem X22_evaluate_raises_only_the_TypeError_of_Name node g s :
  match fst (VAX_evaluateUserFunctionNode node g s) with
  | Ok _ => True
  | Throw e =>
      e = TypeError "Name"
      ∨ (e = TypeError "Symbol.iterator"
         ∧ ¬ indexable (edge_objs s) (Graph.edges (graph_objs s !!! g)))
  | OutOfFuel => False
  end.
Proof.
  unfold VAX_evaluateUserFunctionNode.
  rewrite (bind_reads _ _ (λ s, this_vax s)) by done.
  rewrite (bind_reads _ _ _ _ (getNode_reads node)).
  rewrite (bind_run _ _ _ _ _ (generateNextID_run s)).
  set (s1 := mkStore _ _ _ _).
  destruct (decide (indexable (edge_objs s)
                              (Graph.edges (graph_objs s !!! g)))) as [Hd|Hd].
  - rewrite (bind_run _ _ _ _ _ (Graph_clone_Ok g _ s1 Hd)).
    match goal with
    | |- match fst (?m ?s2) with _ => _ end =>
        cut (raises_only (λ e, e = TypeError "Name") m);
          [intros H; specialize (H s2); destruct (fst (m s2)); auto|]
    end.
    raising. all: by apply raises_only_is_marker.
  - rewrite (bind_raises _ _ _ _ _ (Graph_clone_raises g _ s1 Hd)).
    cbn [fst]. by right.
Qed.
